(** * Epic Dungeon Crawler: grid core

    A shallow embedding of the algorithmic core of the game
    ([game/pathfinding.py], [game/tile.py], [game/world/dungeon.py]):
    the A* search over a boolean walkability mask, the tile grid with its
    field-of-view pass, and the room-and-corridor level generator; and of
    the code that moves over the grid ([game/entity.py], [game/enemy.py],
    [game/player.py]).

    Python integers are unbounded, so coordinates are [Z].  Exceptions are
    an explicit error outcome; [while] loops take a fuel argument and
    report [OutOfFuel] when it runs out; the recursive restart of the
    generator takes the depth the interpreter's recursion limit leaves
    and raises RecursionError beyond it.  Sets and dictionaries are
    stdpp's [gset] and [gmap]. *)

From Stdlib Require Import ZArith Lia Bool.
From stdpp Require Import base tactics option list numbers gmap sets fin_sets fin_maps.

Local Open Scope Z_scope.

(** ** Outcomes of Python code *)

Inductive exn := IndexError | ValueError | KeyError | RecursionError.

Inductive outcome (A : Type) : Type :=
| Done (a : A)
| Raised (e : exn)
| OutOfFuel.
Arguments Done {A} a.
Arguments Raised {A} e.
Arguments OutOfFuel {A}.

#[global] Instance outcome_ret : MRet outcome := fun A a => Done a.
#[global] Instance outcome_bind : MBind outcome := fun A B k m =>
  match m with
  | Done a => k a
  | Raised e => Raised e
  | OutOfFuel => OutOfFuel
  end.

(** [for x in xs: body], threading the loop-carried state. *)
Fixpoint for_each {A S} (xs : list A) (body : A -> S -> outcome S) (s : S)
  : outcome S :=
  match xs with
  | [] => Done s
  | x :: xs' => s' ← body x s; for_each xs' body s'
  end.

(** [[f(x) for x in xs]]. *)
Fixpoint comprehension {A B} (xs : list A) (f : A -> outcome B)
  : outcome (list B) :=
  match xs with
  | [] => Done []
  | x :: xs' => b ← f x; bs ← comprehension xs' f; Done (b :: bs)
  end.

(** [range(a, b)]. *)
Definition range (a b : Z) : list Z := seqZ a (b - a).

(** [l[i]] with Python's index rules: a negative index counts from the end,
    anything outside [-len, len) raises IndexError. *)
Definition norm_index (n i : Z) : option nat :=
  if (0 <=? i) && (i <? n) then Some (Z.to_nat i)
  else if (- n <=? i) && (i <? 0) then Some (Z.to_nat (n + i))
  else None.

Definition py_index {A} (l : list A) (i : Z) : outcome A :=
  match norm_index (Z.of_nat (length l)) i with
  | Some k => match l !! k with Some a => Done a | None => Raised IndexError end
  | None => Raised IndexError
  end.

(** [l[i] = v]. *)
Definition py_store {A} (l : list A) (i : Z) (v : A) : outcome (list A) :=
  match norm_index (Z.of_nat (length l)) i with
  | Some k => Done (<[k := v]> l)
  | None => Raised IndexError
  end.

(** ** settings.py *)

Module Settings.

Definition GRID_WIDTH : Z := 60.
Definition GRID_HEIGHT : Z := 40.
Definition VISIBILITY_RADIUS : Z := 8.

End Settings.

(** ** pathfinding.py *)

Definition pos : Type := Z * Z.

Module Pathfinding.

(** [heuristic(a, b)]: Manhattan distance. *)
Definition heuristic (a b : pos) : Z :=
  Z.abs (a.1 - b.1) + Z.abs (a.2 - b.2).

(** Entries of [open_set] are tuples [(f, (x, y))]; Python compares them
    lexicographically. *)
Definition entry : Type := Z * pos.

Definition entry_le (a b : entry) : bool :=
  (a.1 <? b.1)
  || ((a.1 =? b.1)
      && ((a.2.1 <? b.2.1) || ((a.2.1 =? b.2.1) && (a.2.2 <=? b.2.2)))).

(** [heapq] on a list of tuples: [heappop] hands back the least entry.
    Tuples of integers are totally ordered, so which entry comes out does
    not depend on the layout of the heap array; the queue is kept here as
    a list in ascending order. *)
Fixpoint heappush (q : list entry) (e : entry) : list entry :=
  match q with
  | [] => [e]
  | e' :: q' => if entry_le e e' then e :: q else e' :: heappush q' e
  end.

Definition heappop (q : list entry) : option (entry * list entry) :=
  match q with
  | [] => None
  | e :: q' => Some (e, q')
  end.

Record state := {
  open_set : list entry;
  closed_set : gset pos;
  g_score : gmap pos Z;
  f_score : gmap pos Z;
  came_from : gmap pos pos
}.

Definition in_bounds (w h : Z) (p : pos) : bool :=
  (0 <=? p.1) && (p.1 <? w) && (0 <=? p.2) && (p.2 <? h).

(** [grid[p[1]][p[0]]]. *)
Definition cell (grid : list (list bool)) (p : pos) : outcome bool :=
  row ← py_index grid p.2; py_index row p.1.

Definition dict_get {V} (d : gmap pos V) (k : pos) : outcome V :=
  match d !! k with Some v => Done v | None => Raised KeyError end.

Definition directions : list (Z * Z) := [(0, -1); (1, 0); (0, 1); (-1, 0)].

(** Body of [for dx, dy in directions]. *)
Definition visit (grid : list (list bool)) (w h : Z) (goal current : pos)
    (d : Z * Z) (st : state) : outcome state :=
  let neighbor := (current.1 + d.1, current.2 + d.2) in
  if negb (in_bounds w h neighbor) then Done st else
  walkable ← cell grid neighbor;
  if negb walkable || bool_decide (neighbor ∈ closed_set st) then Done st else
  gc ← dict_get (g_score st) current;
  let tentative_g_score := gc + 1 in
  let better :=
    match g_score st !! neighbor with
    | None => true
    | Some gn => tentative_g_score <? gn
    end in
  if better then
    let f := tentative_g_score + heuristic neighbor goal in
    let queued := bool_decide (neighbor ∈ (snd <$> open_set st)) in
    Done {| open_set := if queued then open_set st
                        else heappush (open_set st) (f, neighbor);
            closed_set := closed_set st;
            g_score := <[neighbor := tentative_g_score]> (g_score st);
            f_score := <[neighbor := f]> (f_score st);
            came_from := <[neighbor := current]> (came_from st) |}
  else Done st.

(** [path = [current]; while current in came_from: ...], before the
    final [reverse]. *)
Fixpoint walk_back (fuel : nat) (cf : gmap pos pos) (current : pos)
  : outcome (list pos) :=
  match fuel with
  | O => OutOfFuel
  | S fuel' =>
      match cf !! current with
      | None => Done [current]
      | Some parent =>
          rest ← walk_back fuel' cf parent; Done (rest ++ [current])
      end
  end.

(** [while open_set: ...]. *)
Fixpoint search (fuel : nat) (grid : list (list bool)) (w h : Z) (goal : pos)
    (st : state) : outcome (list pos) :=
  match fuel with
  | O => OutOfFuel
  | S fuel' =>
      match heappop (open_set st) with
      | None => Done []
      | Some ((_, current), rest) =>
          if bool_decide (current = goal) then
            walk_back (S (Z.to_nat (w * h))) (came_from st) current
          else
            let st1 := {| open_set := rest;
                          closed_set := {[current]} ∪ closed_set st;
                          g_score := g_score st;
                          f_score := f_score st;
                          came_from := came_from st |} in
            st2 ← for_each directions (visit grid w h goal current) st1;
            search fuel' grid w h goal st2
      end
  end.

Definition init (start goal : pos) : state :=
  {| open_set := heappush [] (heuristic start goal, start);
     closed_set := ∅;
     g_score := {[start := 0]};
     f_score := {[start := heuristic start goal]};
     came_from := ∅ |}.

Definition grid_height (grid : list (list bool)) : Z := Z.of_nat (length grid).
Definition grid_width (grid : list (list bool)) : Z :=
  match grid with
  | [] => 0
  | row :: _ => Z.of_nat (length row)
  end.

(** The loop pops one cell per round and never pops a cell twice, so
    [w * h + 1] rounds are enough (see [astar_spec]). *)
Definition astar_fuel (fuel : nat) (grid : list (list bool)) (start goal : pos)
  : outcome (list pos) :=
  let h := grid_height grid in
  let w := grid_width grid in
  if negb (in_bounds w h start) || negb (in_bounds w h goal) then Done [] else
  if bool_decide (start = goal) then Done [start] else
  walkable ← cell grid goal;
  if negb walkable then Done [] else
  search fuel grid w h goal (init start goal).

Definition astar (grid : list (list bool)) (start goal : pos)
  : outcome (list pos) :=
  astar_fuel (S (Z.to_nat (grid_width grid * grid_height grid))) grid start goal.

(** *** Vocabulary of the correctness proof *)

Definition nodes (st : state) : list pos := snd <$> open_set st.

(** The cell next to [c] in direction [d]. *)
Definition next (c : pos) (d : Z * Z) : pos := (c.1 + d.1, c.2 + d.2).

(** [reach grid w h a b]: [b] is reached from [a] by 4-directional steps,
    each onto a walkable cell of the grid.  The first cell itself is not
    required to be walkable. *)
Inductive reach (grid : list (list bool)) (w h : Z) (a : pos) : pos -> Prop :=
| reach_here : reach grid w h a a
| reach_step b d :
    reach grid w h a b ->
    d ∈ directions ->
    in_bounds w h (next b d) = true ->
    cell grid (next b d) = Done true ->
    reach grid w h a (next b d).

(** Loop invariant of [search]. *)
Record inv (w h : Z) (goal : pos) (st : state) : Prop := {
  inv_open_inside : forall p, p ∈ nodes st -> in_bounds w h p = true;
  inv_open_nodup : NoDup (nodes st);
  inv_closed_inside : forall p, p ∈ closed_set st -> in_bounds w h p = true;
  inv_disjoint : forall p, p ∈ nodes st -> p ∉ closed_set st;
  inv_scored : forall p,
    is_Some (g_score st !! p) <-> p ∈ closed_set st \/ p ∈ nodes st;
  inv_score_range : forall p gp, g_score st !! p = Some gp ->
    0 <= gp <= Z.of_nat (size (closed_set st))
    /\ (p ∈ closed_set st -> gp < Z.of_nat (size (closed_set st)));
  inv_parent : forall n p, came_from st !! n = Some p ->
    p ∈ closed_set st
    /\ exists gp, g_score st !! p = Some gp /\ g_score st !! n = Some (gp + 1);
  inv_goal : goal ∉ closed_set st
}.

(** The walkable neighbour of [c] in direction [d] is closed or queued. *)
Definition expanded (grid : list (list bool)) (w h : Z) (st : state)
    (c : pos) (d : Z * Z) : Prop :=
  in_bounds w h (next c d) = true -> cell grid (next c d) = Done true ->
  next c d ∈ closed_set st \/ next c d ∈ nodes st.

Definition closure (grid : list (list bool)) (w h : Z) (st : state) : Prop :=
  forall c d, c ∈ closed_set st -> d ∈ directions -> expanded grid w h st c d.

(** What [came_from] records: every entry is one step onto a walkable
    cell, and every scored cell but the start has an entry. *)
Record links (grid : list (list bool)) (w h : Z) (start : pos) (st : state)
  : Prop := {
  links_step : forall n p, came_from st !! n = Some p ->
    exists d, d ∈ directions /\ n = next p d
              /\ in_bounds w h n = true /\ cell grid n = Done true;
  links_root : forall n, is_Some (g_score st !! n) ->
    n = start \/ is_Some (came_from st !! n);
  links_start : came_from st !! start = None
}.

(** A list of cells in which every cell after the first is one step
    from its predecessor, onto a walkable cell. *)
Fixpoint walk (grid : list (list bool)) (w h : Z) (path : list pos) : Prop :=
  match path with
  | a :: (b :: _) as rest =>
      (exists d, d ∈ directions /\ b = next a d)
      /\ in_bounds w h b = true /\ cell grid b = Done true
      /\ walk grid w h rest
  | _ => True
  end.

(** All rows of the mask are as long as the first one. *)
Definition rectangular (grid : list (list bool)) : Prop :=
  Forall (fun row => Z.of_nat (length row) = grid_width grid) grid.

(** The state after [current] was popped and closed. *)
Definition popped (st : state) (current : pos) (rest : list entry) : state :=
  {| open_set := rest;
     closed_set := {[current]} ∪ closed_set st;
     g_score := g_score st;
     f_score := f_score st;
     came_from := came_from st |}.

(** The states in which the [while] loop of [astar] stands at the head
    of its rounds, from the first round to the last. *)
Fixpoint search_states (fuel : nat) (grid : list (list bool)) (w h : Z)
    (goal : pos) (st : state) : list state :=
  match fuel with
  | O => []
  | S fuel' =>
      st :: match heappop (open_set st) with
            | None => []
            | Some ((_, current), rest) =>
                if bool_decide (current = goal) then [] else
                match for_each directions (visit grid w h goal current)
                        (popped st current rest) with
                | Done st2 => search_states fuel' grid w h goal st2
                | _ => []
                end
            end
  end.

(** The same for a call of [astar]: no state when [astar] returns
    before its loop. *)
Definition astar_states (grid : list (list bool)) (start goal : pos)
  : list state :=
  let h := grid_height grid in
  let w := grid_width grid in
  if negb (in_bounds w h start) || negb (in_bounds w h goal) then [] else
  if bool_decide (start = goal) then [] else
  match cell grid goal with
  | Done true =>
      search_states (S (Z.to_nat (w * h))) grid w h goal (init start goal)
  | _ => []
  end.

(** Two masks of the same shape that agree on every cell but [p]. *)
Definition differ_only_at (g1 g2 : list (list bool)) (p : pos) : Prop :=
  length g1 = length g2
  /\ forall (j : nat) (row1 row2 : list bool),
       g1 !! j = Some row1 -> g2 !! j = Some row2 ->
       length row1 = length row2
       /\ forall i : nat, (Z.of_nat i, Z.of_nat j) <> p -> row1 !! i = row2 !! i.

(** *** Reference: breadth-first search

    The length, in cells, of a shortest 4-directional path; [None] when
    the goal cannot be reached.  Used only to compare [astar] with. *)
Definition walkable_at (grid : list (list bool)) (p : pos) : bool :=
  match cell grid p with Done true => true | _ => false end.

Definition bfs_next (grid : list (list bool)) (w h : Z) (visited : gset pos)
    (frontier : list pos) : list pos :=
  remove_dups
    (filter (fun p => in_bounds w h p && walkable_at grid p
                      && bool_decide (p ∉ visited) = true)
       (c ← frontier; next c <$> directions)).

Fixpoint bfs (fuel : nat) (grid : list (list bool)) (w h : Z) (goal : pos)
    (visited : gset pos) (frontier : list pos) (cells : nat) : option nat :=
  match fuel with
  | O => None
  | S fuel' =>
      if bool_decide (goal ∈ frontier) then Some cells else
      match bfs_next grid w h visited frontier with
      | [] => None
      | layer =>
          bfs fuel' grid w h goal (list_to_set layer ∪ visited) layer (S cells)
      end
  end.

Definition shortest_length (grid : list (list bool)) (start goal : pos)
  : option nat :=
  let w := grid_width grid in
  let h := grid_height grid in
  bfs (S (Z.to_nat (w * h))) grid w h goal {[start]} [start] 1.

(** A list of cells is a walk: each cell after the first is next to its
    predecessor, inside the mask and walkable. *)
Fixpoint is_walk (grid : list (list bool)) (path : list pos) : bool :=
  match path with
  | a :: (b :: _) as rest =>
      bool_decide (b ∈ next a <$> directions)
      && in_bounds (grid_width grid) (grid_height grid) b
      && walkable_at grid b
      && is_walk grid rest
  | _ => true
  end.

End Pathfinding.

(** ** tile.py *)

Inductive TileType :=
  WALL | FLOOR | WATER | LAVA | DOOR | STAIRS_DOWN | STAIRS_UP.

#[global] Instance TileType_eq_dec : EqDecision TileType.
Proof. solve_decision. Defined.

Record Tile := {
  type : TileType;
  variant : Z;
  explored : bool;
  visible : bool
}.

(** [Tile(type)]: [variant = 0], [explored = visible = False]. *)
Definition new_tile (t : TileType) : Tile :=
  {| type := t; variant := 0; explored := false; visible := false |}.

Definition is_walkable (t : Tile) : bool :=
  match type t with
  | FLOOR | DOOR | STAIRS_DOWN | STAIRS_UP => true
  | _ => false
  end.

Definition is_transparent (t : Tile) : bool :=
  negb (bool_decide (type t = WALL)).

Definition set_visible (v : bool) (t : Tile) : Tile :=
  {| type := type t; variant := variant t; explored := explored t; visible := v |}.
Definition set_explored (v : bool) (t : Tile) : Tile :=
  {| type := type t; variant := variant t; explored := v; visible := visible t |}.
Definition set_variant (v : Z) (t : Tile) : Tile :=
  {| type := type t; variant := v; explored := explored t; visible := visible t |}.

(** ** The [random] module

    The generator draws from Python's global random source.  The source is
    a tape of naturals read left to right; every value a call can return
    is returned for some tape. *)
Module Random.

Record t := { tape : nat -> N; cursor : nat }.

Definition draw (r : t) : N * t :=
  (tape r (cursor r), {| tape := tape r; cursor := S (cursor r) |}).

(** [random.randint(a, b)]: ValueError on an empty range. *)
Definition randint (a b : Z) (r : t) : outcome (Z * t) :=
  if a <=? b then
    let '(v, r') := draw r in Done (a + Z.of_N v `mod` (b - a + 1), r')
  else Raised ValueError.

(** [random.choice(seq)] as the chosen index: IndexError on an empty
    sequence. *)
Definition choice_index (n : nat) (r : t) : outcome (nat * t) :=
  match n with
  | O => Raised IndexError
  | S _ => let '(v, r') := draw r in Done (N.to_nat v `mod` n, r')%nat
  end.

(** [random.choice([True, False])]. *)
Definition choice_bool (r : t) : outcome (bool * t) :=
  '(k, r') ← choice_index 2 r;
  Done (match k with O => true | _ => false end, r').

(** [random.random() < num/den]. *)
Definition random_lt (num den : N) (r : t) : bool * t :=
  let '(v, r') := draw r in ((v `mod` den <? num)%N, r').

End Random.

(** ** world/dungeon.py *)

Module Room.

Inductive kind := normal | entrance | exit.

Record t := {
  x : Z;
  y : Z;
  width : Z;
  height : Z;
  room_type : kind;
  connected : bool
}.

(** [Room(x, y, w, h)]. *)
Definition make (x y w h : Z) : t :=
  {| x := x; y := y; width := w; height := h;
     room_type := normal; connected := false |}.

(** [//] is floor division, as [Z.div] is for the positive divisor 2. *)
Definition center (r : t) : pos :=
  (x r + width r `div` 2, y r + height r `div` 2).

Definition overlaps (self other : t) (buffer : Z) : bool :=
  (x self <? x other + width other + buffer)
  && (x other <? x self + width self + buffer)
  && (y self <? y other + height other + buffer)
  && (y other <? y self + height self + buffer).

Definition set_connected (c : bool) (r : t) : t :=
  {| x := x r; y := y r; width := width r; height := height r;
     room_type := room_type r; connected := c |}.
Definition set_room_type (k : kind) (r : t) : t :=
  {| x := x r; y := y r; width := width r; height := height r;
     room_type := k; connected := connected r |}.

(** [random_position(edge_buffer)]. *)
Definition random_position (self : t) (edge_buffer : Z) (r : Random.t)
  : outcome (pos * Random.t) :=
  '(px, r) ← Random.randint (x self + edge_buffer)
               (x self + width self - 1 - edge_buffer) r;
  '(py, r) ← Random.randint (y self + edge_buffer)
               (y self + height self - 1 - edge_buffer) r;
  Done ((px, py), r).

Definition get_random_wall_position (self : t) (r : Random.t)
  : outcome (pos * Random.t) :=
  '(wall, r) ← Random.randint 0 3 r;
  if wall =? 0 then
    '(px, r) ← Random.randint (x self + 1) (x self + width self - 2) r;
    Done ((px, y self), r)
  else if wall =? 1 then
    '(py, r) ← Random.randint (y self + 1) (y self + height self - 2) r;
    Done ((x self + width self - 1, py), r)
  else if wall =? 2 then
    '(px, r) ← Random.randint (x self + 1) (x self + width self - 2) r;
    Done ((px, y self + height self - 1), r)
  else
    '(py, r) ← Random.randint (y self + 1) (y self + height self - 2) r;
    Done ((x self, py), r).

End Room.

Module Biome.

Inductive t := CAVERN | FOREST | ICE | LAVA | SHADOW | CRYSTAL.

End Biome.

Module Dungeon.

(** The fields of [Dungeon] that generation, visibility and movement
    use.  [rooms] holds the [Room] objects in creation order; a room is
    referred to by its index, which stands for the identity of the
    object. *)
Record t := {
  width : Z;
  height : Z;
  grid : list (list Tile);
  rooms : list Room.t;
  stairs_down : option pos;
  player_start : option pos
}.

Definition with_grid (d : t) (g : list (list Tile)) : t :=
  {| width := width d; height := height d; grid := g; rooms := rooms d;
     stairs_down := stairs_down d; player_start := player_start d |}.
Definition with_rooms (d : t) (rs : list Room.t) : t :=
  {| width := width d; height := height d; grid := grid d; rooms := rs;
     stairs_down := stairs_down d; player_start := player_start d |}.

(** [self.grid[y][x]]. *)
Definition tile (d : t) (x y : Z) : outcome Tile :=
  row ← py_index (grid d) y; py_index row x.

(** [self.grid[y][x] = v]. *)
Definition store (d : t) (x y : Z) (v : Tile) : outcome t :=
  row ← py_index (grid d) y;
  row' ← py_store row x v;
  g' ← py_store (grid d) y row';
  Done (with_grid d g').

(** [self.grid[y][x].field = v]: the tile object is updated in place. *)
Definition modify (d : t) (x y : Z) (f : Tile -> Tile) : outcome t :=
  v ← tile d x y; store d x y (f v).

Definition inside (d : t) (x y : Z) : bool :=
  (0 <=? x) && (x <? width d) && (0 <=? y) && (y <? height d).

(** [is_position_valid]: [and] evaluates the tile only when both bounds
    tests passed. *)
Definition is_position_valid (d : t) (x y : Z) : outcome bool :=
  if inside d x y then v ← tile d x y; Done (is_walkable v) else Done false.

(** *** Field of view *)

(** One round of the [while] loop of [has_line_of_sight]. *)
Fixpoint los_walk (fuel : nat) (d : t) (x0 y0 x1 y1 dx dy sx sy err : Z)
  : outcome bool :=
  match fuel with
  | O => OutOfFuel
  | S fuel' =>
      if (x0 =? x1) && (y0 =? y1) then Done true else
      blocked ← (if inside d x0 y0 then
                   v ← tile d x0 y0;
                   Done (negb (is_transparent v)
                         && negb ((x0 =? x1) && (y0 =? y1)))
                 else Done false);
      if blocked : bool then Done false else
      let e2 := 2 * err in
      let '(err, x0) := if - dy <? e2 then (err - dy, x0 + sx) else (err, x0) in
      let '(err, y0) := if e2 <? dx then (err + dx, y0 + sy) else (err, y0) in
      los_walk fuel' d x0 y0 x1 y1 dx dy sx sy err
  end.

(** Every round moves one step closer in x, in y or in both, so the walk
    takes at most [dx + dy] rounds (see [has_line_of_sight_total]). *)
Definition has_line_of_sight (d : t) (x0 y0 x1 y1 : Z) : outcome bool :=
  let dx := Z.abs (x1 - x0) in
  let dy := Z.abs (y1 - y0) in
  let sx := if x0 <? x1 then 1 else -1 in
  let sy := if y0 <? y1 then 1 else -1 in
  let err := dx - dy in
  los_walk (S (Z.to_nat (dx + dy))) d x0 y0 x1 y1 dx dy sx sy err.

(** The cells on which the loop of [has_line_of_sight] stands at the
    head of its rounds, one after the other, up to the target and
    without it: the walk as it goes when no tile blocks it. *)
Fixpoint los_cells (fuel : nat) (x0 y0 x1 y1 dx dy sx sy err : Z)
  : list pos :=
  match fuel with
  | O => []
  | S fuel' =>
      if (x0 =? x1) && (y0 =? y1) then [] else
      let e2 := 2 * err in
      let '(err, x0') :=
        if - dy <? e2 then (err - dy, x0 + sx) else (err, x0) in
      let '(err, y0') :=
        if e2 <? dx then (err + dx, y0 + sy) else (err, y0) in
      (x0, y0) :: los_cells fuel' x0' y0' x1 y1 dx dy sx sy err
  end.

Definition sight_line (x0 y0 x1 y1 : Z) : list pos :=
  let dx := Z.abs (x1 - x0) in
  let dy := Z.abs (y1 - y0) in
  let sx := if x0 <? x1 then 1 else -1 in
  let sy := if y0 <? y1 then 1 else -1 in
  los_cells (S (Z.to_nat (dx + dy))) x0 y0 x1 y1 dx dy sx sy (dx - dy).

(** [math.sqrt((x - px)**2 + (y - py)**2) > radius] on integers: the
    square root of a non-negative integer exceeds [radius] exactly when
    the integer exceeds [radius²], or when [radius] is negative.  (The
    float square root agrees for coordinates below 2^25.) *)
Definition beyond_radius (px py x y radius : Z) : bool :=
  (radius <? 0)
  || (radius * radius <? (x - px) * (x - px) + (y - py) * (y - py)).

(** Body of the scan of [compute_fov] for the cell [(x, y)]. *)
Definition look (px py radius y x : Z) (st : t * gset pos)
  : outcome (t * gset pos) :=
  if beyond_radius px py x y radius then Done st else
  los ← has_line_of_sight st.1 px py x y;
  if los : bool then
    d1 ← modify st.1 x y (set_visible true);
    d2 ← modify d1 x y (set_explored true);
    Done (d2, {[(x, y)]} ∪ st.2)
  else Done st.

Definition compute_fov (d : t) (player_x player_y radius : Z)
  : outcome (t * gset pos) :=
  d ← for_each (range 0 (height d))
        (fun y => for_each (range 0 (width d))
                    (fun x d => modify d x y (set_visible false))) d;
  d ← modify d player_x player_y (set_visible true);
  d ← modify d player_x player_y (set_explored true);
  let visible_tiles : gset pos := {[(player_x, player_y)]} ∪ ∅ in
  for_each (range (Z.max 0 (player_y - radius))
                  (Z.min (height d) (player_y + radius + 1)))
    (fun y => for_each (range (Z.max 0 (player_x - radius))
                              (Z.min (width d) (player_x + radius + 1)))
                (look player_x player_y radius y))
    (d, visible_tiles).

(** The safety checks at the head of [render]: the player position is
    pulled into the grid before [compute_fov] is called on it. *)
Definition clamp_player (d : t) (p : pos) : pos :=
  let px := if p.1 <? 0 then 0 else p.1 in
  let py := if p.2 <? 0 then 0 else p.2 in
  let px := if width d <=? px then width d - 1 else px in
  let py := if height d <=? py then height d - 1 else py in
  (px, py).

(** A sequence of visibility passes on one floor. *)
Definition fov_passes (d : t) (moves : list (pos * Z)) : outcome t :=
  for_each moves
    (fun m d => r ← compute_fov d m.1.1 m.1.2 m.2; Done r.1) d.

(** *** Level generation *)

Definition world : Type := t * Random.t.

Definition create_h_tunnel (d : t) (x1 x2 y : Z) : outcome t :=
  for_each (range (Z.min x1 x2) (Z.max x1 x2 + 1))
    (fun x d => store d x y (new_tile FLOOR)) d.

Definition create_v_tunnel (d : t) (y1 y2 x : Z) : outcome t :=
  for_each (range (Z.min y1 y2) (Z.max y1 y2 + 1))
    (fun y d => store d x y (new_tile FLOOR)) d.

(** The room object with index [i]. *)
Definition room (d : t) (i : nat) : outcome Room.t :=
  match rooms d !! i with Some r => Done r | None => Raised IndexError end.

Definition update_room (d : t) (i : nat) (f : Room.t -> Room.t) : t :=
  with_rooms d (alter f i (rooms d)).

Definition connect_rooms (i1 i2 : nat) (s : world) : outcome world :=
  room1 ← room s.1 i1;
  room2 ← room s.1 i2;
  let '(x1, y1) := Room.center room1 in
  let '(x2, y2) := Room.center room2 in
  '(h_first, r) ← Random.choice_bool s.2;
  d ← (if h_first : bool then
         d ← create_h_tunnel s.1 x1 x2 y1; create_v_tunnel d y1 y2 x2
       else
         d ← create_v_tunnel s.1 y1 y2 x1; create_h_tunnel d x1 x2 y2);
  let d := update_room d i1 (Room.set_connected true) in
  let d := update_room d i2 (Room.set_connected true) in
  Done (d, r).

Definition add_room (d : t) (new : Room.t) : outcome t :=
  d ← for_each (range (Room.y new) (Room.y new + Room.height new))
        (fun y => for_each (range (Room.x new) (Room.x new + Room.width new))
                    (fun x d => store d x y (new_tile FLOOR))) d;
  Done (with_rooms d (rooms d ++ [new])).

(** The placement loop of [generate]; [break] leaves it. *)
Fixpoint place_rooms (attempts : nat)
    (max_rooms room_min_size room_max_size rooms_created : Z) (s : world)
  : outcome world :=
  match attempts with
  | O => Done s
  | S attempts' =>
      if max_rooms <=? rooms_created then Done s else
      '(w, r) ← Random.randint room_min_size room_max_size s.2;
      '(h, r) ← Random.randint room_min_size room_max_size r;
      '(x, r) ← Random.randint 1 (width s.1 - w - 2) r;
      '(y, r) ← Random.randint 1 (height s.1 - h - 2) r;
      let new := Room.make x y w h in
      if existsb (fun other => Room.overlaps new other 1) (rooms s.1) then
        place_rooms attempts' max_rooms room_min_size room_max_size
          rooms_created (s.1, r)
      else
        d ← add_room s.1 new;
        s ← (if (1 <? length (rooms d))%nat then
               '(prev, r) ← Random.choice_index (length (rooms d) - 1) r;
               connect_rooms (length (rooms d) - 1) prev (d, r)
             else Done (d, r));
        place_rooms attempts' max_rooms room_min_size room_max_size
          (rooms_created + 1) s
  end.

Definition indexed_rooms (d : t) (c : bool) : list (nat * Room.t) :=
  filter (fun ir => Room.connected ir.2 = c) (imap pair (rooms d)).

(** Squared centre-to-centre distance; [math.sqrt] is monotone, so the
    comparison [distance < min_distance] is decided on the squares. *)
Definition distance2 (a b : Room.t) : Z :=
  let '(cx1, cy1) := Room.center a in
  let '(cx2, cy2) := Room.center b in
  (cx2 - cx1) * (cx2 - cx1) + (cy2 - cy1) * (cy2 - cy1).

(** The nested search for [closest_pair]; [None] is the initial
    [min_distance = inf]. *)
Definition closest_pair (connected_rooms unconnected_rooms : list (nat * Room.t))
  : option (Z * (nat * nat)) :=
  foldl (fun best c =>
    foldl (fun best u =>
      let distance := distance2 c.2 u.2 in
      match best with
      | Some (min_distance, _) =>
          if distance <? min_distance then Some (distance, (c.1, u.1))
          else best
      | None => Some (distance, (c.1, u.1))
      end) best unconnected_rooms) None connected_rooms.

(** [while not all(room.connected for room in self.rooms): ...]. *)
Fixpoint connect_all (fuel : nat) (s : world) : outcome world :=
  match fuel with
  | O => OutOfFuel
  | S fuel' =>
      if forallb Room.connected (rooms s.1) then Done s else
      let connected_rooms := indexed_rooms s.1 true in
      if bool_decide (connected_rooms = []) then Done s else
      let unconnected_rooms := indexed_rooms s.1 false in
      if bool_decide (unconnected_rooms = []) then Done s else
      s ← match closest_pair connected_rooms unconnected_rooms with
          | Some (_, (c, u)) => connect_rooms c u s
          | None =>
              '(kc, r) ← Random.choice_index (length connected_rooms) s.2;
              '(ku, r) ← Random.choice_index (length unconnected_rooms) r;
              c ← py_index connected_rooms (Z.of_nat kc);
              u ← py_index unconnected_rooms (Z.of_nat ku);
              connect_rooms c.1 u.1 (s.1, r)
          end;
      connect_all fuel' s
  end.

(** Every round connects one more room, so [len(rooms) + 1] rounds are
    enough. *)
Definition ensure_connectivity (s : world) : outcome world :=
  let d := with_rooms s.1 (Room.set_connected false <$> rooms s.1) in
  let d := update_room d 0 (Room.set_connected true) in
  s ← connect_all (S (length (rooms d))) (d, s.2);
  let extra_connections := Z.max 1 (Z.of_nat (length (rooms s.1)) `div` 10) in
  for_each (range 0 extra_connections)
    (fun _ s =>
       '(i1, r) ← Random.choice_index (length (rooms s.1)) s.2;
       '(i2, r) ← Random.choice_index (length (rooms s.1)) r;
       if bool_decide (i1 ≠ i2) then connect_rooms i1 i2 (s.1, r)
       else Done (s.1, r)) s.

(** [sum(1 for dx, dy in offsets if grid[y + dy][x + dx].type == WALL)]. *)
Definition count_walls (d : t) (x y : Z) (offsets : list (Z * Z)) : outcome Z :=
  for_each offsets
    (fun o n => v ← tile d (x + o.1) (y + o.2);
                Done (if bool_decide (type v = WALL) then n + 1 else n)) 0.

Definition add_doors (s : world) : outcome world :=
  for_each (range 1 (height s.1 - 1))
    (fun y => for_each (range 1 (width s.1 - 1))
       (fun x (s : world) =>
          v ← tile s.1 x y;
          if bool_decide (type v = FLOOR) then
            wall_count ← count_walls s.1 x y [(0, -1); (1, 0); (0, 1); (-1, 0)];
            if wall_count =? 2 then
              let '(lucky, r) := Random.random_lt 2 10 s.2 in
              if lucky : bool then
                diag_wall_count ←
                  count_walls s.1 x y [(1, 1); (-1, 1); (1, -1); (-1, -1)];
                if 2 <=? diag_wall_count then
                  d ← store s.1 x y (new_tile DOOR); Done (d, r)
                else Done (s.1, r)
              else Done (s.1, r)
            else Done s
          else Done s)) s.

Definition add_floor_variants (s : world) : outcome world :=
  for_each (range 0 (height s.1))
    (fun y => for_each (range 0 (width s.1))
       (fun x (s : world) =>
          v ← tile s.1 x y;
          if bool_decide (type v = FLOOR) then
            let '(lucky, r) := Random.random_lt 1 10 s.2 in
            if lucky : bool then
              '(k, r) ← Random.randint 1 2 r;
              d ← modify s.1 x y (set_variant k); Done (d, r)
            else Done (s.1, r)
          else Done s)) s.

(** [place_entities] fills [self.enemies] and [self.items] and touches
    neither the grid nor the room list; those two lists are not part of
    this model, and neither are the errors the method raises while it
    fills them.  Its loops are [for] loops over the rooms and over
    [range(num_enemies)]. *)
Definition place_entities (s : world) : outcome world := Done s.

(** [generate].  The restart is a recursive call, and the interpreter
    allows nested calls up to its recursion limit only: [depth] is the
    number of nested calls of [generate], each with the calls it makes
    itself, that the limit leaves room for; the call beyond it raises
    RecursionError, which nothing in [generate] catches.  The restart
    keeps [self.rooms] and rebuilds [self.grid]. *)
Fixpoint generate (depth : nat) (max_rooms room_min_size room_max_size : Z)
    (s : world) : outcome world :=
  match depth with
  | O => Raised RecursionError
  | S depth' =>
      let d := with_grid s.1
                 (replicate (Z.to_nat (height s.1))
                    (replicate (Z.to_nat (width s.1)) (new_tile WALL))) in
      let min_rooms := 5%nat in
      let max_attempts := max_rooms * 5 in
      s ← place_rooms (Z.to_nat max_attempts) max_rooms room_min_size
            room_max_size 0 (d, s.2);
      if (length (rooms s.1) <? min_rooms)%nat then
        generate depth' max_rooms room_min_size room_max_size s
      else
        s ← ensure_connectivity s;
        let d := s.1 in
        d ← match rooms d with
            | [] => Done d
            | first :: _ =>
                let d := update_room d 0 (Room.set_room_type Room.entrance) in
                Done {| width := width d; height := height d; grid := grid d;
                        rooms := rooms d; stairs_down := stairs_down d;
                        player_start := Some (Room.center first) |}
            end;
        d ← (if (1 <? length (rooms d))%nat then
               let k := (length (rooms d) - 1)%nat in
               let d := update_room d k (Room.set_room_type Room.exit) in
               last_room ← room d k;
               let '(x, y) := Room.center last_room in
               d ← store d x y (new_tile STAIRS_DOWN);
               Done {| width := width d; height := height d; grid := grid d;
                       rooms := rooms d; stairs_down := Some (x, y);
                       player_start := player_start d |}
             else Done d);
        s ← add_doors (d, s.2);
        s ← add_floor_variants s;
        place_entities s
  end.


(** The state [Dungeon.__init__] hands to [generate]: no rooms yet. *)
Definition fresh (width height : Z) : t :=
  {| width := width; height := height;
     grid := replicate (Z.to_nat height)
               (replicate (Z.to_nat width) (new_tile WALL));
     rooms := []; stairs_down := None; player_start := None |}.

(** The boolean mask handed to [astar]: [is_walkable] of every tile. *)
Definition walkable_mask (d : t) : list (list bool) :=
  (fun row : list Tile => is_walkable <$> row) <$> grid d.

(** *** Biome *)

(** The dictionary [level_to_biome] of [determine_biome]; its keys are
    listed in ascending order, as [sorted] hands them to the loop. *)
Definition level_to_biome : list (Z * Biome.t) :=
  [(1, Biome.CAVERN); (5, Biome.FOREST); (10, Biome.ICE);
   (15, Biome.LAVA); (20, Biome.SHADOW); (25, Biome.CRYSTAL)].

(** [for level_threshold in sorted(...)], left by [break] at the first
    threshold above the level. *)
Fixpoint choose_level (thresholds : list Z) (level chosen_level : Z) : Z :=
  match thresholds with
  | [] => chosen_level
  | level_threshold :: rest =>
      if level_threshold <=? level then choose_level rest level level_threshold
      else chosen_level
  end.

(** [determine_biome]; the [except] branch returns CAVERN. *)
Definition determine_biome (level : Z) : Biome.t :=
  let chosen_level := choose_level (level_to_biome.*1) level 1 in
  match list_find (fun kv => kv.1 = chosen_level) level_to_biome with
  | Some (_, (_, biome)) => biome
  | None => Biome.CAVERN
  end.

(** [BIOME_FEATURES[biome_name]["LIGHT_RADIUS"]]. *)
Definition light_radius (biome : Biome.t) : Z :=
  match biome with
  | Biome.CAVERN => 0
  | Biome.FOREST => 2
  | Biome.ICE => 3
  | Biome.LAVA => 4
  | Biome.SHADOW => -2
  | Biome.CRYSTAL => 5
  end.

(** The [visibility_radius] that [init_biome_features] sets and that
    [render] hands to [compute_fov]. *)
Definition visibility_radius (biome : Biome.t) : Z :=
  Z.max 3 (Settings.VISIBILITY_RADIUS + light_radius biome).

(** *** Vocabulary of the correctness proofs *)

(** The grid has [height] rows of [width] tiles, as [__init__] and
    [generate] build it. *)
Definition wf (d : t) : Prop :=
  length (grid d) = Z.to_nat (height d)
  /\ Forall (fun row => length row = Z.to_nat (width d)) (grid d).

(** The tile at a non-negative coordinate, if the grid has one there. *)
Definition tile_at (d : t) (x y : Z) : option Tile :=
  if (0 <=? x) && (0 <=? y) then
    row ← grid d !! Z.to_nat y; row !! Z.to_nat x
  else None.

(** [d'] is [d] with another grid. *)
Definition same_frame (d d' : t) : Prop :=
  width d' = width d /\ height d' = height d /\ rooms d' = rooms d.

(** [d'] is [d] after flag updates: same shape, same tile kinds, and no
    [explored] flag was cleared. *)
Definition reflagged (d d' : t) : Prop :=
  wf d' /\ same_frame d d'
  /\ forall x y v, tile_at d x y = Some v ->
       exists v', tile_at d' x y = Some v' /\ type v' = type v
                  /\ (explored v = true -> explored v' = true).

(** What the scan of [compute_fov] maintains, for the observer at
    [(px, py)] on the floor [d]. *)
Definition scanned (d : t) (px py : Z) (st : t * gset pos) : Prop :=
  reflagged d st.1
  /\ (px, py) ∈ st.2
  /\ (forall p, p ∈ st.2 ->
        p = (px, py)
        \/ (inside d p.1 p.2 = true
            /\ has_line_of_sight d px py p.1 p.2 = Done true))
  /\ (forall x y v, tile_at st.1 x y = Some v ->
        (visible v = true -> (x, y) ∈ st.2)
        /\ ((x, y) ∈ st.2 -> visible v = true /\ explored v = true)).

(** The tile at [p] can be walked on. *)
Definition walkable (d : t) (p : pos) : Prop :=
  exists v, tile_at d p.1 p.2 = Some v /\ is_walkable v = true.

(** [connected_to d a b]: from [a] one comes to [b] by 4-directional
    steps onto walkable tiles. *)
Inductive connected_to (d : t) (a : pos) : pos -> Prop :=
| connected_here : connected_to d a a
| connected_step b dir :
    connected_to d a b ->
    dir ∈ Pathfinding.directions ->
    walkable d (Pathfinding.next b dir) ->
    connected_to d a (Pathfinding.next b dir).

(** [d'] has the size of [d] and every walkable tile of [d] is walkable
    in [d']. *)
Definition grows (d d' : t) : Prop :=
  width d' = width d /\ height d' = height d
  /\ forall p, walkable d p -> walkable d' p.

Definition centers (d : t) : list pos := Room.center <$> rooms d.

(** A generation step from [d] to [d']: the grid stays well formed,
    walkable tiles stay walkable and the room centres are the same. *)
Definition extends (d d' : t) : Prop :=
  wf d' /\ grows d d' /\ centers d' = centers d.

(** The grid is well formed and every room centre lies inside it. *)
Definition sound (d : t) : Prop :=
  wf d /\ forall c, c ∈ centers d -> inside d c.1 c.2 = true.

(** Every room centre is connected to every other one. *)
Definition all_connected (d : t) : Prop :=
  forall a b, a ∈ centers d -> b ∈ centers d -> connected_to d a b.

(** Invariant of the repair loop: the rooms flagged [connected] are
    connected, both ways, to the centre [c0] of the first room. *)
Definition flagged_connected (d : t) (c0 : pos) : Prop :=
  forall r, r ∈ rooms d -> Room.connected r = true ->
    connected_to d c0 (Room.center r) /\ connected_to d (Room.center r) c0.

(** The first room, if there is one, is flagged and has centre [c0]. *)
Definition first_flagged (d : t) (c0 : pos) : Prop :=
  forall r, rooms d !! 0%nat = Some r ->
    Room.connected r = true /\ Room.center r = c0.


(** [w] lies on the segment from [o] to [t], strictly between the two. *)
Definition strictly_between (o w t : pos) : Prop :=
  (w.1 - o.1) * (t.2 - o.2) = (w.2 - o.2) * (t.1 - o.1)
  /\ Z.min o.1 t.1 <= w.1 <= Z.max o.1 t.1
  /\ Z.min o.2 t.2 <= w.2 <= Z.max o.2 t.2
  /\ w <> o /\ w <> t.

(** The error term of [has_line_of_sight] after [i] steps in x and [j]
    steps in y. *)
Definition err_at (dx dy i j : Z) : Z := (j + 1) * dx - (i + 1) * dy.

End Dungeon.

(** ** entity.py *)

(** An entity is used here through its grid position [(x, y)]. *)
Module Entity.

(** Manhattan distance. *)
Definition distance_to (self other : pos) : Z :=
  Z.abs (self.1 - other.1) + Z.abs (self.2 - other.2).

Definition is_adjacent_to (self other : pos) : bool :=
  distance_to self other <=? 1.

End Entity.

(** ** enemy.py *)

Module Enemy.

Inductive facing := up | right | down | left.

(** The fields of [Enemy] that movement uses. *)
Record t := {
  x : Z;
  y : Z;
  alive : bool;
  path : list pos;
  direction : facing
}.

Definition position (e : t) : pos := (x e, y e).

(** [is_valid_move(x, y, dungeon)].  [others] are the entries of
    [dungeon.enemies] that are not [self]. *)
Definition is_valid_move (others : list t) (x' y' : Z) (d : Dungeon.t)
  : outcome bool :=
  if negb ((0 <=? x') && (x' <? Settings.GRID_WIDTH)
           && (0 <=? y') && (y' <? Settings.GRID_HEIGHT)) then Done false else
  v ← Dungeon.tile d x' y';
  if negb (bool_decide (type v = FLOOR)) then Done false else
  if existsb (fun enemy => alive enemy && (x enemy =? x') && (y enemy =? y'))
       others
  then Done false else Done true.

(** [walkable[enemy.y][enemy.x] = False] for a living enemy inside the
    60×40 window. *)
Definition occupy (enemy : t) (walkable : list (list bool))
  : outcome (list (list bool)) :=
  if alive enemy
     && (0 <=? y enemy) && (y enemy <? Settings.GRID_HEIGHT)
     && (0 <=? x enemy) && (x enemy <? Settings.GRID_WIDTH) then
    row ← py_index walkable (y enemy);
    row' ← py_store row (x enemy) false;
    py_store walkable (y enemy) row'
  else Done walkable.

(** The mask [calculate_path_to_player] hands to [astar]: floor tiles,
    minus the cells of the other living enemies. *)
Definition path_mask (others : list t) (d : Dungeon.t)
  : outcome (list (list bool)) :=
  walkable ← comprehension (range 0 Settings.GRID_HEIGHT)
    (fun y' => comprehension (range 0 Settings.GRID_WIDTH)
       (fun x' => v ← Dungeon.tile d x' y';
                  Done (bool_decide (type v = FLOOR))));
  for_each others occupy walkable.

Definition calculate_path_to_player (self : t) (others : list t)
    (player : pos) (d : Dungeon.t) : outcome (list pos) :=
  let start := (x self, y self) in
  let goal := player in
  if Entity.is_adjacent_to start goal then Done [] else
  walkable ← path_mask others d;
  path ← Pathfinding.astar walkable start goal;
  if (1 <? length path)%nat then Done (tail path) else Done [].

(** [follow_path]: the enemy after the call and the returned flag.  The
    direction is computed from the position already updated. *)
Definition follow_path (self : t) (others : list t) (d : Dungeon.t)
  : outcome (t * bool) :=
  match path self with
  | [] => Done (self, false)
  | next_pos :: rest =>
      ok ← is_valid_move others next_pos.1 next_pos.2 d;
      if ok : bool then
        let self := {| x := next_pos.1; y := next_pos.2; alive := alive self;
                       path := rest; direction := direction self |} in
        let dx := next_pos.1 - x self in
        let dy := next_pos.2 - y self in
        let facing :=
          if Z.abs dy <? Z.abs dx then (if 0 <? dx then right else left)
          else (if 0 <? dy then down else up) in
        Done ({| x := x self; y := y self; alive := alive self;
                 path := path self; direction := facing |}, true)
      else
        Done ({| x := x self; y := y self; alive := alive self;
                 path := []; direction := direction self |}, false)
  end.

End Enemy.

(** ** player.py *)

Module Player.

(** What [move] returns: [True], ["next_floor"] or [False]. *)
Inductive move_result := moved | next_floor | stay.

(** [move(dx, dy, dungeon)] on the player at [self]: the position after
    the call and the returned value.  [enemies] is [dungeon.enemies]; an
    exception raised on the way is caught and makes the call return
    [False]. *)
Definition move (self : pos) (dx dy : Z) (d : Dungeon.t)
    (enemies : list Enemy.t) : pos * move_result :=
  let new_x := self.1 + dx in
  let new_y := self.2 + dy in
  if (new_x <? 0) || (Dungeon.width d <=? new_x)
     || (new_y <? 0) || (Dungeon.height d <=? new_y) then (self, stay) else
  match Dungeon.is_position_valid d new_x new_y with
  | Done true =>
      if existsb (fun enemy => (Enemy.x enemy =? new_x)
                               && (Enemy.y enemy =? new_y)) enemies
      then (self, stay)
      else if bool_decide (Dungeon.stairs_down d = Some (new_x, new_y))
      then ((new_x, new_y), next_floor)
      else ((new_x, new_y), moved)
  | Done false => (self, stay)
  | Raised _ | OutOfFuel => (self, stay)
  end.

End Player.

(** ** Vocabulary: the result of a visibility pass *)

Module Visibility.
Import Dungeon.

(** The test [compute_fov] applies to a scanned cell: within the radius
    and in a clear line of sight. *)
Definition sees (d : t) (px py radius x y : Z) : bool :=
  negb (beyond_radius px py x y radius)
  && match has_line_of_sight d px py x y with
     | Done true => true
     | _ => false
     end.

(** The tile [v] after a pass in which it was seen ([lit = true]) or
    not. *)
Definition shown (v : Tile) (lit : bool) : Tile :=
  {| type := type v; variant := variant v;
     explored := explored v || lit; visible := lit |}.

(** The grid of [st.1] is the grid of [d] with the cells collected in
    [st.2] shown and all others dark. *)
Definition lit (d : t) (st : t * gset pos) : Prop :=
  wf st.1 /\ same_frame d st.1
  /\ forall x y v, tile_at d x y = Some v ->
       tile_at st.1 x y = Some (shown v (bool_decide ((x, y) ∈ st.2))).

End Visibility.

(** ** Vocabulary: the layout of a generated floor *)

Module Layout.
Import Dungeon.

(** Position and size of a room; the flags [room_type] and [connected]
    are left out. *)
Definition geometry (r : Room.t) : Z * Z * Z * Z :=
  (Room.x r, Room.y r, Room.width r, Room.height r).

Definition shape (d : t) : list (Z * Z * Z * Z) := geometry <$> rooms d.

(** [p] is one of the cells [add_room] carves for [r]. *)
Definition contains (r : Room.t) (p : pos) : Prop :=
  Room.x r <= p.1 < Room.x r + Room.width r
  /\ Room.y r <= p.2 < Room.y r + Room.height r.

(** The room is as the placement loop draws it: sizes between [lo] and
    [hi], position between 1 and the size of the floor minus the size
    of the room minus 2. *)
Definition fits (lo hi : Z) (d : t) (r : Room.t) : Prop :=
  lo <= Room.width r <= hi /\ lo <= Room.height r <= hi
  /\ 1 <= Room.x r <= width d - Room.width r - 2
  /\ 1 <= Room.y r <= height d - Room.height r - 2.

(** No two rooms of the list overlap, with a buffer of one tile. *)
Definition apart (rs : list Room.t) : Prop :=
  forall (i j : nat) ri rj, i <> j -> rs !! i = Some ri -> rs !! j = Some rj ->
    Room.overlaps ri rj 1 = false.

(** A cell that is not on the outer ring of the grid. *)
Definition interior (d : t) (x y : Z) : Prop :=
  1 <= x <= width d - 2 /\ 1 <= y <= height d - 2.

(** The floor while rooms and corridors are carved: walls, and floor
    tiles off the outer ring; rooms as drawn and apart. *)
Record tidy (lo hi : Z) (d : t) : Prop := {
  tidy_wf : wf d;
  tidy_tiles : forall x y v, tile_at d x y = Some v ->
    type v = WALL \/ (type v = FLOOR /\ interior d x y);
  tidy_fits : forall r, r ∈ rooms d -> fits lo hi d r;
  tidy_apart : apart (rooms d)
}.

(** The floor once the stairs are set: walls, and floor, door and
    stairs tiles off the outer ring; the stairs tile is where
    [stairs_down] says and nowhere else. *)
Record furnished (d : t) : Prop := {
  furnished_wf : wf d;
  furnished_tiles : forall x y v, tile_at d x y = Some v ->
    type v = WALL
    \/ (interior d x y
        /\ (type v = FLOOR \/ type v = DOOR \/ type v = STAIRS_DOWN));
  furnished_stairs : forall x y v, tile_at d x y = Some v ->
    (type v = STAIRS_DOWN <-> stairs_down d = Some (x, y))
}.

(** [d'] is [d] with another grid. *)
Definition same_fields (d d' : t) : Prop :=
  width d' = width d /\ height d' = height d /\ rooms d' = rooms d
  /\ stairs_down d' = stairs_down d /\ player_start d' = player_start d.

End Layout.

(** ** Vocabulary: player and enemies on the grid *)

Module Actors.

(** The tile at [p] is a floor tile. *)
Definition floor_at (d : Dungeon.t) (p : pos) : Prop :=
  exists v, Dungeon.tile_at d p.1 p.2 = Some v /\ type v = FLOOR.

(** No living enemy of the list stands on [p]. *)
Definition unheld (others : list Enemy.t) (p : pos) : Prop :=
  forall e, e ∈ others -> Enemy.alive e = true -> Enemy.position e <> p.

(** No enemy of the list, living or dead, stands on [p]. *)
Definition vacant (enemies : list Enemy.t) (p : pos) : Prop :=
  forall e, e ∈ enemies -> Enemy.position e <> p.

(** [p] lies in the window of 60×40 cells that the enemy code looks
    at. *)
Definition in_window (p : pos) : Prop :=
  0 <= p.1 < Settings.GRID_WIDTH /\ 0 <= p.2 < Settings.GRID_HEIGHT.

(** The position of the player after a sequence of [move] calls. *)
Definition stroll (self : pos) (steps : list (Z * Z)) (d : Dungeon.t)
    (enemies : list Enemy.t) : pos :=
  foldl (fun p step => (Player.move p step.1 step.2 d enemies).1) self steps.

(** A mask of 60×40 cells whose true cells are the floor tiles that no
    living enemy of the list holds. *)
Definition masks (d : Dungeon.t) (others : list Enemy.t)
    (m : list (list bool)) : Prop :=
  length m = Z.to_nat Settings.GRID_HEIGHT
  /\ Forall (fun row => length row = Z.to_nat Settings.GRID_WIDTH) m
  /\ forall p, in_window p ->
       exists row b, m !! Z.to_nat p.2 = Some row /\ row !! Z.to_nat p.1 = Some b
         /\ (b = true <-> floor_at d p /\ unheld others p).

End Actors.

(** ** Example inputs *)

Module Examples.

Definition o : bool := true.
Definition X : bool := false.

(** A 5×4 mask on which [astar] from (4,2) to (0,2) misses the shortest
    path. *)
Definition detour_mask : list (list bool) :=
  [ [o; o; o; X; o];
    [o; X; o; o; o];
    [o; X; o; X; o];
    [o; o; o; o; o] ].

(** A single cell that cannot be walked on. *)
Definition blocked_mask : list (list bool) := [ [X] ].

(** A row of three cells, with and without a walkable first cell. *)
Definition blocked_start_mask : list (list bool) := [ [X; o; o] ].
Definition open_start_mask : list (list bool) := [ [o; o; o] ].

Definition floor_of (rows : list (list TileType)) (w h : Z) : Dungeon.t :=
  {| Dungeon.width := w; Dungeon.height := h;
     Dungeon.grid := (fun row : list TileType => new_tile <$> row) <$> rows;
     Dungeon.rooms := [];
     Dungeon.stairs_down := None; Dungeon.player_start := None |}.

(** One floor tile. *)
Definition one_tile : Dungeon.t := floor_of [ [FLOOR] ] 1 1.

(** A 5×3 hall with one wall tile at (2,0). *)
Definition hall : Dungeon.t :=
  floor_of [ [FLOOR; FLOOR; WALL; FLOOR; FLOOR];
             [FLOOR; FLOOR; FLOOR; FLOOR; FLOOR];
             [FLOOR; FLOOR; FLOOR; FLOOR; FLOOR] ] 5 3.

(** Random draws that place five 3×3 rooms on a 16×16 floor at the
    first attempt; every later draw is 0. *)
Definition demo_tape : nat -> N :=
  fun k => nth k [0; 0; 0; 0;
                  0; 0; 9; 0; 0; 0;
                  0; 0; 0; 9; 0; 0;
                  0; 0; 9; 9; 0; 0;
                  0; 0; 4; 4; 0; 0]%N 0%N.

Definition demo_random : Random.t :=
  {| Random.tape := demo_tape; Random.cursor := 0 |}.

Definition demo_world : Dungeon.world :=
  Eval vm_compute in
    match Dungeon.generate 1 5 3 3 (Dungeon.fresh 16 16, demo_random) with
    | Done s => (s.1, {| Random.tape := demo_tape;
                         Random.cursor := Random.cursor s.2 |})
    | _ => (Dungeon.fresh 16 16, demo_random)
    end.

Definition demo_first : Room.t :=
  {| Room.x := 1; Room.y := 1; Room.width := 3; Room.height := 3;
     Room.room_type := Room.entrance; Room.connected := true |}.
Definition demo_last : Room.t :=
  {| Room.x := 5; Room.y := 5; Room.width := 3; Room.height := 3;
     Room.room_type := Room.exit; Room.connected := true |}.

(** A random source that always draws 0. *)
Definition zero_random : Random.t :=
  {| Random.tape := fun _ => 0%N; Random.cursor := 0 |}.

(** The hall after a visibility pass from (0,0) with radius 8, and the
    set that pass returns. *)
Definition hall_seen : Dungeon.t * gset pos :=
  match Dungeon.compute_fov hall 0 0 8 with
  | Done st => st
  | _ => (hall, ∅)
  end.

(** The same with radius 2. *)
Definition hall_glimpsed : Dungeon.t * gset pos :=
  match Dungeon.compute_fov hall 0 0 2 with
  | Done st => st
  | _ => (hall, ∅)
  end.

(** A 16×16 floor on which a room at (11,11) is already listed, and
    random draws that place four more 3×3 rooms at (1,1), (5,1), (1,5)
    and (5,5); every later draw is 0. *)
Definition stale_room : Room.t := Room.make 11 11 3 3.

Definition stale_floor : Dungeon.t :=
  Dungeon.with_rooms (Dungeon.fresh 16 16) [stale_room].

Definition stale_tape : nat -> N :=
  fun k => nth k [0; 0; 0; 0; 0; 0;
                  0; 0; 4; 0; 0; 0;
                  0; 0; 0; 4; 0; 0;
                  0; 0; 4; 4; 0; 0]%N 0%N.

Definition stale_random : Random.t :=
  {| Random.tape := stale_tape; Random.cursor := 0 |}.

Definition stale_world : Dungeon.world :=
  Eval vm_compute in
    match Dungeon.generate 1 4 3 3 (stale_floor, stale_random) with
    | Done s => (s.1, {| Random.tape := stale_tape;
                         Random.cursor := Random.cursor s.2 |})
    | _ => (stale_floor, stale_random)
    end.

(** A floor of 60×40 floor tiles with the stairs at (5,5). *)
Definition arena : Dungeon.t :=
  {| Dungeon.width := 60; Dungeon.height := 40;
     Dungeon.grid := replicate 40 (replicate 60 (new_tile FLOOR));
     Dungeon.rooms := [];
     Dungeon.stairs_down := Some (5, 5); Dungeon.player_start := Some (1, 1) |}.

(** The arena with a door at (0,0). *)
Definition arena_with_door : Dungeon.t :=
  {| Dungeon.width := 60; Dungeon.height := 40;
     Dungeon.grid :=
       (new_tile DOOR :: replicate 59 (new_tile FLOOR))
       :: replicate 39 (replicate 60 (new_tile FLOOR));
     Dungeon.rooms := [];
     Dungeon.stairs_down := Some (5, 5); Dungeon.player_start := Some (1, 1) |}.

(** An enemy at (3,1) with the path [(2,1); (1,1)], and one at (2,2)
    with no path. *)
Definition hunter : Enemy.t :=
  {| Enemy.x := 3; Enemy.y := 1; Enemy.alive := true;
     Enemy.path := [(2, 1); (1, 1)]; Enemy.direction := Enemy.down |}.
Definition sentry : Enemy.t :=
  {| Enemy.x := 2; Enemy.y := 2; Enemy.alive := true;
     Enemy.path := []; Enemy.direction := Enemy.down |}.

End Examples.

(** * Loops, outcomes and indexing *)

Lemma bind_Done {A B} (m : outcome A) (k : A -> outcome B) (b : B) :
  m ≫= k = Done b <-> exists a, m = Done a /\ k a = Done b.
Proof.
  destruct m as [a| |]; simpl; split.
  - intros Hk. by exists a.
  - by intros (a' & [= <-] & Hk).
  - done.
  - by intros (? & ? & _).
  - done.
  - by intros (? & ? & _).
Qed.

(** Run a step whose outcome is known. *)
Ltac run H := rewrite H; cbn [mbind outcome_bind].

(** Total-correctness rule for [for] loops: the invariant is indexed by
    the elements already processed. *)
Lemma for_each_ind {A S} (I : list A -> S -> Prop)
    (body : A -> S -> outcome S) (xs : list A) (s : S) :
  I [] s ->
  (forall seen x rest s, xs = seen ++ x :: rest -> I seen s ->
     exists s', body x s = Done s' /\ I (seen ++ [x]) s') ->
  exists s', for_each xs body s = Done s' /\ I xs s'.
Proof.
  revert I s. induction xs as [|x xs IH]; intros I s H0 Hstep.
  - by exists s.
  - destruct (Hstep [] x xs s eq_refl H0) as (s1 & Hb & H1). simpl in H1.
    destruct (IH (fun seen => I (x :: seen)) s1 H1) as (s2 & Hf & H2).
    + intros seen y rest s' -> Hs'.
      apply (Hstep (x :: seen) y rest s'); done.
    + exists s2. split; [|done]. simpl. by rewrite Hb.
Qed.

Lemma for_each_inv {A S} (I : S -> Prop)
    (body : A -> S -> outcome S) (xs : list A) (s : S) :
  I s ->
  (forall x s, x ∈ xs -> I s -> exists s', body x s = Done s' /\ I s') ->
  exists s', for_each xs body s = Done s' /\ I s'.
Proof.
  intros H0 Hstep.
  apply (for_each_ind (fun _ => I)); [done|].
  intros seen x rest s0 -> Hs0. apply Hstep; [|done].
  apply elem_of_app. right. left.
Qed.

(** Partial-correctness rule: what a loop that completes has preserved. *)
Lemma for_each_post {A S} (I : S -> Prop)
    (body : A -> S -> outcome S) (xs : list A) (s s' : S) :
  for_each xs body s = Done s' ->
  I s ->
  (forall x s s', x ∈ xs -> I s -> body x s = Done s' -> I s') ->
  I s'.
Proof.
  revert s. induction xs as [|x xs IH]; intros s Hrun H0 Hstep.
  - by injection Hrun as <-.
  - simpl in Hrun. apply bind_Done in Hrun as (s1 & Hb & Hrest).
    apply (IH s1 Hrest).
    + apply (Hstep x s); [left|done..].
    + intros y t t' Hy. apply Hstep. by right.
Qed.

Lemma elem_of_range (a b k : Z) : k ∈ range a b <-> a <= k < b.
Proof. unfold range. rewrite elem_of_seqZ. lia. Qed.

Lemma norm_index_nonneg (n i : Z) :
  0 <= i < n -> norm_index n i = Some (Z.to_nat i).
Proof.
  intros Hi. unfold norm_index.
  destruct (Z.leb_spec 0 i), (Z.ltb_spec i n); simpl; done || lia.
Qed.

Lemma norm_index_nonneg_inv (n i : Z) (k : nat) :
  0 <= i -> norm_index n i = Some k -> k = Z.to_nat i /\ i < n.
Proof.
  intros Hi. unfold norm_index.
  destruct (Z.leb_spec 0 i), (Z.ltb_spec i n); simpl; try lia.
  - by intros [= <-].
  - destruct (Z.leb_spec (- n) i), (Z.ltb_spec i 0); simpl; done || lia.
Qed.

Lemma norm_index_high (n i : Z) : n <= i -> 0 <= n -> norm_index n i = None.
Proof.
  intros Hi Hn. unfold norm_index.
  destruct (Z.leb_spec 0 i), (Z.ltb_spec i n); simpl; try lia.
  destruct (Z.leb_spec (- n) i), (Z.ltb_spec i 0); simpl; done || lia.
Qed.

Lemma py_index_nonneg {A} (l : list A) (i : Z) (a : A) :
  0 <= i -> l !! Z.to_nat i = Some a -> py_index l i = Done a.
Proof.
  intros Hi Hl. unfold py_index.
  rewrite norm_index_nonneg, Hl; [done|].
  apply lookup_lt_Some in Hl. lia.
Qed.

Lemma py_index_nonneg_inv {A} (l : list A) (i : Z) (a : A) :
  0 <= i -> py_index l i = Done a -> l !! Z.to_nat i = Some a.
Proof.
  intros Hi. unfold py_index.
  destruct (norm_index _ i) as [k|] eqn:Hk; [|done].
  apply norm_index_nonneg_inv in Hk as [-> _]; [|done].
  by destruct (l !! Z.to_nat i); intros [= ->].
Qed.

Lemma py_store_nonneg {A} (l : list A) (i : Z) (v : A) :
  0 <= i < Z.of_nat (length l) -> py_store l i v = Done (<[Z.to_nat i := v]> l).
Proof. intros Hi. unfold py_store. by rewrite norm_index_nonneg. Qed.

(** * The A* search *)

Module PathfindingFacts.
Import Pathfinding.

Lemma heappush_perm (q : list entry) (e : entry) : heappush q e ≡ₚ e :: q.
Proof.
  induction q as [|e' q IH]; simpl; [done|].
  destruct (entry_le e e'); [done|].
  rewrite IH. apply Permutation_swap.
Qed.

Lemma in_bounds_spec (w h : Z) (p : pos) :
  in_bounds w h p = true <-> 0 <= p.1 < w /\ 0 <= p.2 < h.
Proof. unfold in_bounds. rewrite !andb_true_iff. lia. Qed.

Lemma size_inside (w h : Z) (X : gset pos) :
  0 <= w -> 0 <= h ->
  (forall p, p ∈ X -> in_bounds w h p = true) ->
  (size X <= Z.to_nat (w * h))%nat.
Proof.
  intros Hw Hh HX.
  assert (elements X ⊆+ list_prod (seqZ 0 w) (seqZ 0 h)) as Hsub.
  { apply NoDup_submseteq; [apply NoDup_elements|].
    intros [a b] Hp. apply elem_of_elements, HX, in_bounds_spec in Hp.
    apply list_elem_of_In, in_prod; apply list_elem_of_In, elem_of_seqZ;
      simpl in *; lia. }
  apply submseteq_length in Hsub.
  rewrite length_prod, !length_seqZ in Hsub.
  unfold size, set_size. simpl. rewrite Z2Nat.inj_mul by done. exact Hsub.
Qed.

Section search.
Context (grid : list (list bool)) (w h : Z) (start goal : pos).
Hypothesis Hh : Z.of_nat (length grid) = h.
Hypothesis Hw : 0 <= w.
Hypothesis Hrect : Forall (fun row => Z.of_nat (length row) = w) grid.

Lemma cell_inside (p : pos) :
  in_bounds w h p = true -> exists b, cell grid p = Done b.
Proof.
  intros [Hx Hy]%in_bounds_spec. unfold cell.
  destruct (lookup_lt_is_Some_2 grid (Z.to_nat p.2)) as [row Hrow]; [lia|].
  assert (Z.of_nat (length row) = w) as Hlen.
  { by eapply (proj1 (Forall_lookup _ _) Hrect). }
  destruct (lookup_lt_is_Some_2 row (Z.to_nat p.1)) as [b Hb]; [lia|].
  exists b. rewrite (py_index_nonneg _ _ row) by (done || lia). simpl.
  apply py_index_nonneg; [lia|done].
Qed.

Lemma visit_spec (current : pos) (d : Z * Z) (st : state) :
  inv w h goal st -> current ∈ closed_set st -> is_Some (g_score st !! current) ->
  exists st', visit grid w h goal current d st = Done st'
    /\ inv w h goal st'
    /\ closed_set st' = closed_set st
    /\ (forall p, p ∈ nodes st -> p ∈ nodes st')
    /\ is_Some (g_score st' !! current)
    /\ expanded grid w h st' current d.
Proof.
  intros Hinv Hcur [gc Hgc]. unfold visit, expanded, next.
  set (n := (current.1 + d.1, current.2 + d.2)).
  destruct (in_bounds w h n) eqn:Hin; simpl.
  2:{ exists st. split_and!; done. }
  destruct (cell_inside n Hin) as [b Hb]. rewrite Hb. simpl.
  destruct b; simpl.
  2:{ exists st. split_and!; done. }
  case_bool_decide as Hcl; simpl.
  { exists st. split_and!; try done. by left. }
  unfold dict_get. rewrite Hgc. simpl.
  assert (n <> current) as Hne by (intros ->; done).
  destruct (g_score st !! n) as [gn|] eqn:Hgn.
  - assert (n ∈ nodes st) as Hq.
    { assert (n ∈ closed_set st \/ n ∈ nodes st) as [?|?]
        by (apply (inv_scored _ _ _ st Hinv); by eexists); done. }
    destruct (Z.ltb_spec (gc + 1) gn) as [Hlt|Hge].
    2:{ exists st. split_and!; try done. by right. }
    rewrite bool_decide_eq_true_2 by done.
    eexists. split; [done|]. simpl.
    destruct (inv_score_range _ _ _ st Hinv _ _ Hgc) as [Hr1 Hr2].
    split; [|split_and!; try done].
    + destruct Hinv. split; simpl; unfold nodes; simpl; try done.
      * intros p. rewrite lookup_insert_is_Some. rewrite inv_scored0.
        split; [intros [<-|[_ ?]]; by auto|].
        intros Hp. destruct (decide (n = p)); auto.
      * intros p gp. rewrite lookup_insert. case_decide as Hp.
        -- intros [= <-]. subst p. split; [specialize (Hr2 Hcur); lia|done].
        -- by apply inv_score_range0.
      * intros m p. rewrite lookup_insert. case_decide as Hm.
        -- intros [= <-]. split; [done|]. exists gc.
           subst m. rewrite lookup_insert_ne by done.
           by rewrite lookup_insert_eq.
        -- intros Hmp. destruct (inv_parent0 _ _ Hmp) as (Hpc & gp & Hgp & Hgm).
           split; [done|]. exists gp.
           rewrite !lookup_insert_ne; [done|done|by intros ->].
    + rewrite lookup_insert_ne by done. by eexists.
    + by right.
  - assert (n ∉ nodes st) as Hq.
    { intros Hq.
      assert (is_Some (g_score st !! n)) as [? ?]
        by (apply (inv_scored _ _ _ st Hinv); by right).
      congruence. }
    rewrite bool_decide_eq_false_2 by done.
    eexists. split; [done|]. simpl.
    destruct (inv_score_range _ _ _ st Hinv _ _ Hgc) as [Hr1 Hr2].
    assert (forall p, p ∈ (heappush (open_set st) (gc + 1 + heuristic n goal, n)).*2
              <-> p = n \/ p ∈ nodes st) as Hpush.
    { intros p. rewrite heappush_perm. simpl. by rewrite elem_of_cons. }
    split; [|split_and!; try done].
    + destruct Hinv. split; simpl; unfold nodes; simpl; try done.
      * intros p [->|Hp]%Hpush; auto.
      * rewrite heappush_perm. simpl. by apply NoDup_cons.
      * intros p [->|Hp]%Hpush; auto.
      * intros p. rewrite lookup_insert_is_Some, Hpush, inv_scored0.
        split; [intros [<-|[_ [?|?]]]; by auto|].
        intros Hp. destruct (decide (n = p)); [by auto|]. right.
        split; [done|]. destruct Hp as [?|[?|?]]; by auto.
      * intros p gp. rewrite lookup_insert. case_decide as Hp.
        -- intros [= <-]. subst p. split; [specialize (Hr2 Hcur); lia|done].
        -- by apply inv_score_range0.
      * intros m p. rewrite lookup_insert. case_decide as Hm.
        -- intros [= <-]. split; [done|]. exists gc.
           subst m. rewrite lookup_insert_ne by done.
           by rewrite lookup_insert_eq.
        -- intros Hmp. destruct (inv_parent0 _ _ Hmp) as (Hpc & gp & Hgp & Hgm).
           split; [done|]. exists gp.
           rewrite !lookup_insert_ne; [done|done|by intros ->].
    + intros p Hp. apply Hpush. by right.
    + rewrite lookup_insert_ne by done. by eexists.
    + right. apply Hpush. by left.
Qed.

Lemma expanded_mono (st st' : state) (c : pos) (d : Z * Z) :
  (forall p, p ∈ closed_set st \/ p ∈ nodes st ->
             p ∈ closed_set st' \/ p ∈ nodes st') ->
  expanded grid w h st c d -> expanded grid w h st' c d.
Proof. intros Hmono Hexp Hin Hwalk. apply Hmono. by apply Hexp. Qed.

Lemma popped_inv (st : state) (f : Z) (current : pos) (rest : list entry) :
  inv w h goal st -> open_set st = (f, current) :: rest -> current <> goal ->
  inv w h goal (popped st current rest)
  /\ size (closed_set (popped st current rest)) = S (size (closed_set st))
  /\ is_Some (g_score st !! current).
Proof.
  intros Hinv Hopen Hne.
  assert (nodes st = current :: nodes (popped st current rest)) as Hnodes.
  { unfold nodes. by rewrite Hopen. }
  pose proof (inv_open_nodup _ _ _ _ Hinv) as Hnd.
  rewrite Hnodes in Hnd. apply NoDup_cons in Hnd as [Hfresh Hnd].
  assert (current ∉ closed_set st) as Hcl.
  { apply (inv_disjoint _ _ _ _ Hinv). rewrite Hnodes. left. }
  assert (size (closed_set (popped st current rest)) = S (size (closed_set st)))
    as Hsize.
  { simpl. rewrite size_union by set_solver. by rewrite size_singleton. }
  split_and!; [|done|].
  2:{ apply (inv_scored _ _ _ _ Hinv). right. rewrite Hnodes. left. }
  split; try done.
  - intros p Hp. apply (inv_open_inside _ _ _ _ Hinv). rewrite Hnodes. by right.
  - simpl. intros p [->%elem_of_singleton|Hp]%elem_of_union.
    + apply (inv_open_inside _ _ _ _ Hinv). rewrite Hnodes. left.
    + by apply (inv_closed_inside _ _ _ _ Hinv).
  - simpl. intros p Hp [->%elem_of_singleton|Hc]%elem_of_union; [done|].
    apply (inv_disjoint _ _ _ _ Hinv p); [|done]. rewrite Hnodes. by right.
  - intros p. rewrite (inv_scored _ _ _ _ Hinv), Hnodes. simpl.
    rewrite elem_of_cons, elem_of_union, elem_of_singleton. tauto.
  - intros p gp Hgp. rewrite Hsize.
    destruct (inv_score_range _ _ _ _ Hinv p gp Hgp) as [? _]. lia.
  - intros n p Hnp. destruct (inv_parent _ _ _ _ Hinv n p Hnp) as [? ?].
    split; [|done]. simpl. set_solver.
  - simpl. pose proof (inv_goal _ _ _ _ Hinv). set_solver.
Qed.

Lemma expand_spec (current : pos) (st : state) :
  inv w h goal st -> current ∈ closed_set st ->
  is_Some (g_score st !! current) ->
  exists st', for_each directions (visit grid w h goal current) st = Done st'
    /\ inv w h goal st'
    /\ closed_set st' = closed_set st
    /\ (forall p, p ∈ nodes st -> p ∈ nodes st')
    /\ (forall d, d ∈ directions -> expanded grid w h st' current d).
Proof.
  intros Hinv Hcur Hg.
  destruct (for_each_ind
    (fun seen st' => inv w h goal st'
       /\ closed_set st' = closed_set st
       /\ (forall p, p ∈ nodes st -> p ∈ nodes st')
       /\ is_Some (g_score st' !! current)
       /\ (forall d, d ∈ seen -> expanded grid w h st' current d))
    (visit grid w h goal current) directions st) as (st' & Hrun & H1 & H2 & H3 & _ & H5).
  - split_and!; try done. intros d Hd. by apply elem_of_nil in Hd.
  - intros seen d rest s _ (I1 & I2 & I3 & I4 & I5).
    destruct (visit_spec current d s I1) as (s' & Hv & J1 & J2 & J3 & J4 & J5);
      [by rewrite I2|done|].
    exists s'. split_and!; try done.
    + congruence.
    + auto.
    + intros d' [Hd'| ->%list_elem_of_singleton]%elem_of_app; [|done].
      apply (expanded_mono s); [|by apply I5].
      rewrite J2. intros p [?|?]; auto.
  - by exists st'.
Qed.

Lemma walk_back_spec (st : state) :
  inv w h goal st ->
  forall fuel n gn,
    g_score st !! n = Some gn -> (Z.to_nat gn < fuel)%nat ->
    in_bounds w h n = true ->
    exists path, walk_back fuel (came_from st) n = Done path
      /\ path <> []
      /\ (forall c, c ∈ path -> in_bounds w h c = true).
Proof.
  intros Hinv. induction fuel as [|fuel IH]; intros n gn Hgn Hfuel Hn; [lia|].
  simpl. destruct (came_from st !! n) as [p|] eqn:Hp.
  - destruct (inv_parent _ _ _ _ Hinv n p Hp) as (Hpc & gp & Hgp & Hgn').
    assert (gn = gp + 1) as -> by congruence.
    destruct (inv_score_range _ _ _ _ Hinv p gp Hgp) as [? _].
    destruct (IH p gp Hgp) as (rest & -> & _ & Hin); [lia| |].
    { by apply (inv_closed_inside _ _ _ _ Hinv). }
    exists (rest ++ [n]). split_and!; [done|by destruct rest|].
    intros c [?| ->%list_elem_of_singleton]%elem_of_app; auto.
  - exists [n]. split_and!; [done..|].
    by intros c ->%list_elem_of_singleton.
Qed.

Lemma reach_closed (st : state) (a b : pos) :
  closure grid w h st -> nodes st = [] ->
  reach grid w h a b -> a ∈ closed_set st -> b ∈ closed_set st.
Proof.
  intros Hcl Hnil Hreach Ha. induction Hreach as [|b d _ IH Hd Hin Hwalk]; [done|].
  destruct (Hcl b d IH Hd Hin Hwalk) as [?|Hq]; [done|].
  rewrite Hnil in Hq. by apply elem_of_nil in Hq.
Qed.

Lemma search_S (fuel : nat) (st : state) :
  search (S fuel) grid w h goal st =
  match heappop (open_set st) with
  | None => Done []
  | Some ((_, current), rest) =>
      if bool_decide (current = goal) then
        walk_back (S (Z.to_nat (w * h))) (came_from st) current
      else
        st2 ← for_each directions (visit grid w h goal current)
                (popped st current rest);
        search fuel grid w h goal st2
  end.
Proof. done. Qed.

Lemma search_spec (fuel : nat) (st : state) :
  inv w h goal st -> closure grid w h st ->
  start ∈ closed_set st \/ start ∈ nodes st ->
  (Z.to_nat (w * h) - size (closed_set st) < fuel)%nat ->
  exists path, search fuel grid w h goal st = Done path
    /\ (forall c, c ∈ path -> in_bounds w h c = true)
    /\ (reach grid w h start goal -> path <> []).
Proof.
  assert (0 <= h) as Hh0 by lia.
  revert st. induction fuel as [|fuel IH]; intros st Hinv Hcl Hstart Hfuel; [lia|].
  rewrite search_S. destruct (open_set st) as [|[f current] rest] eqn:Hopen;
    unfold heappop.
  - exists []. split_and!; [done|by intros c ?%elem_of_nil|].
    intros Hreach. exfalso. apply (inv_goal _ _ _ _ Hinv).
    assert (nodes st = []) as Hnil by (unfold nodes; by rewrite Hopen).
    apply (reach_closed st start); try done.
    destruct Hstart as [?|Hq]; [done|]. rewrite Hnil in Hq.
    by apply elem_of_nil in Hq.
  - assert (current ∈ nodes st) as Hcur.
    { unfold nodes. rewrite Hopen. left. }
    case_bool_decide as Hgoal.
    + assert (is_Some (g_score st !! current)) as [gn Hgn].
      { apply (inv_scored _ _ _ _ Hinv). by right. }
      destruct (inv_score_range _ _ _ _ Hinv _ _ Hgn) as [Hrange _].
      pose proof (size_inside w h (closed_set st) Hw Hh0
                    (inv_closed_inside _ _ _ _ Hinv)) as Hsize.
      destruct (walk_back_spec st Hinv (S (Z.to_nat (w * h))) current gn)
        as (path & Hpath & Hne & Hin); [done|lia| |].
      { by apply (inv_open_inside _ _ _ _ Hinv). }
      exists path. by split_and!.
    + destruct (popped_inv st f current rest Hinv Hopen Hgoal)
        as (Hinv1 & Hsize1 & Hg1).
      destruct (expand_spec current (popped st current rest) Hinv1)
        as (st2 & Hrun & Hinv2 & Hclosed2 & Hnodes2 & Hexp2);
        [simpl; set_solver|done|].
      rewrite Hrun. simpl.
      assert (forall p, p ∈ closed_set st \/ p ∈ nodes st ->
                        p ∈ closed_set st2 \/ p ∈ nodes st2) as Hmono.
      { intros p. rewrite Hclosed2. simpl. unfold nodes at 1. rewrite Hopen.
        simpl. rewrite elem_of_cons, elem_of_union, elem_of_singleton.
        intros [?|[->|?]]; auto. }
      pose proof (size_inside w h (closed_set st2) Hw Hh0
                    (inv_closed_inside _ _ _ _ Hinv2)) as Hsize2.
      rewrite Hclosed2, Hsize1 in Hsize2.
      apply IH; try done.
      * intros c d. rewrite Hclosed2. simpl.
        intros [->%elem_of_singleton|Hc]%elem_of_union Hd; [by apply Hexp2|].
        apply (expanded_mono st); [done|by apply Hcl].
      * by apply Hmono.
      * rewrite Hclosed2, Hsize1. lia.
Qed.

End search.

Section sound.
Context (grid : list (list bool)) (w h : Z) (start goal : pos).
Hypothesis Hh : Z.of_nat (length grid) = h.
Hypothesis Hw : 0 <= w.
Hypothesis Hrect : Forall (fun row => Z.of_nat (length row) = w) grid.

Lemma visit_links (current : pos) (d : Z * Z) (st st' : state) :
  visit grid w h goal current d st = Done st' ->
  d ∈ directions -> start ∈ closed_set st -> is_Some (g_score st !! current) ->
  links grid w h start st -> links grid w h start st'.
Proof.
  unfold visit. intros Hv Hd Hstart Hcur Hlinks. revert Hv.
  set (n := (current.1 + d.1, current.2 + d.2)).
  destruct (in_bounds w h n) eqn:Hin; simpl; [|by intros [= <-]].
  destruct (cell grid n) as [b| |] eqn:Hb; simpl; try done.
  destruct b; simpl; [|by intros [= <-]].
  case_bool_decide as Hcl; simpl; [by intros [= <-]|].
  destruct (dict_get _ _) as [gc| |]; simpl; try done.
  destruct (match g_score st !! n with Some _ => _ | None => _ end);
    [|by intros [= <-]].
  intros [= <-]. assert (n <> start) as Hne by (intros ->; done).
  destruct Hlinks as [Hstep Hroot Hnone]. split; simpl.
  - intros m p. rewrite lookup_insert. case_decide as Hm.
    + intros [= <-]. subst m. by exists d.
    + apply Hstep.
  - intros m. rewrite !lookup_insert_is_Some.
    intros [<-|[Hm Hg]]; [by auto|].
    destruct (Hroot m Hg); auto.
  - by rewrite lookup_insert_ne.
Qed.

Lemma visit_scored (current : pos) (d : Z * Z) (st st' : state) (p : pos) :
  visit grid w h goal current d st = Done st' ->
  is_Some (g_score st !! p) -> is_Some (g_score st' !! p).
Proof.
  unfold visit.
  destruct (in_bounds w h _); simpl; [|by intros [= <-]].
  destruct (cell grid _) as [b| |]; simpl; try done.
  destruct (negb b || _); [by intros [= <-]|].
  destruct (dict_get _ _) as [gc| |]; simpl; try done.
  destruct (match g_score st !! _ with Some _ => _ | None => _ end);
    intros [= <-]; [|done].
  simpl. rewrite lookup_insert_is_Some. intros Hp.
  destruct (decide ((current.1 + d.1, current.2 + d.2) = p)); auto.
Qed.

Lemma expand_links (current : pos) (st st' : state) :
  for_each directions (visit grid w h goal current) st = Done st' ->
  start ∈ closed_set st -> is_Some (g_score st !! current) ->
  links grid w h start st -> links grid w h start st'.
Proof.
  intros Hrun Hstart Hcur Hlinks.
  apply (for_each_post
    (fun s => closed_set s = closed_set st
              /\ is_Some (g_score s !! current)
              /\ links grid w h start s) _ _ _ _ Hrun); [done|].
  intros d s s' Hd (Hcl & Hg & Hl) Hv. split_and!.
  - rewrite <- Hcl. revert Hv. unfold visit.
    destruct (in_bounds w h _); simpl; [|by intros [= <-]].
    destruct (cell grid _) as [b| |]; simpl; try done.
    destruct (negb b || _); [by intros [= <-]|].
    destruct (dict_get _ _) as [gc| |]; simpl; try done.
    by destruct (match g_score s !! _ with Some _ => _ | None => _ end);
      intros [= <-].
  - by eapply visit_scored.
  - eapply visit_links; try done. by rewrite Hcl.
Qed.

Lemma walk_snoc (path : list pos) (p n : pos) (d : Z * Z) :
  walk grid w h path -> last path = Some p ->
  d ∈ directions -> n = next p d ->
  in_bounds w h n = true -> cell grid n = Done true ->
  walk grid w h (path ++ [n]).
Proof.
  intros Hwalk Hlast Hd Hn Hin Hcell.
  induction path as [|a [|b rest] IH]; [done| |].
  - injection Hlast as ->. simpl. split_and!; [by exists d|done..].
  - destruct Hwalk as (Hab & Hb & Hcb & Hrest).
    change (walk grid w h (a :: (b :: rest) ++ [n])).
    cbn [walk app]. split_and!; [done..|]. by apply IH.
Qed.

Lemma walk_back_sound (st : state) :
  inv w h goal st -> links grid w h start st ->
  forall fuel n path,
    walk_back fuel (came_from st) n = Done path ->
    is_Some (g_score st !! n) ->
    walk grid w h path /\ head path = Some start /\ last path = Some n.
Proof.
  intros Hinv Hlinks. induction fuel as [|fuel IH]; intros n path; [done|].
  simpl. destruct (came_from st !! n) as [p|] eqn:Hp.
  - intros (rest & Hrest & [= <-])%bind_Done Hn.
    destruct (inv_parent _ _ _ _ Hinv n p Hp) as (_ & gp & Hgp & _).
    destruct (IH p rest Hrest) as (Hwalk & Hhead & Hlast); [by eexists|].
    destruct (links_step _ _ _ _ _ Hlinks n p Hp) as (d & Hd & Hnext & Hin & Hc).
    split_and!.
    + by eapply walk_snoc.
    + by destruct rest.
    + apply last_snoc.
  - intros [= <-] Hn.
    destruct (links_root _ _ _ _ _ Hlinks n Hn) as [->|[? ?]]; [done|congruence].
Qed.

Lemma search_sound (fuel : nat) (st : state) (path : list pos) :
  search fuel grid w h goal st = Done path ->
  inv w h goal st -> links grid w h start st ->
  start ∈ closed_set st \/ nodes st = [start] ->
  path = []
  \/ (walk grid w h path /\ head path = Some start /\ last path = Some goal).
Proof.
  revert st. induction fuel as [|fuel IH]; intros st Hrun Hinv Hlinks Hstart;
    [done|].
  rewrite search_S in Hrun.
  destruct (open_set st) as [|[f current] rest] eqn:Hopen; unfold heappop in Hrun.
  { left. by injection Hrun as <-. }
  assert (current ∈ nodes st) as Hcur.
  { unfold nodes. rewrite Hopen. left. }
  case_bool_decide as Hgoal.
  - right. subst current. eapply walk_back_sound; try done.
    apply (inv_scored _ _ _ _ Hinv). by right.
  - destruct (popped_inv grid w h goal Hh Hw Hrect st f current rest
                Hinv Hopen Hgoal) as (Hinv1 & _ & Hg1).
    assert (start ∈ closed_set (popped st current rest)) as Hstart1.
    { simpl. destruct Hstart as [?|Hone]; [set_solver|].
      unfold nodes in Hone. rewrite Hopen in Hone. injection Hone as -> _.
      set_solver. }
    destruct (expand_spec grid w h goal Hh Hrect current _ Hinv1)
      as (st2 & Hexp & Hinv2 & Hcl2 & _); [simpl; set_solver|done|].
    rewrite Hexp in Hrun. cbn [mbind outcome_bind] in Hrun.
    apply (IH st2 Hrun Hinv2).
    + eapply expand_links; [exact Hexp|done|done|].
      destruct Hlinks as [? ? ?]. by split.
    + left. by rewrite Hcl2.
Qed.

End sound.

Lemma init_links (grid : list (list bool)) (w h : Z) (start goal : pos) :
  links grid w h start (init start goal).
Proof.
  split; simpl.
  - intros n p Hnp. by rewrite lookup_empty in Hnp.
  - intros n [g [-> _]%lookup_singleton_Some]. by left.
  - apply lookup_empty.
Qed.

Lemma init_inv (w h : Z) (start goal : pos) :
  in_bounds w h start = true ->
  inv w h goal (init start goal).
Proof.
  intros Hstart. split; unfold nodes; simpl.
  - by intros p ->%list_elem_of_singleton.
  - apply NoDup_singleton.
  - intros p Hp. by apply elem_of_empty in Hp.
  - intros p _ Hp. by apply elem_of_empty in Hp.
  - intros p. rewrite lookup_singleton_is_Some, list_elem_of_singleton.
    split; [by right|]. intros [Hp|?]; [by apply elem_of_empty in Hp|done].
  - intros p gp [-> <-]%lookup_singleton_Some. split; [lia|].
    intros Hp. by apply elem_of_empty in Hp.
  - intros n p Hnp. by rewrite lookup_empty in Hnp.
  - apply not_elem_of_empty.
Qed.

Lemma rectangular_rows (grid : list (list bool)) :
  rectangular grid ->
  0 <= grid_width grid
  /\ Forall (fun row => Z.of_nat (length row) = grid_width grid) grid.
Proof. intros Hrect. split; [|done]. unfold grid_width. destruct grid; lia. Qed.

(** [astar] returns on every rectangular mask; the cells of the path it
    returns are inside the mask, and the path is not empty when the goal
    can be reached from the start. *)
Lemma astar_spec (grid : list (list bool)) (start goal : pos) :
  rectangular grid ->
  exists path, astar grid start goal = Done path
    /\ (forall c, c ∈ path ->
          in_bounds (grid_width grid) (grid_height grid) c = true)
    /\ (in_bounds (grid_width grid) (grid_height grid) start = true ->
        reach grid (grid_width grid) (grid_height grid) start goal ->
        path <> []).
Proof.
  intros [Hw Hrect]%rectangular_rows. unfold astar, astar_fuel.
  set (w := grid_width grid) in *. set (h := grid_height grid).
  destruct (in_bounds w h start) eqn:Hs; cbn [negb orb].
  2:{ exists []. split_and!; [done|by intros c ?%elem_of_nil|done]. }
  destruct (in_bounds w h goal) eqn:Hg; cbn [negb orb].
  2:{ exists []. split_and!; [done|by intros c ?%elem_of_nil|].
      intros _ Hreach. destruct Hreach; congruence. }
  case_bool_decide as Heq.
  { exists [start]. split_and!; [done| |done].
    by intros c ->%list_elem_of_singleton. }
  destruct (cell_inside grid w h eq_refl Hrect goal Hg) as [b Hb].
  rewrite Hb. cbn [mbind outcome_bind]. destruct b; cbn [negb].
  2:{ exists []. split_and!; [done|by intros c ?%elem_of_nil|].
      intros _ Hreach. destruct Hreach; congruence. }
  destruct (search_spec grid w h start goal eq_refl Hw Hrect
              (S (Z.to_nat (w * h))) (init start goal)) as (path & Hrun & Hin & Hne).
  - by apply init_inv.
  - intros c d Hc. by apply elem_of_empty in Hc.
  - right. unfold nodes. simpl. left.
  - lia.
  - exists path. split_and!; auto.
Qed.

(** A non-empty result of [astar] is a walk from the start to the goal. *)
Lemma astar_sound (grid : list (list bool)) (start goal : pos)
    (path : list pos) :
  rectangular grid ->
  astar grid start goal = Done path -> path <> [] ->
  walk grid (grid_width grid) (grid_height grid) path
  /\ head path = Some start /\ last path = Some goal.
Proof.
  intros [Hw Hrect]%rectangular_rows. unfold astar, astar_fuel.
  destruct (in_bounds _ _ start) eqn:Hs; cbn [negb orb]; [|by intros [= <-]].
  destruct (in_bounds _ _ goal) eqn:Hg; cbn [negb orb]; [|by intros [= <-]].
  case_bool_decide as Heq; [by intros [= <-]; subst|].
  destruct (cell grid goal) as [[|]| |]; cbn [mbind outcome_bind negb];
    try done; [|by intros [= <-]].
  intros Hrun Hne.
  destruct (search_sound grid _ _ start goal eq_refl Hw Hrect _ _ _ Hrun)
    as [?|?]; try done.
  - by apply init_inv.
  - apply init_links.
  - by right.
Qed.

Lemma reach_trans (grid : list (list bool)) (w h : Z) (a b c : pos) :
  reach grid w h a b -> reach grid w h b c -> reach grid w h a c.
Proof.
  intros Hab Hbc. induction Hbc as [|c d _ IH Hd Hin Hcell]; [done|].
  by constructor.
Qed.

(** A walk leads to its last cell. *)
Lemma walk_reach (grid : list (list bool)) (w h : Z) (path : list pos)
    (a b : pos) :
  walk grid w h path -> head path = Some a -> last path = Some b ->
  reach grid w h a b.
Proof.
  revert a. induction path as [|x [|y rest] IH]; intros a Hwalk Hhead Hlast.
  - done.
  - injection Hhead as <-. injection Hlast as <-. constructor.
  - injection Hhead as <-.
    destruct Hwalk as ((d & Hd & Hy) & Hin & Hcell & Hrest).
    apply (reach_trans _ _ _ _ y); [|by apply IH].
    rewrite Hy in *. constructor; [constructor|done..].
Qed.

(** When the goal cannot be reached, [astar] returns the empty list. *)
Lemma astar_no_path (grid : list (list bool)) (start goal : pos) :
  rectangular grid ->
  ~ reach grid (grid_width grid) (grid_height grid) start goal ->
  astar grid start goal = Done [].
Proof.
  intros Hrect Hno.
  destruct (astar_spec grid start goal Hrect) as ([|c path] & Hrun & _);
    [done|].
  destruct (astar_sound grid start goal (c :: path) Hrect Hrun)
    as (Hwalk & Hhead & Hlast); [done|].
  destruct Hno. by eapply walk_reach.
Qed.

End PathfindingFacts.

Module StartCell.
Import Pathfinding PathfindingFacts.

Section agree.
Context (g1 g2 : list (list bool)) (w h : Z) (start goal : pos).
Hypothesis Hdiff : differ_only_at g1 g2 start.

Lemma differ_rows (j : nat) :
  match g1 !! j, g2 !! j with
  | Some row1, Some row2 =>
      length row1 = length row2
      /\ forall i : nat, (Z.of_nat i, Z.of_nat j) <> start -> row1 !! i = row2 !! i
  | None, None => True
  | _, _ => False
  end.
Proof.
  destruct Hdiff as [Hlen Hrows].
  destruct (g1 !! j) as [row1|] eqn:H1, (g2 !! j) as [row2|] eqn:H2.
  - by apply Hrows.
  - apply lookup_lt_Some in H1. apply lookup_ge_None in H2. lia.
  - apply lookup_lt_Some in H2. apply lookup_ge_None in H1. lia.
  - done.
Qed.

(** Inside the bounds the two masks answer alike, except that at the
    start cell the two answers may be different booleans. *)
Lemma cell_agree (p : pos) :
  0 <= p.1 -> 0 <= p.2 ->
  cell g1 p = cell g2 p
  \/ (p = start /\ exists b1 b2, cell g1 p = Done b1 /\ cell g2 p = Done b2).
Proof.
  intros Hx Hy. destruct p as [px py]. simpl in *. unfold cell, py_index. simpl.
  destruct Hdiff as [Hlen _]. rewrite <- Hlen.
  destruct (norm_index _ py) as [j|] eqn:Hj; [|by left].
  apply norm_index_nonneg_inv in Hj as [-> Hpy]; [|done].
  pose proof (differ_rows (Z.to_nat py)) as Hrow.
  destruct (g1 !! Z.to_nat py) as [row1|], (g2 !! Z.to_nat py) as [row2|];
    try done; [|by left].
  destruct Hrow as [Hrl Hcells]. simpl. rewrite <- Hrl.
  destruct (norm_index _ px) as [i|] eqn:Hi; [|by left].
  apply norm_index_nonneg_inv in Hi as [-> Hpx]; [|done].
  destruct (decide ((px, py) = start)) as [Heq|Hne].
  - destruct (lookup_lt_is_Some_2 row1 (Z.to_nat px)) as [b1 Hb1]; [lia|].
    destruct (lookup_lt_is_Some_2 row2 (Z.to_nat px)) as [b2 Hb2]; [lia|].
    right. split; [done|]. exists b1, b2. by rewrite Hb1, Hb2.
  - left. rewrite (Hcells (Z.to_nat px)); [done|].
    by rewrite !Z2Nat.id.
Qed.

Lemma visit_closed (grid : list (list bool)) (current : pos) (d : Z * Z)
    (st st' : state) :
  visit grid w h goal current d st = Done st' ->
  closed_set st' = closed_set st.
Proof.
  unfold visit.
  destruct (in_bounds w h _); simpl; [|by intros [= <-]].
  destruct (cell grid _) as [b| |]; simpl; try done.
  destruct (negb b || _); [by intros [= <-]|].
  destruct (dict_get _ _) as [gc| |]; simpl; try done.
  by destruct (match g_score st !! _ with Some _ => _ | None => _ end);
    intros [= <-].
Qed.

Lemma visit_agree (current : pos) (d : Z * Z) (st : state) :
  start ∈ closed_set st ->
  visit g1 w h goal current d st = visit g2 w h goal current d st.
Proof.
  intros Hstart. unfold visit.
  destruct (in_bounds w h _) eqn:Hin; simpl; [|done].
  apply in_bounds_spec in Hin as [Hx Hy].
  destruct (cell_agree (current.1 + d.1, current.2 + d.2)) as
    [->|(Heq & b1 & b2 & -> & ->)]; [simpl in *; lia..|done|].
  simpl. rewrite Heq, (bool_decide_eq_true_2 _ Hstart).
  by rewrite !orb_true_r.
Qed.

Lemma expand_agree (current : pos) (ds : list (Z * Z)) (st : state) :
  start ∈ closed_set st ->
  for_each ds (visit g1 w h goal current) st
  = for_each ds (visit g2 w h goal current) st.
Proof.
  revert st. induction ds as [|d ds IH]; intros st Hstart; [done|]. simpl.
  rewrite (visit_agree current d st Hstart).
  destruct (visit g2 w h goal current d st) as [st'| |] eqn:Hv; try done.
  simpl. apply IH. by rewrite (visit_closed _ _ _ _ _ Hv).
Qed.

Lemma expand_closed (grid : list (list bool)) (current : pos)
    (ds : list (Z * Z)) (st st' : state) :
  for_each ds (visit grid w h goal current) st = Done st' ->
  closed_set st' = closed_set st.
Proof.
  intros Hrun.
  apply (for_each_post (fun s => closed_set s = closed_set st) _ _ _ _ Hrun);
    [done|].
  intros d s s' _ <- Hv. by apply visit_closed in Hv.
Qed.

Lemma search_agree (fuel : nat) (st : state) :
  start ∈ closed_set st ->
  search fuel g1 w h goal st = search fuel g2 w h goal st.
Proof.
  revert st. induction fuel as [|fuel IH]; intros st Hstart; [done|].
  rewrite !search_S. destruct (heappop (open_set st)) as [[[f current] rest]|];
    [|done].
  case_bool_decide; [done|].
  assert (start ∈ closed_set (popped st current rest)) as Hstart'.
  { simpl. set_solver. }
  rewrite (expand_agree current directions _ Hstart').
  destruct (for_each directions (visit g2 w h goal current) _) as [st2| |]
    eqn:Hrun; try done.
  simpl. apply IH. by rewrite (expand_closed _ _ _ _ _ Hrun).
Qed.

Lemma search_init_agree (fuel : nat) :
  start <> goal ->
  search fuel g1 w h goal (init start goal)
  = search fuel g2 w h goal (init start goal).
Proof.
  intros Hne. destruct fuel as [|fuel]; [done|].
  rewrite !search_S.
  change (heappop (open_set (init start goal)))
    with (Some ((heuristic start goal, start), @nil entry)).
  cbv beta iota. rewrite bool_decide_eq_false_2 by done.
  assert (start ∈ closed_set (popped (init start goal) start [])) as Hstart.
  { simpl. set_solver. }
  rewrite (expand_agree start directions _ Hstart).
  destruct (for_each directions (visit g2 w h goal start) _) as [st2| |]
    eqn:Hrun; try done.
  simpl. apply search_agree. by rewrite (expand_closed _ _ _ _ _ Hrun).
Qed.

End agree.

Lemma differ_shape (g1 g2 : list (list bool)) (p : pos) :
  differ_only_at g1 g2 p ->
  grid_width g1 = grid_width g2 /\ grid_height g1 = grid_height g2.
Proof.
  intros Hdiff. pose proof (differ_rows g1 g2 p Hdiff 0) as H0.
  destruct Hdiff as [Hlen _]. split; [|unfold grid_height; by rewrite Hlen].
  destruct g1 as [|r1 g1], g2 as [|r2 g2]; try done.
  simpl in *. destruct H0 as [-> _]. done.
Qed.

Lemma astar_fuel_agree (fuel : nat) (g1 g2 : list (list bool))
    (start goal : pos) :
  differ_only_at g1 g2 start ->
  astar_fuel fuel g1 start goal = astar_fuel fuel g2 start goal.
Proof.
  intros Hdiff. destruct (differ_shape _ _ _ Hdiff) as [Hw Hh].
  unfold astar_fuel. rewrite Hw, Hh.
  destruct (in_bounds _ _ start) eqn:Hs; [|done].
  destruct (in_bounds _ _ goal) eqn:Hg; [|done].
  cbn [negb orb]. case_bool_decide as Hne; [done|].
  apply in_bounds_spec in Hg as [Hx Hy].
  destruct (cell_agree g1 g2 start Hdiff goal) as [->|[? _]];
    [lia|lia| |congruence].
  destruct (cell g2 goal) as [[|]| |]; try done.
  cbn [mbind outcome_bind negb].
  by apply search_init_agree.
Qed.

End StartCell.

(** * The tile grid *)

Module GridFacts.
Import Dungeon.

Lemma inside_spec (d : t) (x y : Z) :
  inside d x y = true <-> 0 <= x < width d /\ 0 <= y < height d.
Proof. unfold inside. rewrite !andb_true_iff. lia. Qed.

Lemma tile_at_Some (d : t) (x y : Z) (v : Tile) :
  tile_at d x y = Some v <->
  0 <= x /\ 0 <= y
  /\ exists row, grid d !! Z.to_nat y = Some row /\ row !! Z.to_nat x = Some v.
Proof.
  unfold tile_at.
  destruct (Z.leb_spec 0 x), (Z.leb_spec 0 y); simpl;
    try (split; [done|lia]).
  destruct (grid d !! Z.to_nat y) as [row|]; simpl.
  - split; [by eauto|]. by intros (_ & _ & ? & [= <-] & ?).
  - split; [done|]. by intros (_ & _ & ? & ? & _).
Qed.

Lemma tile_at_inside (d : t) (x y : Z) :
  wf d -> (is_Some (tile_at d x y) <-> inside d x y = true).
Proof.
  intros (Hrows & Hcols). rewrite inside_spec. split.
  - intros [v (Hx & Hy & row & Hrow & Hv)%tile_at_Some].
    pose proof (lookup_lt_Some _ _ _ Hrow).
    pose proof (lookup_lt_Some _ _ _ Hv).
    rewrite (proj1 (Forall_lookup _ _) Hcols _ _ Hrow) in *. lia.
  - intros [Hx Hy].
    destruct (lookup_lt_is_Some_2 (grid d) (Z.to_nat y)) as [row Hrow]; [lia|].
    destruct (lookup_lt_is_Some_2 row (Z.to_nat x)) as [v Hv].
    { rewrite (proj1 (Forall_lookup _ _) Hcols _ _ Hrow). lia. }
    exists v. apply tile_at_Some. eauto 6 with lia.
Qed.

Lemma tile_Done (d : t) (x y : Z) (v : Tile) :
  tile_at d x y = Some v -> tile d x y = Done v.
Proof.
  intros (Hx & Hy & row & Hrow & Hv)%tile_at_Some. unfold tile.
  rewrite (py_index_nonneg _ _ row) by done. simpl.
  by apply py_index_nonneg.
Qed.

Lemma tile_inside (d : t) (x y : Z) :
  wf d -> inside d x y = true ->
  exists v, tile d x y = Done v /\ tile_at d x y = Some v.
Proof.
  intros Hwf Hin. destruct (proj2 (tile_at_inside d x y Hwf) Hin) as [v Hv].
  exists v. split; [by apply tile_Done|done].
Qed.

Lemma store_spec (d : t) (x y : Z) (v : Tile) :
  wf d -> inside d x y = true ->
  exists d', store d x y v = Done d'
    /\ wf d' /\ same_frame d d'
    /\ stairs_down d' = stairs_down d /\ player_start d' = player_start d
    /\ forall x' y', tile_at d' x' y' =
         if bool_decide ((x', y') = (x, y)) then Some v else tile_at d x' y'.
Proof.
  intros Hwf Hin.
  destruct (proj2 (tile_at_inside d x y Hwf) Hin)
    as [v0 (Hx & Hy & row & Hrow & Hv0)%tile_at_Some].
  destruct Hwf as (Hrows & Hcols).
  pose proof (lookup_lt_Some _ _ _ Hrow) as Hylt.
  pose proof (lookup_lt_Some _ _ _ Hv0) as Hxlt.
  unfold store. rewrite (py_index_nonneg _ _ row) by done. simpl.
  rewrite py_store_nonneg by lia. simpl.
  rewrite py_store_nonneg by lia. simpl.
  eexists. split; [done|]. split_and!; try done.
  - split_and!; simpl; try done.
    + by rewrite length_insert.
    + apply Forall_insert; [done|]. rewrite length_insert.
      by apply (proj1 (Forall_lookup _ _) Hcols _ _ Hrow).
  - intros x' y'. unfold tile_at. simpl.
    destruct (Z.leb_spec 0 x'), (Z.leb_spec 0 y'); simpl;
      try (case_bool_decide; [simplify_eq; lia|done]).
    destruct (decide (Z.to_nat y' = Z.to_nat y)) as [Hy'|Hy'].
    + rewrite Hy', list_lookup_insert_eq by done. simpl. rewrite Hrow. simpl.
      destruct (decide (Z.to_nat x' = Z.to_nat x)) as [Hx'|Hx'].
      * rewrite Hx', list_lookup_insert_eq by done.
        rewrite bool_decide_eq_true_2; [done|]. f_equal; lia.
      * rewrite list_lookup_insert_ne by done.
        rewrite bool_decide_eq_false_2; [done|]. intros [= -> ->]. done.
    + rewrite list_lookup_insert_ne by done.
      rewrite bool_decide_eq_false_2; [done|]. intros [= -> ->]. done.
Qed.

Lemma modify_spec (d : t) (x y : Z) (f : Tile -> Tile) :
  wf d -> inside d x y = true ->
  exists d' v, modify d x y f = Done d'
    /\ tile_at d x y = Some v
    /\ wf d' /\ same_frame d d'
    /\ stairs_down d' = stairs_down d /\ player_start d' = player_start d
    /\ forall x' y', tile_at d' x' y' =
         if bool_decide ((x', y') = (x, y)) then Some (f v) else tile_at d x' y'.
Proof.
  intros Hwf Hin. destruct (tile_inside d x y Hwf Hin) as (v & Hv & Hat).
  destruct (store_spec d x y (f v) Hwf Hin) as (d' & Hst & ?).
  exists d', v. unfold modify. rewrite Hv. simpl. by rewrite Hst.
Qed.

Lemma same_frame_refl (d : t) : same_frame d d.
Proof. done. Qed.

Lemma same_frame_trans (d1 d2 d3 : t) :
  same_frame d1 d2 -> same_frame d2 d3 -> same_frame d1 d3.
Proof. unfold same_frame. intros (-> & -> & ->) (-> & -> & ->). done. Qed.

Lemma same_frame_inside (d d' : t) (x y : Z) :
  same_frame d d' -> inside d' x y = inside d x y.
Proof. intros (Hw & Hh & _). unfold inside. by rewrite Hw, Hh. Qed.

End GridFacts.

(** * Line of sight *)

Module SightFacts.
Import Dungeon GridFacts.

Lemma los_walk_S (fuel : nat) (d : t) (x0 y0 x1 y1 dx dy sx sy err : Z) :
  los_walk (S fuel) d x0 y0 x1 y1 dx dy sx sy err =
  if (x0 =? x1) && (y0 =? y1) then Done true else
  blocked ← (if inside d x0 y0 then
               v ← tile d x0 y0;
               Done (negb (is_transparent v)
                     && negb ((x0 =? x1) && (y0 =? y1)))
             else Done false);
  if blocked : bool then Done false else
  let e2 := 2 * err in
  let '(err, x0) := if - dy <? e2 then (err - dy, x0 + sx) else (err, x0) in
  let '(err, y0) := if e2 <? dx then (err + dx, y0 + sy) else (err, y0) in
  los_walk fuel d x0 y0 x1 y1 dx dy sx sy err.
Proof. done. Qed.

(** The step of the walk in terms of the step counts. *)
Lemma step_counts (dx dy i j i' j' : Z) :
  0 <= dx -> 0 <= dy -> 0 <= i <= i' -> 0 <= j <= j' ->
  i' <= dx -> j' <= dy -> i' * dy = j' * dx -> (i, j) <> (i', j') ->
  let e2 := 2 * err_at dx dy i j in
  let i1 := if - dy <? e2 then i + 1 else i in
  let j1 := if e2 <? dx then j + 1 else j in
  i1 <= i' /\ j1 <= j' /\ i + j < i1 + j1.
Proof.
  intros Hdx Hdy Hi Hj Hi' Hj' Hline Hne. unfold err_at. simpl.
  assert (i < i' \/ j < j') as Hlt.
  { destruct (decide (i = i')), (decide (j = j')); try lia. congruence. }
  destruct (Z.ltb_spec (- dy) (2 * ((j + 1) * dx - (i + 1) * dy))) as [Hx|Hx],
           (Z.ltb_spec (2 * ((j + 1) * dx - (i + 1) * dy)) dx) as [Hy|Hy].
  - split_and!; [|  |lia].
    + destruct (decide (i = i')) as [->|]; [|lia]. exfalso.
      assert (j + 1 <= j') by lia.
      assert ((j + 1) * dx <= j' * dx) by nia. nia.
    + destruct (decide (j = j')) as [->|]; [|lia]. exfalso.
      assert (i + 1 <= i') by lia.
      assert ((i + 1) * dy <= i' * dy) by nia. nia.
  - split_and!; [|lia|lia].
    destruct (decide (i = i')) as [->|]; [|lia]. exfalso.
    assert (j + 1 <= j') by lia.
    assert ((j + 1) * dx <= j' * dx) by nia. nia.
  - split_and!; [lia| |lia].
    destruct (decide (j = j')) as [->|]; [|lia]. exfalso.
    assert (i + 1 <= i') by lia.
    assert ((i + 1) * dy <= i' * dy) by nia. nia.
  - exfalso. assert (dx = 0 /\ dy = 0) as [-> ->] by lia. lia.
Qed.

Section walk.
Context (d : t) (X0 Y0 x1 y1 : Z).
Hypothesis Hwf : wf d.

Local Abbreviation dx := (Z.abs (x1 - X0)) (only parsing).
Local Abbreviation dy := (Z.abs (y1 - Y0)) (only parsing).
Local Abbreviation sx := (if X0 <? x1 then 1 else -1) (only parsing).
Local Abbreviation sy := (if Y0 <? y1 then 1 else -1) (only parsing).

Lemma target_x : x1 = X0 + sx * dx.
Proof. destruct (Z.ltb_spec X0 x1); lia. Qed.
Lemma target_y : y1 = Y0 + sy * dy.
Proof. destruct (Z.ltb_spec Y0 y1); lia. Qed.

Lemma at_target (i j : Z) :
  (X0 + sx * i =? x1) && (Y0 + sy * j =? y1) = true <-> i = dx /\ j = dy.
Proof.
  rewrite andb_true_iff, !Z.eqb_eq.
  destruct (Z.ltb_spec X0 x1), (Z.ltb_spec Y0 y1); lia.
Qed.

(** From the point with step counts [(i, j)] the walk either stops on a
    blocking tile or comes to the point [(i', j')] of the line. *)
Lemma los_walk_towards (i' j' : Z) :
  0 <= i' <= dx -> 0 <= j' <= dy -> i' * dy = j' * dx ->
  forall (fuel : nat) (i j : Z),
    0 <= i <= i' -> 0 <= j <= j' ->
    (Z.to_nat ((i' - i) + (j' - j)) < fuel)%nat ->
    los_walk fuel d (X0 + sx * i) (Y0 + sy * j) x1 y1 dx dy sx sy
      (err_at dx dy i j) = Done false
    \/ exists fuel', (0 < fuel')%nat
         /\ los_walk fuel d (X0 + sx * i) (Y0 + sy * j) x1 y1 dx dy sx sy
              (err_at dx dy i j)
            = los_walk fuel' d (X0 + sx * i') (Y0 + sy * j') x1 y1 dx dy sx sy
                (err_at dx dy i' j').
Proof.
  intros Hi' Hj' Hline. induction fuel as [|fuel IH]; intros i j Hi Hj Hfuel;
    [lia|].
  destruct (decide ((i, j) = (i', j'))) as [[= -> ->]|Hne].
  { right. exists (S fuel). split; [lia|done]. }
  rewrite los_walk_S.
  destruct ((X0 + sx * i =? x1) && (Y0 + sy * j =? y1)) eqn:Hat.
  { apply at_target in Hat as [-> ->]. exfalso. apply Hne. f_equal; lia. }
  assert (exists b, (if inside d (X0 + sx * i) (Y0 + sy * j) then
               v ← tile d (X0 + sx * i) (Y0 + sy * j);
               Done (negb (is_transparent v) && negb false)
             else Done false) = Done b) as [b ->].
  { destruct (inside d _ _) eqn:Hin; [|by eexists].
    destruct (tile_inside d _ _ Hwf Hin) as (v & -> & _). by eexists. }
  simpl. destruct b; [by left|].
  pose proof (step_counts dx dy i j i' j') as Hstep.
  simpl in Hstep.
  destruct Hstep as (H1 & H2 & H3); try lia; [done|].
  set (e2 := 2 * err_at dx dy i j) in *.
  set (i1 := if - dy <? e2 then i + 1 else i) in *.
  set (j1 := if e2 <? dx then j + 1 else j) in *.
  assert (forall k, (let '(err, x0) :=
             if - dy <? e2 then (err_at dx dy i j - dy, X0 + sx * i + sx)
             else (err_at dx dy i j, X0 + sx * i) in
           let '(err0, y0) :=
             if e2 <? dx then (err + dx, Y0 + sy * j + sy)
             else (err, Y0 + sy * j) in k x0 y0 err0 : outcome bool)
          = k (X0 + sx * i1) (Y0 + sy * j1) (err_at dx dy i1 j1)) as Hk.
  { intros k. subst i1 j1. unfold err_at.
    destruct (- dy <? e2), (e2 <? dx); f_equal; lia. }
  rewrite (Hk (fun x0 y0 err => los_walk fuel d x0 y0 x1 y1 dx dy sx sy err)).
  assert (i <= i1 /\ j <= j1) as [? ?].
  { subst i1 j1. destruct (- dy <? e2), (e2 <? dx); lia. }
  clearbody i1 j1. apply IH; lia.
Qed.

(** The walk ends within [dx + dy] rounds. *)
Lemma has_line_of_sight_total :
  exists b, has_line_of_sight d X0 Y0 x1 y1 = Done b.
Proof.
  unfold has_line_of_sight.
  destruct (los_walk_towards dx dy) with (fuel := S (Z.to_nat (dx + dy)))
    (i := 0) (j := 0) as [Hb|(fuel' & Hpos & Hrun)]; try lia.
  - exists false. rewrite <- Hb. f_equal; unfold err_at; lia.
  - exists true. replace (X0 + sx * 0) with X0 in Hrun by lia.
    replace (Y0 + sy * 0) with Y0 in Hrun by lia.
    replace (err_at dx dy 0 0) with (dx - dy) in Hrun by (unfold err_at; lia).
    rewrite Hrun. destruct fuel' as [|fuel']; [lia|].
    rewrite los_walk_S, <- target_x, <- target_y.
    by rewrite !Z.eqb_refl.
Qed.

(** An opaque tile on the segment, before the target, blocks the sight. *)
Lemma has_line_of_sight_blocked (wx wy : Z) (v : Tile) :
  strictly_between (X0, Y0) (wx, wy) (x1, y1) \/ ((wx, wy) = (X0, Y0) /\ (X0, Y0) <> (x1, y1)) ->
  tile_at d wx wy = Some v -> is_transparent v = false ->
  has_line_of_sight d X0 Y0 x1 y1 = Done false.
Proof.
  intros Hbetween Hv Hopaque.
  assert (exists i' j', 0 <= i' <= dx /\ 0 <= j' <= dy /\ i' * dy = j' * dx
            /\ wx = X0 + sx * i' /\ wy = Y0 + sy * j'
            /\ (i', j') <> (dx, dy)) as (i' & j' & Hi' & Hj' & Hline & -> & -> & Hne).
  { destruct Hbetween as [(Hcross & Hbx & Hby & Hno & Hnt)|[[= -> ->] Hnt]];
      simpl in *.
    - exists (Z.abs (wx - X0)), (Z.abs (wy - Y0)).
      split_and!.
      + lia.
      + lia.
      + lia.
      + lia.
      + destruct (Z.ltb_spec X0 x1), (Z.ltb_spec Y0 y1); nia.
      + destruct (Z.ltb_spec X0 x1); lia.
      + destruct (Z.ltb_spec Y0 y1); lia.
      + intros [= Hx Hy]. apply Hnt. f_equal; lia.
    - exists 0, 0. split_and!; try lia.
      intros [= Hx Hy]. apply Hnt. f_equal; lia. }
  unfold has_line_of_sight.
  destruct (los_walk_towards i' j') with (fuel := S (Z.to_nat (dx + dy)))
    (i := 0) (j := 0) as [Hb|(fuel' & Hpos & Hrun)]; try lia.
  - rewrite <- Hb. f_equal; unfold err_at; lia.
  - replace (X0 + sx * 0) with X0 in Hrun by lia.
    replace (Y0 + sy * 0) with Y0 in Hrun by lia.
    replace (err_at dx dy 0 0) with (dx - dy) in Hrun by (unfold err_at; lia).
    rewrite Hrun. destruct fuel' as [|fuel']; [lia|].
    rewrite los_walk_S.
    destruct ((X0 + sx * i' =? x1) && (Y0 + sy * j' =? y1)) eqn:Hat.
    { apply at_target in Hat as [-> ->]. done. }
    assert (inside d (X0 + sx * i') (Y0 + sy * j') = true) as ->.
    { apply tile_at_inside; [done|by eexists]. }
    rewrite (tile_Done _ _ _ _ Hv). simpl. by rewrite Hopaque.
Qed.

End walk.

(** A blocked sight is always blocked by an opaque tile inside the grid:
    cells outside the grid never block. *)
Lemma los_walk_blocked_inside (d : t) (fuel : nat)
    (x0 y0 x1 y1 dx dy sx sy err : Z) :
  los_walk fuel d x0 y0 x1 y1 dx dy sx sy err = Done false ->
  exists x y v, inside d x y = true /\ tile d x y = Done v
    /\ is_transparent v = false.
Proof.
  revert x0 y0 err. induction fuel as [|fuel IH]; intros x0 y0 err; [done|].
  rewrite los_walk_S. destruct ((x0 =? x1) && (y0 =? y1)); [done|].
  destruct (inside d x0 y0) eqn:Hin.
  - destruct (tile d x0 y0) as [v| |] eqn:Hv; simpl; try done.
    destruct (is_transparent v) eqn:Ht; simpl.
    + destruct (- dy <? 2 * err), (2 * err <? dx); apply IH.
    + intros _. by exists x0, y0, v.
  - simpl. destruct (- dy <? 2 * err), (2 * err <? dx); apply IH.
Qed.

(** The walk looks at tile kinds only. *)
Lemma los_walk_ext (d d' : t) (fuel : nat) (x0 y0 x1 y1 dx dy sx sy err : Z) :
  wf d ->
  (forall x y, inside d' x y = inside d x y) ->
  (forall x y v, tile_at d x y = Some v ->
     exists v', tile_at d' x y = Some v' /\ type v' = type v) ->
  los_walk fuel d' x0 y0 x1 y1 dx dy sx sy err
  = los_walk fuel d x0 y0 x1 y1 dx dy sx sy err.
Proof.
  intros Hwf Hin Htile. revert x0 y0 err.
  induction fuel as [|fuel IH]; intros x0 y0 err; [done|].
  rewrite !los_walk_S. destruct ((x0 =? x1) && (y0 =? y1)); [done|].
  rewrite Hin. destruct (inside d x0 y0) eqn:Hin0.
  - destruct (tile_inside d x0 y0 Hwf Hin0) as (v & Hv & Hat).
    destruct (Htile _ _ _ Hat) as (v' & Hat' & Hty).
    rewrite Hv, (tile_Done _ _ _ _ Hat'). simpl.
    unfold is_transparent. rewrite Hty.
    destruct (negb (negb (bool_decide (type v = WALL)))); simpl; [done|].
    destruct (- dy <? 2 * err), (2 * err <? dx); apply IH.
  - simpl. destruct (- dy <? 2 * err), (2 * err <? dx); apply IH.
Qed.

Lemma has_line_of_sight_ext (d d' : t) (x0 y0 x1 y1 : Z) :
  wf d ->
  (forall x y, inside d' x y = inside d x y) ->
  (forall x y v, tile_at d x y = Some v ->
     exists v', tile_at d' x y = Some v' /\ type v' = type v) ->
  has_line_of_sight d' x0 y0 x1 y1 = has_line_of_sight d x0 y0 x1 y1.
Proof. intros. unfold has_line_of_sight. by apply los_walk_ext. Qed.

End SightFacts.

(** * The visibility pass *)

Module FovFacts.
Import Dungeon GridFacts SightFacts.

Lemma reflagged_refl (d : t) : wf d -> reflagged d d.
Proof. intros Hwf. split_and!; [done..|]. intros x y v Hv. by exists v. Qed.

Lemma reflagged_inside (d d' : t) (x y : Z) :
  reflagged d d' -> inside d' x y = inside d x y.
Proof. intros (_ & Hf & _). by apply same_frame_inside. Qed.

(** Updating the flags of one tile. *)
Lemma reflagged_modify (d d' : t) (x y : Z) (f : Tile -> Tile) :
  reflagged d d' -> inside d x y = true ->
  (forall v, type (f v) = type v) ->
  (forall v, explored v = true -> explored (f v) = true) ->
  exists d'' v, modify d' x y f = Done d''
    /\ reflagged d d''
    /\ tile_at d' x y = Some v
    /\ forall x' y', tile_at d'' x' y' =
         if bool_decide ((x', y') = (x, y)) then Some (f v) else tile_at d' x' y'.
Proof.
  intros Hre Hin Hty Hex. pose proof Hre as (Hwf' & Hframe & Htiles).
  destruct (modify_spec d' x y f Hwf') as (d'' & v & Hm & Hv & Hwf'' & Hfr & _ & _ & Hat).
  { by rewrite (reflagged_inside d d'). }
  exists d'', v. split_and!; try done.
  split_and!; [done|by eapply same_frame_trans|].
  intros x' y' v0 Hv0. destruct (Htiles _ _ _ Hv0) as (v1 & Hv1 & Hty1 & Hex1).
  rewrite Hat. case_bool_decide as Heq.
  - injection Heq as -> ->. exists (f v). rewrite Hv in Hv1.
    injection Hv1 as ->. split_and!; [done|by rewrite Hty|auto].
  - by exists v1.
Qed.

(** The first loop of [compute_fov] clears every [visible] flag. *)
Lemma reset_spec (d : t) :
  wf d ->
  exists d1,
    for_each (range 0 (height d))
      (fun y => for_each (range 0 (width d))
                  (fun x d => modify d x y (set_visible false))) d = Done d1
    /\ reflagged d d1
    /\ forall x y v, tile_at d1 x y = Some v -> visible v = false.
Proof.
  intros Hwf.
  destruct (for_each_ind
    (fun seen d1 => reflagged d d1
       /\ forall x y v, y ∈ seen -> tile_at d1 x y = Some v -> visible v = false)
    (fun y => for_each (range 0 (width d))
                (fun x d => modify d x y (set_visible false)))
    (range 0 (height d)) d) as (d1 & Hrun & Hre & Hvis).
  - split; [by apply reflagged_refl|]. by intros x y v ?%elem_of_nil.
  - intros seen y0 rest d1 Hrange [Hre Hvis].
    assert (0 <= y0 < height d) as Hy0.
    { apply elem_of_range. rewrite Hrange. apply elem_of_app. right. left. }
    destruct (for_each_ind
      (fun seenx d2 => reflagged d d2
         /\ forall x y v, y ∈ seen \/ (y = y0 /\ x ∈ seenx) ->
              tile_at d2 x y = Some v -> visible v = false)
      (fun x d => modify d x y0 (set_visible false))
      (range 0 (width d)) d1) as (d2 & Hrun2 & Hre2 & Hvis2).
    + split; [done|]. intros x y v [Hy|[_ Hx%elem_of_nil]]; [|done].
      by apply Hvis.
    + intros seenx x0 restx d2 Hrangex [Hre2 Hvis2].
      assert (0 <= x0 < width d) as Hx0.
      { apply elem_of_range. rewrite Hrangex. apply elem_of_app. right. left. }
      destruct (reflagged_modify d d2 x0 y0 (set_visible false) Hre2)
        as (d3 & v & Hm & Hre3 & Hv & Hat); [by apply inside_spec|done..|].
      exists d3. split_and!; [done..|].
      intros x y v3 Hxy. rewrite Hat. case_bool_decide as Heq.
      * by intros [= <-].
      * apply Hvis2. destruct Hxy as [?|[-> Hx]]; [by left|]. right.
        split; [done|]. apply elem_of_app in Hx as [?| ->%list_elem_of_singleton];
          [done|congruence].
    + exists d2. split_and!; [done..|].
      intros x y v [Hy| ->%list_elem_of_singleton]%elem_of_app Hv.
      * apply (Hvis2 x y); [by left|done].
      * apply (Hvis2 x y0); [|done]. right. split; [done|].
        apply elem_of_range.
        assert (inside d2 x y0 = true) as Hin.
        { apply tile_at_inside; [apply Hre2|by eexists]. }
        rewrite (reflagged_inside d d2) in Hin by done.
        apply inside_spec in Hin. lia.
  - exists d1. split_and!; [done..|].
    intros x y v Hv. apply (Hvis x y); [|done].
    apply elem_of_range.
    assert (inside d1 x y = true) as Hin.
    { apply tile_at_inside; [apply Hre|by eexists]. }
    rewrite (reflagged_inside d d1) in Hin by done.
    apply inside_spec in Hin. lia.
Qed.

Lemma look_spec (d : t) (px py radius x y : Z) (st : t * gset pos) :
  wf d -> inside d x y = true -> scanned d px py st ->
  exists st', look px py radius y x st = Done st' /\ scanned d px py st'.
Proof.
  intros Hwf Hin (Hre & Hobs & Hvis & Hflags). unfold look.
  destruct (beyond_radius px py x y radius); [by exists st|].
  assert (has_line_of_sight st.1 px py x y = has_line_of_sight d px py x y)
    as ->.
  { apply has_line_of_sight_ext; [done|intros; by apply reflagged_inside|].
    intros x' y' v Hv. destruct Hre as (_ & _ & Ht).
    destruct (Ht _ _ _ Hv) as (v' & ? & ? & _). by exists v'. }
  destruct (has_line_of_sight_total d px py x y Hwf) as [los Hlos].
  run Hlos. destruct los; [|by exists st].
  destruct (reflagged_modify d st.1 x y (set_visible true) Hre)
    as (d1 & v & Hm1 & Hre1 & Hv & Hat1); [done..|].
  run Hm1.
  destruct (reflagged_modify d d1 x y (set_explored true) Hre1)
    as (d2 & v1 & Hm2 & Hre2 & Hv1 & Hat2); [done..|].
  run Hm2. eexists. split; [done|].
  rewrite Hat1, bool_decide_eq_true_2 in Hv1 by done. injection Hv1 as <-.
  split_and!; simpl; [done|set_solver| |].
  - intros p [->%elem_of_singleton|Hp]%elem_of_union; [by right|by apply Hvis].
  - intros x' y' v'. rewrite Hat2, elem_of_union, elem_of_singleton.
    case_bool_decide as Heq.
    + intros [= <-]. split; [by left|done].
    + rewrite Hat1, bool_decide_eq_false_2 by done. intros Hv'.
      destruct (Hflags _ _ _ Hv') as [H1 H2].
      split; [by auto|]. intros [?|?]; [done|by apply H2].
Qed.

(** [compute_fov] from an observer inside the grid. *)
Lemma compute_fov_spec (d : t) (px py radius : Z) :
  wf d -> inside d px py = true ->
  exists st, compute_fov d px py radius = Done st /\ scanned d px py st.
Proof.
  intros Hwf Hin. unfold compute_fov.
  destruct (reset_spec d Hwf) as (d1 & Hreset & Hre1 & Hdark).
  run Hreset.
  destruct (reflagged_modify d d1 px py (set_visible true) Hre1)
    as (d2 & v1 & Hm2 & Hre2 & Hv1 & Hat2); [done..|].
  run Hm2.
  destruct (reflagged_modify d d2 px py (set_explored true) Hre2)
    as (d3 & v2 & Hm3 & Hre3 & Hv2 & Hat3); [done..|].
  run Hm3.
  rewrite Hat2, bool_decide_eq_true_2 in Hv2 by done. injection Hv2 as <-.
  assert (scanned d px py (d3, {[(px, py)]} ∪ ∅)) as Hstart.
  { split_and!; simpl; [done|set_solver|set_solver|].
    intros x y v. rewrite Hat3. case_bool_decide as Heq.
    - intros [= <-]. split; [set_solver|done].
    - rewrite Hat2, bool_decide_eq_false_2 by done. intros Hv.
      rewrite (Hdark _ _ _ Hv). split; [done|]. set_solver. }
  destruct Hre3 as (_ & (Hw3 & Hh3 & _) & _).
  apply (for_each_inv (scanned d px py)); [done|].
  intros y st Hy%elem_of_range Hst.
  apply (for_each_inv (scanned d px py)); [done|].
  intros x st' Hx%elem_of_range Hst'.
  apply look_spec; [done| |done].
  apply inside_spec. lia.
Qed.

Lemma norm_index_out (n i : Z) :
  0 <= n -> n <= i \/ i < - n -> norm_index n i = None.
Proof.
  intros Hn Hi. unfold norm_index.
  destruct (Z.leb_spec 0 i), (Z.ltb_spec i n); simpl; try lia;
    destruct (Z.leb_spec (- n) i), (Z.ltb_spec i 0); simpl; done || lia.
Qed.

(** [compute_fov] does not clamp: an observer to the right of the grid or
    below it makes the first access to its tile raise IndexError. *)
Lemma compute_fov_outside_raises (d : t) (px py radius : Z) :
  wf d -> width d <= px \/ height d <= py ->
  compute_fov d px py radius = Raised IndexError.
Proof.
  intros Hwf Hout. unfold compute_fov.
  destruct (reset_spec d Hwf) as (d1 & Hreset & ([Hrows Hcols] & (Hw & Hh & _) & _) & _).
  run Hreset. unfold modify, tile, py_index.
  destruct (norm_index _ py) as [j|] eqn:Hj; [|done].
  destruct (grid d1 !! j) as [row|] eqn:Hrow; [|done].
  cbn [mbind outcome_bind].
  assert (length row = Z.to_nat (width d1)) as Hlen.
  { by apply (proj1 (Forall_lookup _ _) Hcols _ _ Hrow). }
  rewrite norm_index_out; [done|lia|].
  destruct Hout as [Hx|Hy]; [lia|].
  rewrite norm_index_out in Hj; [done|lia|]. lia.
Qed.

End FovFacts.

(** * Level generation *)

Module GenFacts.
Import Dungeon GridFacts.

Lemma norm_index_lt (n i : Z) (k : nat) :
  norm_index n i = Some k -> Z.of_nat k < n.
Proof.
  unfold norm_index.
  destruct (Z.leb_spec 0 i), (Z.ltb_spec i n); simpl; try (intros [= <-]; lia).
  all: destruct (Z.leb_spec (- n) i), (Z.ltb_spec i 0); simpl;
    try done; intros [= <-]; lia.
Qed.

(** A store at any index that Python accepts, negative ones included:
    one tile is replaced, nothing else changes. *)
Lemma store_any (d d' : t) (x y : Z) (v : Tile) :
  wf d -> store d x y v = Done d' ->
  wf d' /\ same_frame d d'
  /\ forall x' y', tile_at d' x' y' = tile_at d x' y'
                   \/ tile_at d' x' y' = Some v.
Proof.
  intros [Hrows Hcols]. unfold store, py_index, py_store.
  destruct (norm_index _ y) as [j|] eqn:Hj; [|done].
  destruct (grid d !! j) as [row|] eqn:Hrow; [|done]. simpl.
  destruct (norm_index _ x) as [k|] eqn:Hk; [|done]. simpl.
  intros [= <-]. apply norm_index_lt in Hj, Hk.
  split_and!; try done.
  - split; simpl; [by rewrite length_insert|].
    apply Forall_insert; [done|]. rewrite length_insert.
    by apply (proj1 (Forall_lookup _ _) Hcols _ _ Hrow).
  - intros x' y'. unfold tile_at. simpl.
    destruct ((0 <=? x') && (0 <=? y')); [|by left].
    destruct (decide (j = Z.to_nat y')) as [->|Hy'].
    + rewrite list_lookup_insert_eq by lia. simpl. rewrite Hrow. simpl.
      destruct (decide (k = Z.to_nat x')) as [->|Hx'].
      * right. apply list_lookup_insert_eq. lia.
      * left. by apply list_lookup_insert_ne.
    + left. by rewrite list_lookup_insert_ne.
Qed.

Lemma same_frame_centers (d d' : t) : same_frame d d' -> centers d' = centers d.
Proof. intros (_ & _ & Hr). unfold centers. by rewrite Hr. Qed.

Lemma grows_refl (d : t) : grows d d.
Proof. done. Qed.

Lemma grows_trans (d1 d2 d3 : t) : grows d1 d2 -> grows d2 d3 -> grows d1 d3.
Proof.
  intros (Hw1 & Hh1 & H1) (Hw2 & Hh2 & H2).
  split_and!; [congruence..|auto].
Qed.

Lemma extends_refl (d : t) : wf d -> extends d d.
Proof. done. Qed.

Lemma extends_trans (d1 d2 d3 : t) :
  extends d1 d2 -> extends d2 d3 -> extends d1 d3.
Proof.
  intros (_ & Hg1 & Hc1) (Hwf & Hg2 & Hc2).
  split_and!; [done|by eapply grows_trans|congruence].
Qed.

Lemma extends_inside (d d' : t) (x y : Z) :
  extends d d' -> inside d' x y = inside d x y.
Proof. intros (_ & (Hw & Hh & _) & _). unfold inside. by rewrite Hw, Hh. Qed.

Lemma extends_sound (d d' : t) : sound d -> extends d d' -> sound d'.
Proof.
  intros [_ Hc] Hext. split; [apply Hext|].
  intros c Hin. rewrite (extends_inside d d') by done.
  apply Hc. destruct Hext as (_ & _ & <-). done.
Qed.

Lemma connected_to_grows (d d' : t) (a b : pos) :
  grows d d' -> connected_to d a b -> connected_to d' a b.
Proof.
  intros (_ & _ & Hg) Hab. induction Hab as [|b dir _ IH Hdir Hwalk].
  - constructor.
  - constructor; auto.
Qed.

Lemma connected_to_trans (d : t) (a b c : pos) :
  connected_to d a b -> connected_to d b c -> connected_to d a c.
Proof.
  intros Hab Hbc. induction Hbc as [|c dir _ IH Hdir Hwalk]; [done|].
  by constructor.
Qed.

Lemma all_connected_extends (d d' : t) :
  all_connected d -> extends d d' -> all_connected d'.
Proof.
  intros Hall (_ & Hg & Hc) a b. rewrite Hc. intros Ha Hb.
  apply (connected_to_grows d); auto.
Qed.

(** Storing a walkable tile is a generation step. *)
Lemma store_walkable (d d' : t) (x y : Z) (v : Tile) :
  wf d -> store d x y v = Done d' -> is_walkable v = true -> extends d d'.
Proof.
  intros Hwf Hst Hv.
  destruct (store_any d d' x y v Hwf Hst) as (Hwf' & Hframe & Hat).
  split_and!; [done| |by apply same_frame_centers].
  destruct Hframe as (Hw & Hh & _). split_and!; [done..|].
  intros p (v0 & Hv0 & Hwalk). destruct (Hat p.1 p.2) as [Heq|Heq].
  - exists v0. by rewrite Heq.
  - by exists v.
Qed.

Lemma row_connected (d : t) (y lo hi a b : Z) :
  (forall x, lo <= x <= hi -> walkable d (x, y)) ->
  lo <= a <= hi -> lo <= b <= hi ->
  connected_to d (a, y) (b, y).
Proof.
  intros Hrow Ha Hb.
  assert (forall n : nat, forall c, lo <= c -> c + Z.of_nat n <= hi ->
            connected_to d (c, y) (c + Z.of_nat n, y)
            /\ connected_to d (c + Z.of_nat n, y) (c, y)) as Hn.
  { induction n as [|n IH]; intros c Hlo Hhi.
    - replace (c + Z.of_nat 0) with c by lia. split; constructor.
    - destruct (IH c) as [IH1 _]; [lia..|].
      destruct (IH (c + 1)) as [_ IH2]; [lia..|].
      replace (c + 1 + Z.of_nat n) with (c + Z.of_nat (S n)) in IH2 by lia.
      split.
      + replace (c + Z.of_nat (S n), y)
          with (Pathfinding.next (c + Z.of_nat n, y) (1, 0))
          by (unfold Pathfinding.next; simpl; f_equal; lia).
        constructor; [done|set_solver|].
        unfold Pathfinding.next. simpl. rewrite Z.add_0_r. apply Hrow. lia.
      + eapply connected_to_trans; [exact IH2|].
        replace (c, y) with (Pathfinding.next (c + 1, y) (-1, 0))
          by (unfold Pathfinding.next; simpl; f_equal; lia).
        constructor; [constructor|set_solver|].
        unfold Pathfinding.next. simpl. rewrite Z.add_0_r. apply Hrow. lia. }
  destruct (Z.le_ge_cases a b) as [Hle|Hge].
  - destruct (Hn (Z.to_nat (b - a)) a) as [Hgo _]; [lia..|].
    by replace (a + Z.of_nat (Z.to_nat (b - a))) with b in Hgo by lia.
  - destruct (Hn (Z.to_nat (a - b)) b) as [_ Hgo]; [lia..|].
    by replace (b + Z.of_nat (Z.to_nat (a - b))) with a in Hgo by lia.
Qed.

Lemma column_connected (d : t) (x lo hi a b : Z) :
  (forall y, lo <= y <= hi -> walkable d (x, y)) ->
  lo <= a <= hi -> lo <= b <= hi ->
  connected_to d (x, a) (x, b).
Proof.
  intros Hcol Ha Hb.
  assert (forall n : nat, forall c, lo <= c -> c + Z.of_nat n <= hi ->
            connected_to d (x, c) (x, c + Z.of_nat n)
            /\ connected_to d (x, c + Z.of_nat n) (x, c)) as Hn.
  { induction n as [|n IH]; intros c Hlo Hhi.
    - replace (c + Z.of_nat 0) with c by lia. split; constructor.
    - destruct (IH c) as [IH1 _]; [lia..|].
      destruct (IH (c + 1)) as [_ IH2]; [lia..|].
      replace (c + 1 + Z.of_nat n) with (c + Z.of_nat (S n)) in IH2 by lia.
      split.
      + replace (x, c + Z.of_nat (S n))
          with (Pathfinding.next (x, c + Z.of_nat n) (0, 1))
          by (unfold Pathfinding.next; simpl; f_equal; lia).
        constructor; [done|set_solver|].
        unfold Pathfinding.next. simpl. rewrite Z.add_0_r. apply Hcol. lia.
      + eapply connected_to_trans; [exact IH2|].
        replace (x, c) with (Pathfinding.next (x, c + 1) (0, -1))
          by (unfold Pathfinding.next; simpl; f_equal; lia).
        constructor; [constructor|set_solver|].
        unfold Pathfinding.next. simpl. rewrite Z.add_0_r. apply Hcol. lia. }
  destruct (Z.le_ge_cases a b) as [Hle|Hge].
  - destruct (Hn (Z.to_nat (b - a)) a) as [Hgo _]; [lia..|].
    by replace (a + Z.of_nat (Z.to_nat (b - a))) with b in Hgo by lia.
  - destruct (Hn (Z.to_nat (a - b)) b) as [_ Hgo]; [lia..|].
    by replace (b + Z.of_nat (Z.to_nat (a - b))) with a in Hgo by lia.
Qed.

(** A run of floor tiles: [cell k] is the coordinate carved at step [k]. *)
Lemma carve_spec (d : t) (cell : Z -> Z * Z) (lo hi : Z) :
  wf d ->
  (forall k, lo <= k < hi -> inside d (cell k).1 (cell k).2 = true) ->
  exists d',
    for_each (range lo hi)
      (fun k d => store d (cell k).1 (cell k).2 (new_tile FLOOR)) d = Done d'
    /\ extends d d' /\ same_frame d d'
    /\ forall k, lo <= k < hi -> walkable d' (cell k).
Proof.
  intros Hwf Hin.
  destruct (for_each_ind
    (fun seen d' => extends d d' /\ same_frame d d'
       /\ forall k, k ∈ seen -> walkable d' (cell k))
    (fun k d => store d (cell k).1 (cell k).2 (new_tile FLOOR))
    (range lo hi) d) as (d' & Hrun & Hext & Hfr & Hwalk).
  - split_and!; [done..|]. by intros k ?%elem_of_nil.
  - intros seen k rest d1 Hrange (Hext & Hfr & Hwalk).
    assert (lo <= k < hi) as Hk.
    { apply elem_of_range. rewrite Hrange. apply elem_of_app. right. left. }
    destruct (store_spec d1 (cell k).1 (cell k).2 (new_tile FLOOR))
      as (d2 & Hst & Hwf2 & Hfr2 & _ & _ & Hat); [apply Hext| |].
    { rewrite (extends_inside d d1) by done. by apply Hin. }
    assert (extends d1 d2) as Hext2.
    { eapply store_walkable; [apply Hext|done..]. }
    exists d2. split_and!; [done| | |].
    + by eapply extends_trans.
    + by eapply same_frame_trans.
    + intros k' [Hk'| ->%list_elem_of_singleton]%elem_of_app.
      * destruct Hext2 as (_ & (_ & _ & Hg) & _). by apply Hg, Hwalk.
      * exists (new_tile FLOOR). split; [|done].
        rewrite Hat. rewrite bool_decide_eq_true_2; [done|by destruct (cell k)].
  - exists d'. split_and!; [done..|].
    intros k Hk. by apply Hwalk, elem_of_range.
Qed.

Lemma create_h_tunnel_spec (d : t) (x1 x2 y : Z) :
  wf d -> inside d x1 y = true -> inside d x2 y = true ->
  exists d', create_h_tunnel d x1 x2 y = Done d'
    /\ extends d d' /\ same_frame d d'
    /\ connected_to d' (x1, y) (x2, y) /\ connected_to d' (x2, y) (x1, y).
Proof.
  intros Hwf [Hx1 Hy]%inside_spec [Hx2 _]%inside_spec.
  destruct (carve_spec d (fun x => (x, y)) (Z.min x1 x2) (Z.max x1 x2 + 1) Hwf)
    as (d' & Hrun & Hext & Hfr & Hwalk).
  { intros k Hk. apply inside_spec. simpl. lia. }
  exists d'. split_and!; [done..| |];
    apply (row_connected d' y (Z.min x1 x2) (Z.max x1 x2));
    try lia; intros x Hx; apply Hwalk; lia.
Qed.

Lemma create_v_tunnel_spec (d : t) (y1 y2 x : Z) :
  wf d -> inside d x y1 = true -> inside d x y2 = true ->
  exists d', create_v_tunnel d y1 y2 x = Done d'
    /\ extends d d' /\ same_frame d d'
    /\ connected_to d' (x, y1) (x, y2) /\ connected_to d' (x, y2) (x, y1).
Proof.
  intros Hwf [Hx Hy1]%inside_spec [_ Hy2]%inside_spec.
  destruct (carve_spec d (fun y => (x, y)) (Z.min y1 y2) (Z.max y1 y2 + 1) Hwf)
    as (d' & Hrun & Hext & Hfr & Hwalk).
  { intros k Hk. apply inside_spec. simpl. lia. }
  exists d'. split_and!; [done..| |];
    apply (column_connected d' x (Z.min y1 y2) (Z.max y1 y2));
    try lia; intros y Hy; apply Hwalk; lia.
Qed.

End GenFacts.

Module ConnectFacts.
Import Dungeon GridFacts GenFacts.

Lemma center_in_centers (d : t) (i : nat) (r : Room.t) :
  rooms d !! i = Some r -> Room.center r ∈ centers d.
Proof.
  intros Hr. unfold centers. apply list_elem_of_fmap_2.
  by eapply list_elem_of_lookup_2.
Qed.

(** Changing a field of a room that [center] does not read. *)
Lemma update_room_extends (d : t) (i : nat) (f : Room.t -> Room.t) :
  wf d -> (forall r, Room.center (f r) = Room.center r) ->
  extends d (update_room d i f).
Proof.
  intros Hwf Hf. split_and!; [done|done|].
  unfold centers, update_room. simpl.
  rewrite (list_fmap_alter _ f id).
  - by apply list_alter_id.
  - apply Forall_forall. intros r _. apply Hf.
Qed.

Lemma choice_bool_total (r : Random.t) :
  exists b r', Random.choice_bool r = Done (b, r').
Proof.
  unfold Random.choice_bool, Random.choice_index.
  destruct (Random.draw r) as [v r']. simpl. by eexists _, _.
Qed.

Lemma connect_rooms_spec (i1 i2 : nat) (s : world) (r1 r2 : Room.t) :
  sound s.1 ->
  rooms s.1 !! i1 = Some r1 -> rooms s.1 !! i2 = Some r2 ->
  exists s', connect_rooms i1 i2 s = Done s'
    /\ extends s.1 s'.1
    /\ rooms s'.1 = alter (Room.set_connected true) i2
                      (alter (Room.set_connected true) i1 (rooms s.1))
    /\ connected_to s'.1 (Room.center r1) (Room.center r2)
    /\ connected_to s'.1 (Room.center r2) (Room.center r1).
Proof.
  intros [Hwf Hcenters] Hr1 Hr2. unfold connect_rooms, room.
  rewrite Hr1, Hr2. cbn [mbind outcome_bind].
  pose proof (Hcenters _ (center_in_centers _ _ _ Hr1)) as Hin1.
  pose proof (Hcenters _ (center_in_centers _ _ _ Hr2)) as Hin2.
  destruct (Room.center r1) as [x1 y1], (Room.center r2) as [x2 y2].
  simpl in Hin1, Hin2.
  apply inside_spec in Hin1 as Hb1. apply inside_spec in Hin2 as Hb2.
  destruct (choice_bool_total s.2) as (h_first & rng & Hcoin). run Hcoin.
  assert (exists d2, (if h_first then
             d ← create_h_tunnel s.1 x1 x2 y1; create_v_tunnel d y1 y2 x2
           else
             d ← create_v_tunnel s.1 y1 y2 x1; create_h_tunnel d x1 x2 y2)
          = Done d2
          /\ extends s.1 d2 /\ same_frame s.1 d2
          /\ connected_to d2 (x1, y1) (x2, y2)
          /\ connected_to d2 (x2, y2) (x1, y1)) as (d2 & -> & Hext & Hfr & Hgo & Hback).
  { destruct h_first.
    - destruct (create_h_tunnel_spec s.1 x1 x2 y1 Hwf)
        as (d1 & Hh & Hext1 & Hfr1 & Hgo1 & Hback1);
        [apply inside_spec; lia..|].
      run Hh.
      destruct (create_v_tunnel_spec d1 y1 y2 x2)
        as (d2 & Hv & Hext2 & Hfr2 & Hgo2 & Hback2);
        [apply Hext1|rewrite (extends_inside s.1 d1) by done; apply inside_spec;
         lia..|].
      exists d2. split_and!; [done| | | |].
      + by eapply extends_trans.
      + by eapply same_frame_trans.
      + eapply connected_to_trans; [|exact Hgo2].
        eapply connected_to_grows; [apply Hext2|done].
      + eapply connected_to_trans; [exact Hback2|].
        eapply connected_to_grows; [apply Hext2|done].
    - destruct (create_v_tunnel_spec s.1 y1 y2 x1 Hwf)
        as (d1 & Hv & Hext1 & Hfr1 & Hgo1 & Hback1);
        [apply inside_spec; lia..|].
      run Hv.
      destruct (create_h_tunnel_spec d1 x1 x2 y2)
        as (d2 & Hh & Hext2 & Hfr2 & Hgo2 & Hback2);
        [apply Hext1|rewrite (extends_inside s.1 d1) by done; apply inside_spec;
         lia..|].
      exists d2. split_and!; [done| | | |].
      + by eapply extends_trans.
      + by eapply same_frame_trans.
      + eapply connected_to_trans; [|exact Hgo2].
        eapply connected_to_grows; [apply Hext2|done].
      + eapply connected_to_trans; [exact Hback2|].
        eapply connected_to_grows; [apply Hext2|done]. }
  cbn [mbind outcome_bind]. eexists. split; [done|]. simpl.
  assert (extends d2 (update_room (update_room d2 i1 (Room.set_connected true))
                        i2 (Room.set_connected true))) as Hext3.
  { eapply extends_trans; apply update_room_extends; try done; apply Hext. }
  split_and!.
  - by eapply extends_trans.
  - destruct Hfr as (_ & _ & ->). done.
  - eapply connected_to_grows; [apply Hext3|done].
  - eapply connected_to_grows; [apply Hext3|done].
Qed.

(** What a completed [connect_rooms] has done. *)
Lemma connect_rooms_Done (i1 i2 : nat) (s s' : world) :
  sound s.1 -> connect_rooms i1 i2 s = Done s' ->
  exists r1 r2, rooms s.1 !! i1 = Some r1 /\ rooms s.1 !! i2 = Some r2
    /\ extends s.1 s'.1
    /\ rooms s'.1 = alter (Room.set_connected true) i2
                      (alter (Room.set_connected true) i1 (rooms s.1))
    /\ connected_to s'.1 (Room.center r1) (Room.center r2)
    /\ connected_to s'.1 (Room.center r2) (Room.center r1).
Proof.
  intros Hsound Hrun.
  destruct (rooms s.1 !! i1) as [r1|] eqn:Hr1.
  2:{ unfold connect_rooms, room in Hrun. by rewrite Hr1 in Hrun. }
  destruct (rooms s.1 !! i2) as [r2|] eqn:Hr2.
  2:{ unfold connect_rooms, room in Hrun. by rewrite Hr1, Hr2 in Hrun. }
  destruct (connect_rooms_spec i1 i2 s r1 r2 Hsound Hr1 Hr2) as (s'' & Hrun' & ?).
  assert (s'' = s') as -> by congruence.
  by exists r1, r2.
Qed.

Lemma elem_of_indexed_rooms (d : t) (c : bool) (i : nat) (r : Room.t) :
  (i, r) ∈ indexed_rooms d c <-> rooms d !! i = Some r /\ Room.connected r = c.
Proof.
  unfold indexed_rooms. rewrite list_elem_of_filter, elem_of_lookup_imap. simpl.
  split.
  - intros [Hc (j & r' & [= -> ->] & Hr)]. done.
  - intros [Hr Hc]. split; [done|]. by exists i, r.
Qed.

Lemma closest_pair_spec (cs us : list (nat * Room.t))
    (dist : Z) (c u : nat) :
  closest_pair cs us = Some (dist, (c, u)) ->
  (exists rc, (c, rc) ∈ cs) /\ (exists ru, (u, ru) ∈ us).
Proof.
  unfold closest_pair.
  set (P := fun best : option (Z * (nat * nat)) =>
         forall dist c u, best = Some (dist, (c, u)) ->
           (exists rc, (c, rc) ∈ cs) /\ (exists ru, (u, ru) ∈ us)).
  assert (forall cs' best, (forall x, x ∈ cs' -> x ∈ cs) -> P best ->
    P (foldl (fun best c =>
         foldl (fun best u =>
           let distance := distance2 c.2 u.2 in
           match best with
           | Some (min_distance, _) =>
               if distance <? min_distance then Some (distance, (c.1, u.1))
               else best
           | None => Some (distance, (c.1, u.1))
           end) best us) best cs')) as Houter.
  { induction cs' as [|x cs' IH]; intros best Hsub Hbest; [done|].
    simpl. apply IH; [intros; apply Hsub; by right|].
    assert (x ∈ cs) as Hx by (apply Hsub; left).
    assert (forall us' best, (forall y, y ∈ us' -> y ∈ us) -> P best ->
      P (foldl (fun best u =>
           let distance := distance2 x.2 u.2 in
           match best with
           | Some (min_distance, _) =>
               if distance <? min_distance then Some (distance, (x.1, u.1))
               else best
           | None => Some (distance, (x.1, u.1))
           end) best us')) as Hinner.
    { induction us' as [|y us' IH']; intros best' Hsub' Hbest'; [done|].
      simpl. apply IH'; [intros; apply Hsub'; by right|].
      assert (y ∈ us) as Hy by (apply Hsub'; left).
      assert (P (Some (distance2 x.2 y.2, (x.1, y.1)))) as Hnew.
      { intros ? ? ? [= <- <- <-]. destruct x, y. split; by eexists. }
      destruct best' as [[m p]|]; [|done].
      by destruct (distance2 x.2 y.2 <? m). }
    by apply Hinner. }
  intros Hres. by eapply (Houter cs None); [| |exact Hres].
Qed.

(** One round of the repair loop connects a flagged room to another
    room. *)
Lemma connect_flagged (c u : nat) (rc ru : Room.t) (s s' : world) (c0 : pos) :
  sound s.1 -> flagged_connected s.1 c0 -> first_flagged s.1 c0 ->
  rooms s.1 !! c = Some rc -> Room.connected rc = true ->
  rooms s.1 !! u = Some ru ->
  connect_rooms c u s = Done s' ->
  extends s.1 s'.1 /\ flagged_connected s'.1 c0 /\ first_flagged s'.1 c0.
Proof.
  intros Hsound Hflag Hfirst Hrc Hcon Hru Hrun.
  destruct (connect_rooms_Done c u s s' Hsound Hrun)
    as (rc' & ru' & Hrc' & Hru' & Hext & Hrooms & Hgo & Hback).
  assert (rc' = rc) as -> by congruence.
  assert (ru' = ru) as -> by congruence.
  assert (forall k r', rooms s'.1 !! k = Some r' ->
            exists r, rooms s.1 !! k = Some r
              /\ Room.center r' = Room.center r
              /\ (Room.connected r' = true ->
                  Room.connected r = true \/ k = c \/ k = u)) as Hlook.
  { intros k r'. rewrite Hrooms, !list_lookup_alter.
    repeat case_decide; subst; rewrite ?Hrc, ?Hru; simpl;
      try (intros [= <-]; eexists; split_and!; [done|done|by auto]).
    intros Hk. exists r'. by auto. }
  destruct (Hflag rc) as [Hc1 Hc2]; [by eapply list_elem_of_lookup_2|done|].
  pose proof Hext as (_ & Hgrow & _).
  split_and!; [done| |].
  - intros r' [k Hk]%list_elem_of_lookup Hcon'.
    destruct (Hlook k r' Hk) as (r & Hr & -> & Hwhy).
    destruct (Hwhy Hcon') as [Hold|[->| ->]].
    + destruct (Hflag r) as [H1 H2]; [by eapply list_elem_of_lookup_2|done|].
      split; by eapply connected_to_grows.
    + assert (r = rc) as -> by congruence.
      split; by eapply connected_to_grows.
    + assert (r = ru) as -> by congruence. split.
      * eapply connected_to_trans; [|exact Hgo]. by eapply connected_to_grows.
      * eapply connected_to_trans; [exact Hback|]. by eapply connected_to_grows.
  - intros r' Hr'. destruct (Hlook 0%nat r' Hr') as (r & Hr & -> & _).
    destruct (Hfirst r Hr) as [_ <-]. split; [|done].
    revert Hr'. rewrite Hrooms, !list_lookup_alter.
    repeat case_decide; subst; rewrite ?Hrc, ?Hru, ?Hr; simpl;
      try by intros [= <-].
    intros ?. assert (r' = r) as -> by congruence. by apply Hfirst.
Qed.

Lemma connect_all_spec (fuel : nat) (s s' : world) (c0 : pos) :
  connect_all fuel s = Done s' ->
  sound s.1 -> flagged_connected s.1 c0 -> first_flagged s.1 c0 ->
  extends s.1 s'.1
  /\ forall c, c ∈ centers s'.1 ->
       connected_to s'.1 c0 c /\ connected_to s'.1 c c0.
Proof.
  revert s. induction fuel as [|fuel IH]; intros s Hrun Hsound Hflag Hfirst;
    [done|].
  simpl in Hrun.
  assert (Forall (fun r => Room.connected r = true) (rooms s.1) ->
          s' = s ->
          extends s.1 s'.1
          /\ forall c, c ∈ centers s'.1 ->
               connected_to s'.1 c0 c /\ connected_to s'.1 c c0) as Hexit.
  { intros Hall ->. split; [apply extends_refl, Hsound|].
    intros c (r & -> & Hr)%list_elem_of_fmap. apply Hflag; [done|].
    by apply (proj1 (Forall_forall _ _) Hall). }
  destruct (forallb Room.connected (rooms s.1)) eqn:Hall.
  { apply Hexit; [|congruence].
    apply Forall_forall. intros r Hr.
    apply (proj1 (forallb_forall _ _) Hall). by apply list_elem_of_In. }
  case_bool_decide as Hnoc.
  { apply Hexit; [|congruence]. apply Forall_forall.
    intros r [k Hk]%list_elem_of_lookup. exfalso.
    destruct (rooms s.1 !! 0%nat) as [r0|] eqn:Hr0.
    - destruct (Hfirst r0 Hr0) as [Hcon _].
      assert ((0%nat, r0) ∈ indexed_rooms s.1 true) as Hin
        by by apply elem_of_indexed_rooms.
      rewrite Hnoc in Hin. by apply elem_of_nil in Hin.
    - apply lookup_ge_None in Hr0. apply lookup_lt_Some in Hk. lia. }
  case_bool_decide as Hnou.
  { apply Hexit; [|congruence]. apply Forall_forall.
    intros r [k Hk]%list_elem_of_lookup.
    destruct (Room.connected r) eqn:Hcon; [done|]. exfalso.
    assert ((k, r) ∈ indexed_rooms s.1 false) as Hin
      by by apply elem_of_indexed_rooms.
    rewrite Hnou in Hin. by apply elem_of_nil in Hin. }
  apply bind_Done in Hrun as (s1 & Hstep & Hrest).
  assert (exists c u rc ru rng,
            (c, rc) ∈ indexed_rooms s.1 true
            /\ (u, ru) ∈ indexed_rooms s.1 false
            /\ connect_rooms c u (s.1, rng) = Done s1)
    as (c & u & rc & ru & rng & Hc & Hu & Hconn).
  { destruct (closest_pair _ _) as [[dist [c u]]|] eqn:Hpair.
    - destruct (closest_pair_spec _ _ _ _ _ Hpair) as [[rc Hc] [ru Hu]].
      exists c, u, rc, ru, s.2. by destruct s.
    - apply bind_Done in Hstep as ([kc r1] & _ & Hstep).
      apply bind_Done in Hstep as ([ku r2] & _ & Hstep).
      apply bind_Done in Hstep as ([c rc] & Hc & Hstep).
      apply bind_Done in Hstep as ([u ru] & Hu & Hstep).
      exists c, u, rc, ru, r2. split_and!; [| |done].
      + apply py_index_nonneg_inv in Hc; [|lia].
        by eapply list_elem_of_lookup_2.
      + apply py_index_nonneg_inv in Hu; [|lia].
        by eapply list_elem_of_lookup_2. }
  apply elem_of_indexed_rooms in Hc as [Hrc Hcon].
  apply elem_of_indexed_rooms in Hu as [Hru _].
  destruct (connect_flagged c u rc ru (s.1, rng) s1 c0)
    as (Hext1 & Hflag1 & Hfirst1); try done.
  destruct (IH s1 Hrest) as [Hext2 Hall2]; try done.
  { by eapply extends_sound. }
  split; [by eapply extends_trans|done].
Qed.

End ConnectFacts.

Module GenerateFacts.
Import Dungeon GridFacts GenFacts ConnectFacts.

Lemma same_grid_extends (d d' : t) :
  wf d -> grid d' = grid d -> width d' = width d -> height d' = height d ->
  centers d' = centers d -> extends d d'.
Proof.
  intros [Hrows Hcols] Hg Hw Hh Hc. split; [|split; [|done]].
  - split; by rewrite Hg, ?Hw, ?Hh.
  - split_and!; [done..|]. intros p. unfold walkable, tile_at. by rewrite Hg.
Qed.

Lemma ensure_connectivity_spec (s s' : world) :
  ensure_connectivity s = Done s' -> sound s.1 ->
  extends s.1 s'.1 /\ all_connected s'.1.
Proof.
  intros Hrun Hsound. unfold ensure_connectivity in Hrun.
  set (d0 := update_room
               (with_rooms s.1 (Room.set_connected false <$> rooms s.1))
               0 (Room.set_connected true)) in *.
  set (c0 := match rooms s.1 with r :: _ => Room.center r | [] => (0, 0) end).
  assert (extends s.1 d0) as Hext0.
  { eapply extends_trans; [|apply update_room_extends; [apply Hsound|done]].
    apply same_grid_extends; try done; [apply Hsound|].
    unfold centers. simpl. rewrite <- list_fmap_compose.
    by apply list_fmap_ext. }
  assert (forall k r, rooms d0 !! k = Some r ->
            (k = 0%nat /\ Room.center r = c0 /\ Room.connected r = true)
            \/ Room.connected r = false) as Hlook.
  { intros k r. unfold d0. simpl. rewrite list_lookup_alter, !list_lookup_fmap.
    case_decide as Hk.
    - subst k. unfold c0. destruct (rooms s.1) as [|r0 rs]; simpl; [done|].
      intros [= <-]. by left.
    - destruct (rooms s.1 !! k); simpl; [|done]. intros [= <-]. by right. }
  apply bind_Done in Hrun as (s1 & Hall & Hextra).
  destruct (connect_all_spec _ _ _ c0 Hall) as [Hext1 Hlinked].
  { by eapply extends_sound. }
  { intros r [k Hk]%list_elem_of_lookup Hcon.
    destruct (Hlook k r Hk) as [(_ & -> & _)|?]; [|congruence].
    split; constructor. }
  { intros r Hr. destruct (Hlook _ r Hr) as [(_ & ? & ?)|Hoff]; [done|].
    exfalso. revert Hr Hoff. unfold d0. simpl.
    rewrite list_lookup_alter_eq, list_lookup_fmap.
    destruct (rooms s.1 !! 0%nat); simpl; [|done]. by intros [= <-]. }
  assert (sound s1.1) as Hsound1.
  { eapply extends_sound; [|exact Hext1]. by eapply extends_sound. }
  assert (all_connected s1.1) as Hall1.
  { intros a b Ha Hb. eapply connected_to_trans; [apply Hlinked|apply Hlinked];
      done. }
  assert (extends s1.1 s'.1) as Hext2.
  { apply (for_each_post (fun st : world => extends s1.1 st.1) _ _ _ _ Hextra).
    - apply extends_refl, Hsound1.
    - intros _ st st' _ Hst Hbody.
      apply bind_Done in Hbody as ([i1 r1] & _ & Hbody).
      apply bind_Done in Hbody as ([i2 r2] & _ & Hbody).
      case_bool_decide.
      + destruct (connect_rooms_Done i1 i2 (st.1, r2) st') as (? & ? & _ & _ & Hext & _);
          [by eapply extends_sound|done|].
        by eapply extends_trans.
      + by injection Hbody as <-. }
  split.
  - eapply extends_trans; [exact Hext0|]. by eapply extends_trans.
  - by eapply all_connected_extends.
Qed.

Lemma randint_Done (a b v : Z) (r r' : Random.t) :
  Random.randint a b r = Done (v, r') -> a <= v <= b.
Proof.
  unfold Random.randint. destruct (Z.leb_spec a b); [|done].
  destruct (Random.draw r) as [n r'']. intros [= <- _].
  pose proof (Z.mod_pos_bound (Z.of_N n) (b - a + 1)). lia.
Qed.

Lemma add_room_Done (d d' : t) (new : Room.t) :
  add_room d new = Done d' -> wf d ->
  wf d' /\ width d' = width d /\ height d' = height d
  /\ rooms d' = rooms d ++ [new].
Proof.
  intros Hrun Hwf. unfold add_room in Hrun.
  apply bind_Done in Hrun as (d1 & Hcarve & [= <-]).
  assert (wf d1 /\ same_frame d d1) as [Hwf1 (Hw & Hh & Hr)].
  { apply (for_each_post (fun d1 => wf d1 /\ same_frame d d1) _ _ _ _ Hcarve);
      [done|].
    intros y d2 d3 _ Hd2 Hrow.
    apply (for_each_post (fun d1 => wf d1 /\ same_frame d d1) _ _ _ _ Hrow);
      [done|].
    intros x d4 d5 _ [Hwf4 Hfr4] Hst.
    destruct (store_any _ _ _ _ _ Hwf4 Hst) as (? & ? & _).
    split; [done|by eapply same_frame_trans]. }
  split_and!; simpl; [done..|by rewrite Hr].
Qed.

Lemma place_rooms_spec (attempts : nat)
    (max_rooms room_min_size room_max_size rooms_created : Z) (s s' : world) :
  place_rooms attempts max_rooms room_min_size room_max_size rooms_created s
    = Done s' ->
  0 <= room_min_size -> sound s.1 ->
  sound s'.1 /\ width s'.1 = width s.1 /\ height s'.1 = height s.1.
Proof.
  intros Hrun Hmin. revert rooms_created s Hrun.
  induction attempts as [|n IH]; intros created s Hrun Hsound.
  { by injection Hrun as <-. }
  simpl in Hrun. destruct (max_rooms <=? created); [by injection Hrun as <-|].
  apply bind_Done in Hrun as ([w r1] & Hw & Hrun).
  apply bind_Done in Hrun as ([h r2] & Hh & Hrun).
  apply bind_Done in Hrun as ([x r3] & Hx & Hrun).
  apply bind_Done in Hrun as ([y r4] & Hy & Hrun).
  apply randint_Done in Hw, Hh, Hx, Hy.
  destruct (existsb _ _).
  { exact (IH _ (s.1, r4) Hrun Hsound). }
  apply bind_Done in Hrun as (d1 & Hadd & Hrun).
  apply bind_Done in Hrun as (s1 & Hconn & Hrun).
  destruct (add_room_Done _ _ _ Hadd) as (Hwf1 & Hw1 & Hh1 & Hrooms1);
    [apply Hsound|].
  assert (sound d1) as Hsound1.
  { split; [done|]. intros c. unfold centers. rewrite Hrooms1, fmap_app.
    intros [Hc| ->%list_elem_of_singleton]%elem_of_app.
    - unfold inside. rewrite Hw1, Hh1. by apply Hsound.
    - apply inside_spec. rewrite Hw1, Hh1. unfold Room.center. simpl.
      pose proof (Z.div_pos w 2). pose proof (Z.div_pos h 2).
      assert (w `div` 2 <= w) by (apply Z.div_le_upper_bound; lia).
      assert (h `div` 2 <= h) by (apply Z.div_le_upper_bound; lia).
      lia. }
  assert (sound s1.1 /\ width s1.1 = width d1 /\ height s1.1 = height d1)
    as (Hsound2 & Hw2 & Hh2).
  { destruct (1 <? length (rooms d1))%nat.
    - apply bind_Done in Hconn as ([prev r5] & _ & Hconn).
      destruct (connect_rooms_Done (length (rooms d1) - 1) prev (d1, r5) s1)
        as (? & ? & _ & _ & Hext & _); [done..|].
      split; [by eapply extends_sound|].
      destruct Hext as (_ & (? & ? & _) & _). done.
    - by injection Hconn as <-. }
  destruct (IH _ s1 Hrun Hsound2) as (? & ? & ?).
  split_and!; [done|congruence..].
Qed.

Lemma add_doors_spec (s s' : world) :
  add_doors s = Done s' -> wf s.1 -> extends s.1 s'.1.
Proof.
  intros Hrun Hwf. unfold add_doors in Hrun.
  apply (for_each_post (fun st : world => extends s.1 st.1) _ _ _ _ Hrun);
    [by apply extends_refl|].
  intros y st1 st2 _ Hst1 Hrow.
  apply (for_each_post (fun st : world => extends s.1 st.1) _ _ _ _ Hrow);
    [done|].
  intros x st st' _ Hst Hbody.
  apply bind_Done in Hbody as (v & _ & Hbody).
  case_bool_decide; [|by injection Hbody as <-].
  apply bind_Done in Hbody as (walls & _ & Hbody).
  destruct (walls =? 2); [|by injection Hbody as <-].
  destruct (Random.random_lt 2 10 st.2) as [lucky r].
  destruct lucky; [|by injection Hbody as <-].
  apply bind_Done in Hbody as (diag & _ & Hbody).
  destruct (2 <=? diag); [|by injection Hbody as <-].
  apply bind_Done in Hbody as (d1 & Hstore & [= <-]).
  eapply extends_trans; [exact Hst|].
  eapply store_walkable; [apply Hst|done..].
Qed.

Lemma add_floor_variants_spec (s s' : world) :
  add_floor_variants s = Done s' -> wf s.1 -> extends s.1 s'.1.
Proof.
  intros Hrun Hwf. unfold add_floor_variants in Hrun.
  apply (for_each_post (fun st : world => extends s.1 st.1) _ _ _ _ Hrun);
    [by apply extends_refl|].
  intros y st1 st2 _ Hst1 Hrow.
  apply (for_each_post (fun st : world => extends s.1 st.1) _ _ _ _ Hrow);
    [done|].
  intros x st st' _ Hst Hbody.
  apply bind_Done in Hbody as (v & Hv & Hbody).
  case_bool_decide as Hfloor; [|by injection Hbody as <-].
  destruct (Random.random_lt 1 10 st.2) as [lucky r].
  destruct lucky; [|by injection Hbody as <-].
  apply bind_Done in Hbody as ([k r'] & _ & Hbody).
  apply bind_Done in Hbody as (d1 & Hmod & [= <-]).
  unfold modify in Hmod. rewrite Hv in Hmod. cbn [mbind outcome_bind] in Hmod.
  eapply extends_trans; [exact Hst|].
  eapply store_walkable; [apply Hst|done|].
  unfold is_walkable. simpl. by rewrite Hfloor.
Qed.

(** [generate], when it returns, returns a floor with at least five
    rooms whose centres are all connected. *)
Lemma generate_spec (fuel : nat) (max_rooms room_min_size room_max_size : Z)
    (s s' : world) :
  generate fuel max_rooms room_min_size room_max_size s = Done s' ->
  0 <= room_min_size ->
  (forall c, c ∈ centers s.1 -> inside s.1 c.1 c.2 = true) ->
  sound s'.1 /\ all_connected s'.1 /\ (5 <= length (rooms s'.1))%nat.
Proof.
  intros Hrun Hmin. revert s Hrun.
  induction fuel as [|fuel IH]; intros s Hrun Hcenters; [done|].
  simpl in Hrun.
  apply bind_Done in Hrun as (s1 & Hplace & Hrun).
  destruct (place_rooms_spec _ _ _ _ _ _ _ Hplace Hmin) as (Hsound1 & _ & _).
  { split; [|done]. split; simpl.
    - by rewrite length_replicate.
    - apply Forall_replicate. by rewrite length_replicate. }
  destruct (length (rooms s1.1) <? 5)%nat eqn:Hfew.
  { apply (IH s1 Hrun). apply Hsound1. }
  apply Nat.ltb_ge in Hfew.
  apply bind_Done in Hrun as (s2 & Hens & Hrun).
  destruct (ensure_connectivity_spec _ _ Hens Hsound1) as [Hext2 Hall2].
  apply bind_Done in Hrun as (d3 & Hentrance & Hrun).
  apply bind_Done in Hrun as (d4 & Hexit & Hrun).
  apply bind_Done in Hrun as (s5 & Hdoors & Hrun).
  apply bind_Done in Hrun as (s6 & Hvariants & [= <-]).
  assert (wf s2.1) as Hwf2 by apply Hext2.
  assert (extends s2.1 d3) as Hext3.
  { destruct (rooms s2.1) as [|first rest] eqn:Hrooms;
      injection Hentrance as <-; [by apply extends_refl|].
    apply same_grid_extends; try done.
    unfold centers, update_room. simpl. by rewrite Hrooms. }
  assert (wf d3) as Hwf3 by apply Hext3.
  assert (extends d3 d4) as Hext4.
  { destruct (1 <? length (rooms d3))%nat;
      [|injection Hexit as <-; by apply extends_refl].
    apply bind_Done in Hexit as (last_room & _ & Hexit).
    destruct (Room.center last_room) as [x y].
    apply bind_Done in Hexit as (d' & Hstore & [= <-]).
    set (d3' := update_room d3 _ _) in *.
    assert (extends d3 d3') as Hup by by apply update_room_extends.
    eapply extends_trans; [exact Hup|].
    assert (extends d3' d') as Hst.
    { eapply store_walkable; [apply Hup|done..]. }
    eapply extends_trans; [exact Hst|].
    apply same_grid_extends; try done. apply Hst. }
  assert (extends d4 s5.1) as Hext5.
  { apply (add_doors_spec (d4, s2.2)); [done|apply Hext4]. }
  assert (extends s5.1 s6.1) as Hext6.
  { apply add_floor_variants_spec; [done|apply Hext5]. }
  assert (extends s2.1 s6.1) as Hext.
  { repeat (eapply extends_trans; [eassumption|]). apply extends_refl, Hext6. }
  split_and!.
  - eapply extends_sound; [|exact Hext]. by eapply extends_sound.
  - by eapply all_connected_extends.
  - assert (length (centers s6.1) = length (centers s1.1)) as Hlen.
    { destruct Hext as (_ & _ & ->). by destruct Hext2 as (_ & _ & ->). }
    unfold centers in Hlen. rewrite !length_fmap in Hlen. lia.
Qed.

End GenerateFacts.

(** * The walkability mask of a floor *)

Module MaskFacts.
Import Dungeon GridFacts GenFacts.

Lemma mask_width (d : t) :
  wf d -> grid d <> [] ->
  Pathfinding.grid_width (walkable_mask d) = Z.of_nat (Z.to_nat (width d)).
Proof.
  intros [_ Hcols] Hne. unfold walkable_mask.
  destruct (grid d) as [|row g]; [done|]. simpl.
  rewrite length_fmap. f_equal. by apply (Forall_inv Hcols).
Qed.

Lemma mask_rectangular (d : t) :
  wf d -> Pathfinding.rectangular (walkable_mask d).
Proof.
  intros Hwf. unfold Pathfinding.rectangular.
  destruct (decide (grid d = [])) as [Hnil|Hne].
  { unfold walkable_mask. rewrite Hnil. constructor. }
  rewrite (mask_width d Hwf Hne). destruct Hwf as [_ Hcols].
  unfold walkable_mask. apply Forall_fmap.
  eapply Forall_impl; [exact Hcols|]. intros row Hrow. simpl.
  by rewrite length_fmap, Hrow.
Qed.

Lemma mask_in_bounds (d : t) (p : pos) :
  wf d ->
  Pathfinding.in_bounds (Pathfinding.grid_width (walkable_mask d))
    (Pathfinding.grid_height (walkable_mask d)) p = inside d p.1 p.2.
Proof.
  intros Hwf. pose proof Hwf as [Hrows _].
  unfold Pathfinding.in_bounds, inside, Pathfinding.grid_height.
  unfold walkable_mask at 2. rewrite length_fmap, Hrows.
  destruct (decide (grid d = [])) as [Hnil|Hne].
  - rewrite Hnil in Hrows. simpl in Hrows.
    destruct (Z.leb_spec 0 p.2), (Z.ltb_spec p.2 (Z.of_nat (Z.to_nat (height d)))),
      (Z.ltb_spec p.2 (height d)); rewrite ?andb_false_r; try done; lia.
  - rewrite (mask_width d Hwf Hne).
    destruct (Z.leb_spec 0 p.1), (Z.leb_spec 0 p.2),
      (Z.ltb_spec p.1 (Z.of_nat (Z.to_nat (width d)))),
      (Z.ltb_spec p.1 (width d)),
      (Z.ltb_spec p.2 (Z.of_nat (Z.to_nat (height d)))),
      (Z.ltb_spec p.2 (height d)); simpl; try done; lia.
Qed.

Lemma mask_cell (d : t) (p : pos) (v : Tile) :
  tile_at d p.1 p.2 = Some v ->
  Pathfinding.cell (walkable_mask d) p = Done (is_walkable v).
Proof.
  intros (Hx & Hy & row & Hrow & Hv)%tile_at_Some. unfold Pathfinding.cell.
  rewrite (py_index_nonneg _ _ (is_walkable <$> row)); [|done|].
  2:{ unfold walkable_mask. by rewrite list_lookup_fmap, Hrow. }
  cbn [mbind outcome_bind]. apply py_index_nonneg; [done|].
  by rewrite list_lookup_fmap, Hv.
Qed.

Lemma mask_reach (d : t) (a b : pos) :
  wf d -> connected_to d a b ->
  Pathfinding.reach (walkable_mask d)
    (Pathfinding.grid_width (walkable_mask d))
    (Pathfinding.grid_height (walkable_mask d)) a b.
Proof.
  intros Hwf Hab. induction Hab as [|b dir _ IH Hdir (v & Hv & Hwalk)].
  - constructor.
  - constructor; [done..| |].
    + rewrite mask_in_bounds by done. apply tile_at_inside; [done|by eexists].
    + by rewrite (mask_cell _ _ _ Hv), Hwalk.
Qed.

End MaskFacts.

(** * The restart of [generate] *)

Module RestartFacts.
Import Dungeon GridFacts GenFacts.

Lemma randint_total (a b : Z) (r : Random.t) :
  a <= b ->
  exists v r', Random.randint a b r = Done (v, r') /\ a <= v <= b.
Proof.
  intros Hab. unfold Random.randint.
  destruct (Z.leb_spec a b); [|lia].
  destruct (Random.draw r) as [n r']. eexists _, _. split; [done|].
  pose proof (Z.mod_pos_bound (Z.of_N n) (b - a + 1)). lia.
Qed.






End RestartFacts.

(** * What the searches look at *)

Module TraceFacts.
Import Pathfinding PathfindingFacts.

Section trace.
Context (grid : list (list bool)) (w h : Z) (goal : pos).
Hypothesis Hh : Z.of_nat (length grid) = h.
Hypothesis Hw : 0 <= w.
Hypothesis Hrect : Forall (fun row => Z.of_nat (length row) = w) grid.

(** [f_score] and [g_score] are written together. *)
Lemma visit_scores (current : pos) (d : Z * Z) (st st' : state) :
  visit grid w h goal current d st = Done st' ->
  (forall p, is_Some (f_score st !! p) <-> is_Some (g_score st !! p)) ->
  forall p, is_Some (f_score st' !! p) <-> is_Some (g_score st' !! p).
Proof.
  unfold visit. intros Hrun Hst.
  destruct (negb (in_bounds w h _)); [by injection Hrun as <-|].
  apply bind_Done in Hrun as (walkable & _ & Hrun).
  destruct (negb walkable || _); [by injection Hrun as <-|].
  apply bind_Done in Hrun as (gc & _ & Hrun).
  destruct (match g_score st !! _ with Some _ => _ | None => _ end);
    [|by injection Hrun as <-].
  injection Hrun as <-. simpl. intros p.
  rewrite !lookup_insert_is_Some. by rewrite Hst.
Qed.

(** Every state of the loop satisfies its invariant. *)
Lemma search_states_inv (fuel : nat) (st st' : state) :
  inv w h goal st ->
  (forall p, is_Some (f_score st !! p) <-> is_Some (g_score st !! p)) ->
  st' ∈ search_states fuel grid w h goal st ->
  inv w h goal st'
  /\ (forall p, is_Some (f_score st' !! p) <-> is_Some (g_score st' !! p)).
Proof.
  revert st. induction fuel as [|fuel IH]; intros st Hinv Hsc Hin.
  { by apply elem_of_nil in Hin. }
  cbn [search_states] in Hin. apply elem_of_cons in Hin as [->|Hin]; [done|].
  destruct (open_set st) as [|[f current] rest] eqn:Hopen; cbn [heappop] in Hin.
  { by apply elem_of_nil in Hin. }
  case_bool_decide as Hgoal; [by apply elem_of_nil in Hin|].
  destruct (popped_inv grid w h goal Hh Hw Hrect st f current rest Hinv Hopen
              Hgoal)
    as (Hinv1 & _ & Hg1).
  destruct (expand_spec grid w h goal Hh Hrect current
              (popped st current rest) Hinv1)
    as (st2 & Hrun & Hinv2 & _); [simpl; set_solver|done|].
  rewrite Hrun in Hin. apply (IH st2); [done| |done].
  apply (for_each_post
    (fun s => forall p, is_Some (f_score s !! p) <-> is_Some (g_score s !! p))
    _ _ _ _ Hrun); [done|].
  intros d s s' _ Hs Hv. by apply (visit_scores current d s).
Qed.

(** A path that [search] returns is read off the last state of the
    loop, which has the goal at the head of its queue. *)
Lemma search_last (fuel : nat) (st : state) (path : list pos) :
  search fuel grid w h goal st = Done path -> path <> [] ->
  exists st', last (search_states fuel grid w h goal st) = Some st'
    /\ head (nodes st') = Some goal
    /\ walk_back (S (Z.to_nat (w * h))) (came_from st') goal = Done path.
Proof.
  revert st. induction fuel as [|fuel IH]; intros st Hrun Hne; [done|].
  rewrite search_S in Hrun. cbn [search_states].
  destruct (open_set st) as [|[f current] rest] eqn:Hopen;
    cbn [heappop] in Hrun |- *.
  { injection Hrun as <-. done. }
  case_bool_decide as Hgoal.
  - exists st. split_and!; [done| |by subst].
    unfold nodes. rewrite Hopen. simpl. by subst.
  - apply bind_Done in Hrun as (st2 & Hexp & Hrun). rewrite Hexp.
    destruct (IH st2 Hrun Hne) as (st' & Hlast & Hrest).
    exists st'. split; [|done].
    destruct (search_states fuel grid w h goal st2); [done|].
    by rewrite last_cons, Hlast.
Qed.

End trace.

(** The states of [init] have the same keys in both score tables. *)
Lemma init_scores (start goal p : pos) :
  is_Some (f_score (init start goal) !! p)
  <-> is_Some (g_score (init start goal) !! p).
Proof. simpl. by rewrite !lookup_singleton_is_Some. Qed.

(** Every state the loop of [astar] goes through satisfies the
    invariant, on a rectangular mask. *)
Lemma astar_states_inv (grid : list (list bool)) (start goal : pos)
    (st : state) :
  rectangular grid ->
  st ∈ astar_states grid start goal ->
  inv (grid_width grid) (grid_height grid) goal st
  /\ (forall p, is_Some (f_score st !! p) <-> is_Some (g_score st !! p)).
Proof.
  intros [Hw Hrect]%rectangular_rows. unfold astar_states.
  destruct (in_bounds _ _ start) eqn:Hs; cbn [negb orb];
    [|by intros ?%elem_of_nil].
  destruct (in_bounds _ _ goal) eqn:Hg; cbn [negb orb];
    [|by intros ?%elem_of_nil].
  case_bool_decide as Heq; [by intros ?%elem_of_nil|].
  destruct (cell grid goal) as [[|]| |]; try by intros ?%elem_of_nil.
  apply (search_states_inv grid _ _ goal eq_refl Hw Hrect).
  - by apply init_inv.
  - apply init_scores.
Qed.

(** A cell outside the mask is in none of the tables of a state that
    satisfies the invariant. *)
Lemma inv_outside (w h : Z) (goal : pos) (st : state) (c : pos) :
  inv w h goal st -> in_bounds w h c = false ->
  (c ∉ nodes st) /\ (c ∉ closed_set st)
  /\ g_score st !! c = None
  /\ came_from st !! c = None
  /\ (forall n, came_from st !! n <> Some c).
Proof.
  intros Hinv Hout.
  assert (c ∉ nodes st) as Hn.
  { intros Hc. apply (inv_open_inside _ _ _ _ Hinv) in Hc. congruence. }
  assert (c ∉ closed_set st) as Hc.
  { intros Hc. apply (inv_closed_inside _ _ _ _ Hinv) in Hc. congruence. }
  assert (g_score st !! c = None) as Hg.
  { apply eq_None_not_Some. rewrite (inv_scored _ _ _ _ Hinv). tauto. }
  split_and!; try done.
  - destruct (came_from st !! c) as [p|] eqn:Hp; [|done].
    destruct (inv_parent _ _ _ _ Hinv _ _ Hp) as (_ & gp & _ & Hgc). congruence.
  - intros n Hp. by destruct (inv_parent _ _ _ _ Hinv _ _ Hp) as (? & _).
Qed.

(** The path [astar] returns from its loop is read off the last state
    of the loop. *)
Lemma astar_last (grid : list (list bool)) (start goal : pos)
    (path : list pos) :
  astar grid start goal = Done path -> path <> [] -> start <> goal ->
  exists st, last (astar_states grid start goal) = Some st
    /\ head (nodes st) = Some goal
    /\ walk_back (S (Z.to_nat (grid_width grid * grid_height grid)))
         (came_from st) goal = Done path.
Proof.
  unfold astar, astar_fuel, astar_states. intros Hrun Hne Hsg.
  destruct (negb (in_bounds _ _ start) || negb (in_bounds _ _ goal));
    [by injection Hrun as <-|].
  rewrite bool_decide_eq_false_2 in Hrun |- * by done.
  destruct (cell grid goal) as [[|]| |]; cbn [mbind outcome_bind negb] in Hrun;
    try done; [|by injection Hrun as <-].
  by apply search_last.
Qed.

End TraceFacts.

Module LineFacts.
Import Dungeon GridFacts SightFacts.

(** The walk is blocked exactly when one of the cells it would go
    through holds an opaque tile; a cell without a tile never blocks. *)
Lemma los_walk_cells (d : t) (fuel : nat) (x0 y0 x1 y1 dx dy sx sy err : Z)
    (clear : bool) :
  wf d ->
  los_walk fuel d x0 y0 x1 y1 dx dy sx sy err = Done clear ->
  clear = false <->
  exists c v, c ∈ los_cells fuel x0 y0 x1 y1 dx dy sx sy err
    /\ tile_at d c.1 c.2 = Some v /\ is_transparent v = false.
Proof.
  intros Hwf. revert x0 y0 err.
  induction fuel as [|fuel IH]; intros x0 y0 err; [done|].
  rewrite los_walk_S. cbn [los_cells].
  destruct ((x0 =? x1) && (y0 =? y1)).
  { intros [= <-]. split; [done|]. by intros (c & v & ?%elem_of_nil & _). }
  assert (forall (cells : list pos) (run : outcome bool),
    (run = Done clear ->
     clear = false <->
     exists c v, c ∈ cells
       /\ tile_at d c.1 c.2 = Some v /\ is_transparent v = false) ->
    (blocked ← (if inside d x0 y0 then
                  v ← tile d x0 y0; Done (negb (is_transparent v) && negb false)
                else Done false);
     if blocked : bool then Done false else run) = Done clear ->
    clear = false <->
    exists c v, c ∈ (x0, y0) :: cells
      /\ tile_at d c.1 c.2 = Some v /\ is_transparent v = false) as Hstep.
  { intros cells run Hrec.
    assert ((forall v, tile_at d x0 y0 = Some v -> is_transparent v = true) ->
            run = Done clear ->
            clear = false <->
            exists c v, c ∈ (x0, y0) :: cells
              /\ tile_at d c.1 c.2 = Some v /\ is_transparent v = false)
      as Hpass.
    { intros Hhere Hrun. rewrite (Hrec Hrun). split.
      - intros (c & v & Hc & Hv). exists c, v. split; [by right|done].
      - intros (c & v & [->|Hc]%elem_of_cons & Hv & Ht).
        + apply Hhere in Hv. congruence.
        + by exists c, v. }
    destruct (inside d x0 y0) eqn:Hin.
    - destruct (tile_inside d x0 y0 Hwf Hin) as (v & Hv & Hat).
      rewrite Hv. cbn [mbind outcome_bind]. rewrite andb_true_r.
      destruct (is_transparent v) eqn:Ht; cbn [negb].
      + apply Hpass. intros v' Hv'. congruence.
      + intros [= <-]. split; [|done]. intros _.
        exists (x0, y0), v. split; [left|done].
    - cbn [mbind outcome_bind]. apply Hpass. intros v' Hv'.
      assert (is_Some (tile_at d x0 y0)) as Hs by done.
      apply (tile_at_inside d x0 y0 Hwf) in Hs. congruence. }
  destruct (- dy <? 2 * err), (2 * err <? dx); apply Hstep; apply IH.
Qed.

(** [has_line_of_sight] returns, and it answers no exactly when a cell
    of the line holds an opaque tile. *)
Lemma has_line_of_sight_cells (d : t) (x0 y0 x1 y1 : Z) :
  wf d ->
  exists clear, has_line_of_sight d x0 y0 x1 y1 = Done clear
    /\ (clear = false <->
        exists c v, c ∈ sight_line x0 y0 x1 y1
          /\ tile_at d c.1 c.2 = Some v /\ is_transparent v = false).
Proof.
  intros Hwf. destruct (has_line_of_sight_total d x0 y0 x1 y1 Hwf) as [b Hb].
  exists b. split; [done|]. by apply (los_walk_cells d _ _ _ _ _ _ _ _ _ _ _ Hwf).
Qed.

End LineFacts.

(** * Termination of [generate] *)

Module EndsFacts.
Import Dungeon ConnectFacts.

(** ** No step runs out of fuel *)

Lemma bind_ends {A B} (m : outcome A) (k : A -> outcome B) :
  m <> OutOfFuel -> (forall a, m = Done a -> k a <> OutOfFuel) ->
  m ≫= k <> OutOfFuel.
Proof. destruct m as [a| |]; simpl; auto. Qed.

Lemma for_each_ends {A S} (xs : list A) (body : A -> S -> outcome S) (s : S) :
  (forall x s, body x s <> OutOfFuel) -> for_each xs body s <> OutOfFuel.
Proof.
  intros Hbody. revert s. induction xs as [|x xs IH]; intros s; [done|].
  simpl. apply bind_ends; auto.
Qed.

Lemma py_index_ends {A} (l : list A) (i : Z) : py_index l i <> OutOfFuel.
Proof.
  unfold py_index. destruct (norm_index _ i) as [k|]; [|done].
  by destruct (l !! k).
Qed.

Lemma py_store_ends {A} (l : list A) (i : Z) (v : A) :
  py_store l i v <> OutOfFuel.
Proof. unfold py_store. by destruct (norm_index _ i). Qed.

Lemma randint_ends (a b : Z) (r : Random.t) :
  Random.randint a b r <> OutOfFuel.
Proof.
  unfold Random.randint. destruct (a <=? b); [|done].
  by destruct (Random.draw r).
Qed.

Lemma choice_index_ends (n : nat) (r : Random.t) :
  Random.choice_index n r <> OutOfFuel.
Proof.
  unfold Random.choice_index. destruct n; [done|].
  by destruct (Random.draw r).
Qed.

Lemma room_ends (d : t) (i : nat) : room d i <> OutOfFuel.
Proof. unfold room. by destruct (rooms d !! i). Qed.

Create HintDb ends.

#[local] Hint Resolve py_index_ends py_store_ends randint_ends
  choice_index_ends room_ends : ends.

(** One step of the argument: through a bind, a loop, a test or a
    pattern, down to the calls. *)
Ltac ends_step :=
  first
    [ done
    | solve [auto with ends]
    | apply bind_ends; [|intros ? _]
    | apply for_each_ends; intros ? ?
    | match goal with
      | |- (let '(_, _) := ?p in _) <> _ => destruct p
      | |- (if ?b then _ else _) <> _ => destruct b
      | |- (match ?m with Some _ => _ | None => _ end) <> _ => destruct m
      | |- (match ?l with [] => _ | _ :: _ => _ end) <> _ => destruct l
      end ].

Ltac ends := repeat ends_step.

Lemma choice_bool_ends (r : Random.t) : Random.choice_bool r <> OutOfFuel.
Proof. unfold Random.choice_bool. ends. Qed.

Lemma tile_ends (d : t) (x y : Z) : tile d x y <> OutOfFuel.
Proof. unfold tile. ends. Qed.

Lemma store_ends (d : t) (x y : Z) (v : Tile) : store d x y v <> OutOfFuel.
Proof. unfold store. ends. Qed.

#[local] Hint Resolve choice_bool_ends tile_ends store_ends : ends.

Lemma modify_ends (d : t) (x y : Z) (f : Tile -> Tile) :
  modify d x y f <> OutOfFuel.
Proof. unfold modify. ends. Qed.

Lemma create_h_tunnel_ends (d : t) (x1 x2 y : Z) :
  create_h_tunnel d x1 x2 y <> OutOfFuel.
Proof. unfold create_h_tunnel. ends. Qed.

Lemma create_v_tunnel_ends (d : t) (y1 y2 x : Z) :
  create_v_tunnel d y1 y2 x <> OutOfFuel.
Proof. unfold create_v_tunnel. ends. Qed.

#[local] Hint Resolve modify_ends create_h_tunnel_ends create_v_tunnel_ends
  : ends.

Lemma connect_rooms_ends (i1 i2 : nat) (s : world) :
  connect_rooms i1 i2 s <> OutOfFuel.
Proof. unfold connect_rooms. ends. Qed.

Lemma add_room_ends (d : t) (new : Room.t) : add_room d new <> OutOfFuel.
Proof. unfold add_room. ends. Qed.

#[local] Hint Resolve connect_rooms_ends add_room_ends : ends.

Lemma place_rooms_ends (attempts : nat)
    (max_rooms room_min_size room_max_size rooms_created : Z) (s : world) :
  place_rooms attempts max_rooms room_min_size room_max_size rooms_created s
  <> OutOfFuel.
Proof.
  revert rooms_created s.
  induction attempts as [|n IH]; intros created s; [done|].
  cbn [place_rooms]. ends.
Qed.

Lemma count_walls_ends (d : t) (x y : Z) (offsets : list (Z * Z)) :
  count_walls d x y offsets <> OutOfFuel.
Proof. unfold count_walls. ends. Qed.

#[local] Hint Resolve place_rooms_ends count_walls_ends : ends.

Lemma add_doors_ends (s : world) : add_doors s <> OutOfFuel.
Proof. unfold add_doors. ends. Qed.

Lemma add_floor_variants_ends (s : world) : add_floor_variants s <> OutOfFuel.
Proof. unfold add_floor_variants. ends. Qed.

#[local] Hint Resolve add_doors_ends add_floor_variants_ends : ends.

(** ** The room list through the steps *)








(** ** The repair loop *)









(** ** [generate] *)




End EndsFacts.

(** * The properties of the specification *)

Module Claims.
Import Examples.
Import GridFacts SightFacts FovFacts GenFacts GenerateFacts MaskFacts.

(** ** Connectivity of generated floors *)

(** C1. Whenever [generate], started as [__init__] starts it (no rooms
    yet) and with a non-negative minimum room size, returns a floor, the
    centres of any two rooms of the returned room list are connected by
    4-directional steps over walkable tiles, and A* over the walkability
    mask of that floor returns a non-empty path from the one centre to
    the other. *)
Theorem generate_rooms_connected (fuel : nat)
    (max_rooms room_min_size room_max_size : Z)
    (d d' : Dungeon.t) (rng rng' : Random.t) (room1 room2 : Room.t) :
  0 <= room_min_size ->
  Dungeon.rooms d = [] ->
  Dungeon.generate fuel max_rooms room_min_size room_max_size (d, rng)
    = Done (d', rng') ->
  room1 ∈ Dungeon.rooms d' -> room2 ∈ Dungeon.rooms d' ->
  Dungeon.connected_to d' (Room.center room1) (Room.center room2)
  /\ exists path,
       Pathfinding.astar (Dungeon.walkable_mask d')
         (Room.center room1) (Room.center room2) = Done path
       /\ path <> []
       /\ head path = Some (Room.center room1)
       /\ last path = Some (Room.center room2).
Proof.
  intros Hmin Hnone Hgen H1 H2.
  destruct (generate_spec _ _ _ _ _ _ Hgen Hmin) as ([Hwf Hin] & Hall & _).
  { unfold Dungeon.centers. simpl. rewrite Hnone. by intros c ?%elem_of_nil. }
  simpl in *.
  assert (Room.center room1 ∈ Dungeon.centers d') as Hc1
    by by apply list_elem_of_fmap_2.
  assert (Room.center room2 ∈ Dungeon.centers d') as Hc2
    by by apply list_elem_of_fmap_2.
  split; [by apply Hall|].
  pose proof (mask_rectangular d' Hwf) as Hrect.
  destruct (PathfindingFacts.astar_spec (Dungeon.walkable_mask d')
              (Room.center room1) (Room.center room2) Hrect)
    as (path & Hrun & _ & Hfound).
  assert (path <> []) as Hne.
  { apply Hfound.
    - rewrite mask_in_bounds by done. by apply Hin.
    - apply mask_reach; [done|]. by apply Hall. }
  destruct (PathfindingFacts.astar_sound _ _ _ _ Hrect Hrun Hne)
    as (_ & Hhead & Hlast).
  by exists path.
Qed.

Lemma generate_rooms_connected_witness :
  Dungeon.connected_to demo_world.1 (Room.center demo_first)
    (Room.center demo_last)
  /\ exists path,
       Pathfinding.astar (Dungeon.walkable_mask demo_world.1)
         (Room.center demo_first) (Room.center demo_last) = Done path
       /\ path <> []
       /\ head path = Some (Room.center demo_first)
       /\ last path = Some (Room.center demo_last).
Proof.
  apply (generate_rooms_connected 1 5 3 3 (Dungeon.fresh 16 16)
           demo_world.1 demo_random demo_world.2).
  - lia.
  - reflexivity.
  - vm_compute. reflexivity.
  - apply list_elem_of_In. vm_compute. tauto.
  - apply list_elem_of_In. vm_compute. tauto.
Defined.

(** ** A* *)

(** C2. On the mask [detour_mask], from (4,2) to (0,2), [astar] returns
    a path of 9 cells although a walk of 7 cells exists and 7 is the
    length the reference breadth-first search finds: the returned path
    is not a shortest one. *)
Theorem astar_misses_shortest_path :
  Pathfinding.astar detour_mask (4, 2) (0, 2)
    = Done [(4, 2); (4, 1); (3, 1); (2, 1); (2, 0); (1, 0); (0, 0); (0, 1);
            (0, 2)]
  /\ Pathfinding.shortest_length detour_mask (4, 2) (0, 2) = Some 7%nat
  /\ Pathfinding.is_walk detour_mask
       [(4, 2); (4, 3); (3, 3); (2, 3); (1, 3); (0, 3); (0, 2)] = true.
Proof. split_and!; vm_compute; reflexivity. Qed.

(** C5, as the claim states it, fails when start and goal are the same
    cell and that cell is not walkable: the single-element path is
    returned, not the empty list. *)
Lemma astar_unwalkable_goal_not_empty :
  Pathfinding.cell blocked_mask (0, 0) = Done false
  /\ Pathfinding.astar blocked_mask (0, 0) (0, 0) = Done [(0, 0)].
Proof. split; vm_compute; reflexivity. Qed.

(** C5, amended. [astar] returns the empty list when start or goal is
    out of bounds; otherwise, when start and goal are the same cell, it
    returns the single-element path, whether or not that cell is
    walkable; otherwise, when the goal cell is not walkable, it returns
    the empty list. *)
Theorem astar_early_returns (grid : list (list bool)) (start goal : pos) :
  let w := Pathfinding.grid_width grid in
  let h := Pathfinding.grid_height grid in
  (Pathfinding.in_bounds w h start = false
   \/ Pathfinding.in_bounds w h goal = false ->
   Pathfinding.astar grid start goal = Done [])
  /\ (Pathfinding.in_bounds w h start = true -> start = goal ->
      Pathfinding.astar grid start goal = Done [start])
  /\ (Pathfinding.in_bounds w h start = true ->
      Pathfinding.in_bounds w h goal = true -> start <> goal ->
      Pathfinding.cell grid goal = Done false ->
      Pathfinding.astar grid start goal = Done []).
Proof.
  intros w h. unfold Pathfinding.astar, Pathfinding.astar_fuel. fold w h.
  split_and!.
  - intros [-> | ->]; [done|]. by rewrite orb_true_r.
  - intros Hs <-. rewrite Hs. cbn [negb orb].
    by rewrite bool_decide_eq_true_2.
  - intros -> -> Hne ->. cbn [negb orb].
    by rewrite bool_decide_eq_false_2.
Qed.

Lemma astar_early_returns_witness :
  Pathfinding.astar blocked_mask (0, 0) (0, 0) = Done [(0, 0)].
Proof.
  apply (proj1 (proj2 (astar_early_returns blocked_mask (0, 0) (0, 0))));
    reflexivity.
Defined.

(** C9. The walkability of the start cell has no influence on the
    result of [astar]: on two masks that differ at most at the start
    cell it returns the same result.  In particular, on the row
    [blocked_start_mask] it returns a path that begins at the start cell
    (0,0), which is not walkable. *)
Theorem astar_ignores_start_cell (g1 g2 : list (list bool)) (start goal : pos) :
  Pathfinding.differ_only_at g1 g2 start ->
  Pathfinding.astar g1 start goal = Pathfinding.astar g2 start goal
  /\ Pathfinding.cell blocked_start_mask (0, 0) = Done false
  /\ Pathfinding.astar blocked_start_mask (0, 0) (2, 0)
     = Done [(0, 0); (1, 0); (2, 0)].
Proof.
  intros Hdiff. split; [|split; vm_compute; reflexivity].
  unfold Pathfinding.astar.
  destruct (StartCell.differ_shape _ _ _ Hdiff) as [-> ->].
  by apply StartCell.astar_fuel_agree.
Qed.

Lemma astar_ignores_start_cell_witness :
  Pathfinding.astar blocked_start_mask (0, 0) (2, 0)
  = Pathfinding.astar open_start_mask (0, 0) (2, 0).
Proof.
  apply (astar_ignores_start_cell blocked_start_mask open_start_mask
           (0, 0) (2, 0)).
  split; [reflexivity|].
  intros [|j] row1 row2; [|by destruct j].
  intros [= <-] [= <-]. split; [reflexivity|].
  intros [|i] Hne; [by destruct Hne|reflexivity].
Defined.

(** ** Field of view *)

(** C3. Over any sequence of [compute_fov] calls with observers inside
    the grid, every call returns and no [explored] flag is cleared: a
    tile explored before the sequence is explored after it. *)
Theorem explored_monotone (d : Dungeon.t) (moves : list (pos * Z)) :
  Dungeon.wf d ->
  Forall (fun m => Dungeon.inside d m.1.1 m.1.2 = true) moves ->
  exists d', Dungeon.fov_passes d moves = Done d'
    /\ forall x y v, Dungeon.tile_at d x y = Some v -> explored v = true ->
         exists v', Dungeon.tile_at d' x y = Some v' /\ explored v' = true.
Proof.
  intros Hwf Hmoves. unfold Dungeon.fov_passes.
  destruct (for_each_inv (fun d' => Dungeon.reflagged d d')
    (fun m d => r ← Dungeon.compute_fov d m.1.1 m.1.2 m.2; Done r.1) moves d)
    as (d' & Hrun & _ & _ & Hkeep).
  - by apply reflagged_refl.
  - intros m d1 Hm Hre. pose proof Hre as (Hwf1 & Hfr1 & Hkeep1).
    destruct (compute_fov_spec d1 m.1.1 m.1.2 m.2 Hwf1)
      as (st & -> & (Hwf2 & Hfr2 & Hkeep2) & _).
    { rewrite (same_frame_inside d d1) by done.
      by apply (proj1 (Forall_forall _ _) Hmoves). }
    exists st.1. split; [done|].
    split; [done|split; [by eapply same_frame_trans|]].
    intros x y v Hv. destruct (Hkeep1 _ _ _ Hv) as (v1 & Hv1 & Ht1 & He1).
    destruct (Hkeep2 _ _ _ Hv1) as (v2 & Hv2 & Ht2 & He2).
    exists v2. split_and!; [done|congruence|auto].
  - exists d'. split; [done|]. intros x y v Hv He.
    destruct (Hkeep _ _ _ Hv) as (v' & ? & _ & ?). exists v'. auto.
Qed.

Lemma explored_monotone_witness :
  exists d', Dungeon.fov_passes hall [((0, 0), 8); ((4, 2), 2)] = Done d'
    /\ forall x y v, Dungeon.tile_at hall x y = Some v -> explored v = true ->
         exists v', Dungeon.tile_at d' x y = Some v' /\ explored v' = true.
Proof.
  apply (explored_monotone hall [((0, 0), 8); ((4, 2), 2)]).
  - split; [reflexivity|]. repeat constructor.
  - repeat constructor.
Defined.

(** C4. A target that lies on the line through the observer beyond an
    opaque tile of the grid standing strictly between the two is not in
    the set [compute_fov] returns and its [visible] flag is not set,
    whatever the radius. *)
Theorem wall_occludes (d : Dungeon.t) (px py radius : Z) (wall target : pos)
    (v : Tile) :
  Dungeon.wf d ->
  Dungeon.inside d px py = true ->
  Dungeon.tile_at d wall.1 wall.2 = Some v -> is_transparent v = false ->
  Dungeon.strictly_between (px, py) wall target ->
  exists d' visible_tiles,
    Dungeon.compute_fov d px py radius = Done (d', visible_tiles)
    /\ (target ∉ visible_tiles)
    /\ forall v', Dungeon.tile_at d' target.1 target.2 = Some v' ->
         visible v' = false.
Proof.
  intros Hwf Hin Hwall Hopaque Hbetween.
  destruct (compute_fov_spec d px py radius Hwf Hin)
    as ([d' vis] & Hrun & _ & _ & Hvis & Hflags).
  simpl in *. exists d', vis. split; [done|].
  assert (target ∉ vis) as Hout.
  { intros [->|[_ Hlos]]%Hvis.
    - destruct Hbetween as (_ & ? & ? & Hno & _). simpl in *.
      apply Hno. destruct wall. simpl in *. f_equal; lia.
    - destruct wall as [wx wy], target as [tx ty]. simpl in *.
      rewrite (has_line_of_sight_blocked d px py tx ty Hwf wx wy v) in Hlos;
        [done|by left|done..]. }
  split; [done|]. intros v' Hv'.
  destruct (visible v') eqn:Hseen; [|done].
  destruct target as [tx ty]. exfalso. apply Hout.
  by apply (proj1 (Hflags _ _ _ Hv')).
Qed.

Lemma wall_occludes_witness :
  exists d' visible_tiles,
    Dungeon.compute_fov hall 0 0 8 = Done (d', visible_tiles)
    /\ ((4, 0) ∉ visible_tiles)
    /\ forall v', Dungeon.tile_at d' 4 0 = Some v' -> visible v' = false.
Proof.
  apply (wall_occludes hall 0 0 8 (2, 0) (4, 0) (new_tile WALL)).
  - split; [reflexivity|]. repeat constructor.
  - reflexivity.
  - reflexivity.
  - reflexivity.
  - unfold Dungeon.strictly_between. simpl. split_and!; (lia || done).
Defined.

(** C10. An observer inside the grid who stands on an opaque tile sees
    its own cell and nothing else: [compute_fov] returns exactly the
    singleton of the observer's cell, whatever the radius. *)
Theorem fov_from_wall (d : Dungeon.t) (px py radius : Z) (v : Tile) :
  Dungeon.wf d ->
  Dungeon.tile_at d px py = Some v -> is_transparent v = false ->
  exists d', Dungeon.compute_fov d px py radius = Done (d', {[(px, py)]}).
Proof.
  intros Hwf Hv Hopaque.
  assert (Dungeon.inside d px py = true) as Hin.
  { apply tile_at_inside; [done|by eexists]. }
  destruct (compute_fov_spec d px py radius Hwf Hin)
    as ([d' vis] & Hrun & _ & Hobs & Hvis & _).
  simpl in *. exists d'. rewrite Hrun. do 2 f_equal.
  apply set_eq. intros p. rewrite elem_of_singleton. split; [|by intros ->].
  intros [->|[_ Hlos]]%Hvis; [done|].
  destruct (decide (p = (px, py))) as [|Hne]; [done|].
  destruct p as [tx ty]. simpl in *.
  rewrite (has_line_of_sight_blocked d px py tx ty Hwf px py v) in Hlos;
    [done|right; split; [done|congruence]|done..].
Qed.

Lemma fov_from_wall_witness :
  exists d', Dungeon.compute_fov hall 2 0 8 = Done (d', {[(2, 0)]}).
Proof.
  apply (fov_from_wall hall 2 0 8 (new_tile WALL)).
  - split; [reflexivity|]. repeat constructor.
  - reflexivity.
  - reflexivity.
Defined.

(** C6, as the claim states it, fails: [compute_fov] does not clamp.  On
    the one-tile floor the observer position (1,0), outside the grid,
    makes it raise IndexError. *)
Lemma fov_outside_raises :
  Dungeon.inside one_tile 1 0 = false
  /\ Dungeon.compute_fov one_tile 1 0 8 = Raised IndexError.
Proof. split; vm_compute; reflexivity. Qed.

(** C6, amended. For an observer inside the grid [compute_fov] returns,
    the returned set contains the observer's cell and the [visible] flag
    of that cell is set.  The clamping is done by [render], before the
    call: on a grid that has a cell, [clamp_player] puts every position
    inside the grid. *)
Theorem fov_inside_grid (d : Dungeon.t) (px py radius : Z) :
  Dungeon.wf d ->
  Dungeon.inside d px py = true ->
  (exists d' visible_tiles,
     Dungeon.compute_fov d px py radius = Done (d', visible_tiles)
     /\ (px, py) ∈ visible_tiles
     /\ exists v, Dungeon.tile_at d' px py = Some v /\ visible v = true)
  /\ forall p,
       Dungeon.inside d (Dungeon.clamp_player d p).1
         (Dungeon.clamp_player d p).2 = true.
Proof.
  intros Hwf Hin. split.
  - destruct (compute_fov_spec d px py radius Hwf Hin)
      as ([d' vis] & Hrun & Hre & Hobs & _ & Hflags).
    simpl in *. exists d', vis. split_and!; [done..|].
    destruct (proj2 (tile_at_inside d' px py (proj1 Hre))) as [v Hv].
    { by rewrite (reflagged_inside d d'). }
    exists v. split; [done|]. by apply (Hflags _ _ _ Hv).
  - intros [x y]. apply inside_spec in Hin. apply inside_spec.
    unfold Dungeon.clamp_player. simpl.
    destruct (Z.ltb_spec x 0), (Z.ltb_spec y 0);
      repeat match goal with
             | |- context [?a <=? ?b] => destruct (Z.leb_spec a b)
             end; simpl; lia.
Qed.

Lemma fov_inside_grid_witness :
  (exists d' visible_tiles,
     Dungeon.compute_fov hall 0 0 8 = Done (d', visible_tiles)
     /\ (0, 0) ∈ visible_tiles
     /\ exists v, Dungeon.tile_at d' 0 0 = Some v /\ visible v = true)
  /\ forall p,
       Dungeon.inside hall (Dungeon.clamp_player hall p).1
         (Dungeon.clamp_player hall p).2 = true.
Proof.
  apply (fov_inside_grid hall 0 0 8).
  - split; [reflexivity|]. repeat constructor.
  - reflexivity.
Defined.

(** ** Cells outside the grid *)

(** C7, as the claim states it, fails for the line of sight: cells
    outside the grid do not block it.  On the one-tile floor the walk from
    (-2,0) to (0,0) passes (-1,0), outside the grid, and the sight is
    clear. *)
Lemma sight_passes_outside :
  Dungeon.inside one_tile (-1) 0 = false
  /\ (-1, 0) ∈ Dungeon.sight_line (-2) 0 0 0
  /\ Dungeon.has_line_of_sight one_tile (-2) 0 0 0 = Done true.
Proof.
  split_and!; [reflexivity| |reflexivity].
  change (Dungeon.sight_line (-2) 0 0 0) with [(-2, 0); (-1, 0)].
  right. left.
Qed.

(** C7, amended. For a cell [(x, y)] outside the grid:
    [is_position_valid] returns false; [astar] on the walkability mask
    never visits or traverses the cell: the path it returns does not
    contain it, a path found by the loop is read off the links of the
    last state of the loop, and in no state of the loop is the cell
    queued, closed, scored, or either end of a link; and the
    line-of-sight walk skips the cell: the sight is blocked exactly when
    a cell of the walk other than [(x, y)] holds an opaque tile. *)
Theorem outside_cells (d : Dungeon.t) (x y : Z) :
  Dungeon.wf d ->
  Dungeon.inside d x y = false ->
  Dungeon.is_position_valid d x y = Done false
  /\ (forall start goal,
        (exists path,
           Pathfinding.astar (Dungeon.walkable_mask d) start goal = Done path
           /\ ((x, y) ∉ path)
           /\ (path <> [] -> start <> goal ->
               exists st,
                 last (Pathfinding.astar_states (Dungeon.walkable_mask d)
                         start goal) = Some st
                 /\ head (Pathfinding.nodes st) = Some goal
                 /\ Pathfinding.walk_back
                      (S (Z.to_nat
                            (Pathfinding.grid_width (Dungeon.walkable_mask d)
                             * Pathfinding.grid_height
                                 (Dungeon.walkable_mask d))))
                      (Pathfinding.came_from st) goal = Done path))
        /\ (forall st,
              st ∈ Pathfinding.astar_states (Dungeon.walkable_mask d)
                     start goal ->
              ((x, y) ∉ Pathfinding.nodes st)
              /\ ((x, y) ∉ Pathfinding.closed_set st)
              /\ Pathfinding.g_score st !! (x, y) = None
              /\ Pathfinding.f_score st !! (x, y) = None
              /\ Pathfinding.came_from st !! (x, y) = None
              /\ forall n, Pathfinding.came_from st !! n <> Some (x, y)))
  /\ (forall x0 y0 x1 y1, exists clear,
        Dungeon.has_line_of_sight d x0 y0 x1 y1 = Done clear
        /\ (clear = false <->
            exists c v,
              c ∈ Dungeon.sight_line x0 y0 x1 y1 /\ c <> (x, y)
              /\ Dungeon.tile_at d c.1 c.2 = Some v
              /\ is_transparent v = false)).
Proof.
  intros Hwf Hout. split_and!.
  - unfold Dungeon.is_position_valid. by rewrite Hout.
  - intros start goal. split.
    + destruct (PathfindingFacts.astar_spec (Dungeon.walkable_mask d) start
                  goal) as (path & Hrun & Hin & _);
        [by apply mask_rectangular|].
      exists path. split_and!; [done| |by apply TraceFacts.astar_last].
      intros Hxy%Hin. rewrite mask_in_bounds in Hxy by done.
      simpl in Hxy. congruence.
    + intros st Hst.
      destruct (TraceFacts.astar_states_inv _ _ _ _ (mask_rectangular d Hwf)
                  Hst) as [Hinv Hscores].
      destruct (TraceFacts.inv_outside _ _ _ _ (x, y) Hinv)
        as (Hn & Hc & Hg & Hcf & Hpar).
      { by rewrite mask_in_bounds. }
      split_and!; try done.
      apply eq_None_not_Some. rewrite Hscores, Hg. by intros [? ?].
  - intros x0 y0 x1 y1.
    destruct (LineFacts.has_line_of_sight_cells d x0 y0 x1 y1 Hwf)
      as (clear & Hrun & Hclear).
    exists clear. split; [done|]. rewrite Hclear. split.
    + intros (c & v & Hc & Hv & Ht). exists c, v. split_and!; try done.
      intros ->. simpl in Hv.
      assert (is_Some (Dungeon.tile_at d x y)) as Hs by done.
      apply (tile_at_inside d x y Hwf) in Hs. congruence.
    + intros (c & v & Hc & _ & Hv). by exists c, v.
Qed.

Lemma outside_cells_witness :
  Dungeon.is_position_valid hall 5 0 = Done false
  /\ (forall start goal,
        (exists path,
           Pathfinding.astar (Dungeon.walkable_mask hall) start goal
           = Done path
           /\ ((5, 0) ∉ path)
           /\ (path <> [] -> start <> goal ->
               exists st,
                 last (Pathfinding.astar_states (Dungeon.walkable_mask hall)
                         start goal) = Some st
                 /\ head (Pathfinding.nodes st) = Some goal
                 /\ Pathfinding.walk_back
                      (S (Z.to_nat
                            (Pathfinding.grid_width
                               (Dungeon.walkable_mask hall)
                             * Pathfinding.grid_height
                                 (Dungeon.walkable_mask hall))))
                      (Pathfinding.came_from st) goal = Done path))
        /\ (forall st,
              st ∈ Pathfinding.astar_states (Dungeon.walkable_mask hall)
                     start goal ->
              ((5, 0) ∉ Pathfinding.nodes st)
              /\ ((5, 0) ∉ Pathfinding.closed_set st)
              /\ Pathfinding.g_score st !! (5, 0) = None
              /\ Pathfinding.f_score st !! (5, 0) = None
              /\ Pathfinding.came_from st !! (5, 0) = None
              /\ forall n, Pathfinding.came_from st !! n <> Some (5, 0)))
  /\ (forall x0 y0 x1 y1, exists clear,
        Dungeon.has_line_of_sight hall x0 y0 x1 y1 = Done clear
        /\ (clear = false <->
            exists c v,
              c ∈ Dungeon.sight_line x0 y0 x1 y1 /\ c <> (5, 0)
              /\ Dungeon.tile_at hall c.1 c.2 = Some v
              /\ is_transparent v = false)).
Proof.
  apply (outside_cells hall 5 0).
  - split; [reflexivity|]. repeat constructor.
  - reflexivity.
Defined.

(** ** Restarts of the generator *)


End Claims.

(** * More on the paths of A*: no cell twice, never shorter than the
    Manhattan distance *)

Module PathFacts.
Import Pathfinding PathfindingFacts.

Section simple.
Context (grid : list (list bool)) (w h : Z) (goal : pos).
Hypothesis Hh : Z.of_nat (length grid) = h.
Hypothesis Hw : 0 <= w.
Hypothesis Hrect : Forall (fun row => Z.of_nat (length row) = w) grid.

(** Along the chain of [came_from] the score falls by one per link, so
    no cell comes twice. *)
Lemma walk_back_nodup (st : state) :
  inv w h goal st ->
  forall fuel n gn path,
    walk_back fuel (came_from st) n = Done path ->
    g_score st !! n = Some gn ->
    NoDup path
    /\ forall c, c ∈ path -> exists gc, g_score st !! c = Some gc /\ gc <= gn.
Proof.
  intros Hinv. induction fuel as [|fuel IH]; intros n gn path; [done|].
  simpl. destruct (came_from st !! n) as [p|] eqn:Hp.
  - intros (rest & Hrest & [= <-])%bind_Done Hn.
    destruct (inv_parent _ _ _ _ Hinv n p Hp) as (_ & gp & Hgp & Hgn).
    assert (gn = gp + 1) as -> by congruence.
    destruct (IH p gp rest Hrest Hgp) as [Hnd Hle]. split.
    + apply NoDup_app. split_and!; [done| |apply NoDup_singleton].
      intros c Hc ->%list_elem_of_singleton.
      destruct (Hle _ Hc) as (gc & Hgc & ?).
      assert (gc = gp + 1) by congruence. lia.
    + intros c [Hc| ->%list_elem_of_singleton]%elem_of_app.
      * destruct (Hle _ Hc) as (gc & ? & ?). exists gc. split; [done|lia].
      * exists (gp + 1). split; [done|lia].
  - intros [= <-] Hn. split; [apply NoDup_singleton|].
    intros c ->%list_elem_of_singleton. exists gn. split; [done|lia].
Qed.

Lemma search_nodup (fuel : nat) (st : state) (path : list pos) :
  search fuel grid w h goal st = Done path ->
  inv w h goal st -> NoDup path.
Proof.
  revert st. induction fuel as [|fuel IH]; intros st Hrun Hinv; [done|].
  rewrite search_S in Hrun.
  destruct (open_set st) as [|[f current] rest] eqn:Hopen; unfold heappop in Hrun.
  { injection Hrun as <-. apply NoDup_nil_2. }
  assert (current ∈ nodes st) as Hcur.
  { unfold nodes. rewrite Hopen. left. }
  case_bool_decide as Hgoal.
  - assert (is_Some (g_score st !! current)) as [gc Hgc].
    { apply (inv_scored _ _ _ _ Hinv). by right. }
    by destruct (walk_back_nodup st Hinv _ _ _ _ Hrun Hgc).
  - destruct (popped_inv grid w h goal Hh Hw Hrect st f current rest
                Hinv Hopen Hgoal) as (Hinv1 & _ & Hg1).
    destruct (expand_spec grid w h goal Hh Hrect current _ Hinv1)
      as (st2 & Hexp & Hinv2 & _); [simpl; set_solver|done|].
    rewrite Hexp in Hrun. cbn [mbind outcome_bind] in Hrun.
    by apply (IH st2).
Qed.

End simple.

Lemma astar_nodup (grid : list (list bool)) (start goal : pos)
    (path : list pos) :
  rectangular grid -> astar grid start goal = Done path -> NoDup path.
Proof.
  intros [Hw Hrect]%rectangular_rows. unfold astar, astar_fuel.
  destruct (in_bounds _ _ start) eqn:Hs; cbn [negb orb];
    [|intros [= <-]; apply NoDup_nil_2].
  destruct (in_bounds _ _ goal) eqn:Hg; cbn [negb orb];
    [|intros [= <-]; apply NoDup_nil_2].
  case_bool_decide as Heq; [intros [= <-]; apply NoDup_singleton|].
  destruct (cell grid goal) as [[|]| |]; cbn [mbind outcome_bind negb];
    try done; [|intros [= <-]; apply NoDup_nil_2].
  intros Hrun.
  apply (search_nodup grid _ _ goal eq_refl Hw Hrect _ _ _ Hrun).
  by apply init_inv.
Qed.

(** A list of distinct cells of the mask has at most [w * h] entries. *)
Lemma nodup_length (w h : Z) (path : list pos) :
  0 <= w -> 0 <= h -> NoDup path ->
  (forall c, c ∈ path -> in_bounds w h c = true) ->
  Z.of_nat (length path) <= w * h.
Proof.
  intros Hw Hh Hnd Hin.
  pose proof (size_inside w h (list_to_set path) Hw Hh) as Hsize.
  rewrite size_list_to_set in Hsize by done.
  assert (0 <= w * h) by lia.
  cut (length path <= Z.to_nat (w * h))%nat; [lia|].
  apply Hsize. intros p Hp%elem_of_list_to_set. by apply Hin.
Qed.

(** One step changes the Manhattan distance to any cell by at most 1. *)
Lemma heuristic_step (a b : pos) (d : Z * Z) :
  d ∈ directions -> heuristic a b <= 1 + heuristic (next a d) b.
Proof.
  unfold directions, heuristic, next. destruct a as [ax ay], b as [bx by_].
  rewrite !elem_of_cons, elem_of_nil.
  intros [->|[->|[->|[->|[]]]]]; simpl; lia.
Qed.

(** The Manhattan distance never overestimates: a walk from [a] to [b]
    has at least [heuristic a b] steps. *)
Lemma walk_heuristic (grid : list (list bool)) (w h : Z) (path : list pos)
    (a b : pos) :
  walk grid w h path -> head path = Some a -> last path = Some b ->
  heuristic a b + 1 <= Z.of_nat (length path).
Proof.
  revert a. induction path as [|x [|y rest] IH]; intros a Hwalk Hhead Hlast.
  - done.
  - injection Hhead as <-. injection Hlast as <-.
    unfold heuristic. simpl. lia.
  - injection Hhead as <-.
    destruct Hwalk as ((d & Hd & Hy) & _ & _ & Hrest).
    specialize (IH y Hrest eq_refl Hlast).
    pose proof (heuristic_step x b d Hd) as Hstep. rewrite <- Hy in Hstep.
    change (length (x :: y :: rest)) with (S (length (y :: rest))). lia.
Qed.

End PathFacts.

(** * The visibility pass, exactly *)

Module VisibilityFacts.
Import Dungeon Visibility GridFacts SightFacts FovFacts.

Lemma lit_reflagged (d : t) (st : t * gset pos) : lit d st -> reflagged d st.1.
Proof.
  intros (Hwf & Hfr & Htiles). split_and!; [done..|].
  intros x y v Hv. eexists. split; [by apply Htiles|]. simpl.
  split; [done|]. by intros ->.
Qed.

(** The first loop of [compute_fov] clears the [visible] flags and
    touches nothing else. *)
Lemma reset_exact (d : t) :
  wf d ->
  exists d1,
    for_each (range 0 (height d))
      (fun y => for_each (range 0 (width d))
                  (fun x d => modify d x y (set_visible false))) d = Done d1
    /\ reflagged d d1
    /\ forall x y v, tile_at d x y = Some v ->
         tile_at d1 x y = Some (set_visible false v).
Proof.
  intros Hwf. destruct (reset_spec d Hwf) as (d1 & Hrun & Hre & Hdark).
  exists d1. split_and!; [done..|].
  set (J := fun d1 : t => wf d1 /\ same_frame d d1
    /\ forall x y v, tile_at d x y = Some v ->
         tile_at d1 x y = Some v \/ tile_at d1 x y = Some (set_visible false v)).
  assert (J d1) as (_ & _ & HJ).
  { apply (for_each_post J _ _ _ _ Hrun).
    { split_and!; [done|apply same_frame_refl|auto]. }
    intros y0 da db Hy0%elem_of_range HJa Hrow.
    apply (for_each_post J _ _ _ _ Hrow); [done|].
    intros x0 dc dd Hx0%elem_of_range (Hwfc & Hfrc & Hc) Hm.
    destruct (modify_spec dc x0 y0 (set_visible false) Hwfc)
      as (dd' & vc & Hm' & Hvc & Hwfd & Hfrd & _ & _ & Hat).
    { rewrite (same_frame_inside d dc) by done. apply inside_spec. lia. }
    rewrite Hm in Hm'. injection Hm' as <-.
    split_and!; [done|by eapply same_frame_trans|].
    intros x y v Hv. rewrite Hat. case_bool_decide as Heq; [|by apply Hc].
    injection Heq as -> ->. right.
    destruct (Hc _ _ _ Hv) as [Hs|Hs]; rewrite Hs in Hvc;
      by injection Hvc as <-. }
  intros x y v Hv. destruct (HJ _ _ _ Hv) as [Hs|Hs]; [|done].
  rewrite Hs. f_equal. pose proof (Hdark _ _ _ Hs) as Hvis.
  destruct v. simpl in *. by subst.
Qed.

(** The test of the scan does not depend on the flags set so far. *)
Lemma sight_lit (d : t) (st : t * gset pos) (px py x y : Z) :
  wf d -> lit d st ->
  has_line_of_sight st.1 px py x y = has_line_of_sight d px py x y.
Proof.
  intros Hwf Hlit. pose proof (lit_reflagged _ _ Hlit) as Hre.
  apply has_line_of_sight_ext; [done|intros; by apply reflagged_inside|].
  intros x' y' v Hv. destruct Hre as (_ & _ & Ht).
  destruct (Ht _ _ _ Hv) as (v' & ? & ? & _). by exists v'.
Qed.

Lemma look_lit (d : t) (px py radius x y : Z) (st : t * gset pos) :
  wf d -> inside d x y = true -> lit d st ->
  exists st', look px py radius y x st = Done st' /\ lit d st'
    /\ st'.2 = if sees d px py radius x y then {[(x, y)]} ∪ st.2 else st.2.
Proof.
  intros Hwf Hin Hlit. unfold look, sees.
  destruct (beyond_radius px py x y radius); [by exists st|].
  rewrite (sight_lit d st) by done.
  destruct (has_line_of_sight_total d px py x y Hwf) as [los Hlos].
  run Hlos. destruct los; [|by exists st].
  pose proof (lit_reflagged _ _ Hlit) as Hre.
  destruct Hlit as (_ & _ & Htiles).
  destruct (reflagged_modify d st.1 x y (set_visible true) Hre)
    as (d1 & v & Hm1 & Hre1 & Hv & Hat1); [done..|].
  run Hm1.
  destruct (reflagged_modify d d1 x y (set_explored true) Hre1)
    as (d2 & v1 & Hm2 & Hre2 & Hv1 & Hat2); [done..|].
  run Hm2. eexists. split; [done|]. split; [|done].
  rewrite Hat1, bool_decide_eq_true_2 in Hv1 by done. injection Hv1 as <-.
  destruct Hre2 as (Hwf2 & Hfr2 & _).
  split_and!; simpl; [done..|].
  intros x' y' v' Hv'. rewrite Hat2. case_bool_decide as Heq.
  - injection Heq as -> ->. rewrite (Htiles _ _ _ Hv') in Hv.
    injection Hv as <-. simpl. rewrite (bool_decide_eq_true_2 (_ ∈ _ ∪ _)) by set_solver.
    unfold shown, set_explored, set_visible. simpl.
    by rewrite orb_true_r.
  - rewrite Hat1, bool_decide_eq_false_2 by done.
    rewrite (Htiles _ _ _ Hv'). do 2 f_equal.
    apply bool_decide_ext. set_solver.
Qed.

Lemma scan_row (d : t) (px py radius y : Z) (xs : list Z) :
  wf d -> 0 <= y < height d ->
  (forall x, x ∈ xs -> 0 <= x < width d) ->
  forall st, lit d st ->
  exists st', for_each xs (look px py radius y) st = Done st' /\ lit d st'
    /\ forall p, p ∈ st'.2 <->
         p ∈ st.2
         \/ (p.2 = y /\ p.1 ∈ xs /\ sees d px py radius p.1 p.2 = true).
Proof.
  intros Hwf Hy. induction xs as [|x xs IH]; intros Hxs st Hlit.
  - exists st. split_and!; [done..|]. intros p. split; [by left|].
    intros [?|(_ & []%elem_of_nil & _)]; done.
  - destruct (look_lit d px py radius x y st Hwf) as (st1 & Hlook & Hlit1 & Hset1);
      [apply inside_spec; split; [apply Hxs; left|done]|done|].
    destruct (IH (fun x' Hx' => Hxs x' (list_elem_of_further _ _ _ Hx')) st1 Hlit1)
      as (st2 & Hrest & Hlit2 & Hset2).
    exists st2. simpl. run Hlook. split_and!; [done..|].
    intros p. rewrite Hset2, Hset1, elem_of_cons.
    destruct (sees d px py radius x y) eqn:Hsees.
    + rewrite elem_of_union, elem_of_singleton. split.
      * intros [[->|?]|(? & ? & ?)]; [|by left|by right; auto].
        right. simpl. auto.
      * intros [?|(Hp2 & [Hp1|?] & Hs)]; [by left; right| |by right].
        left. left. destruct p. simpl in *. by subst.
    + split.
      * intros [?|(? & ? & ?)]; [by left|by right; auto].
      * intros [?|(Hp2 & [Hp1|?] & Hs)]; [by left| |by right].
        subst. congruence.
Qed.

Lemma scan_spec (d : t) (px py radius : Z) (ys xs : list Z) :
  wf d ->
  (forall y, y ∈ ys -> 0 <= y < height d) ->
  (forall x, x ∈ xs -> 0 <= x < width d) ->
  forall st, lit d st ->
  exists st',
    for_each ys (fun y => for_each xs (look px py radius y)) st = Done st'
    /\ lit d st'
    /\ forall p, p ∈ st'.2 <->
         p ∈ st.2
         \/ (p.2 ∈ ys /\ p.1 ∈ xs /\ sees d px py radius p.1 p.2 = true).
Proof.
  intros Hwf Hys Hxs. induction ys as [|y ys IH]; intros st Hlit.
  - exists st. split_and!; [done..|]. intros p. split; [by left|].
    intros [?|([]%elem_of_nil & _)]; done.
  - destruct (scan_row d px py radius y xs Hwf) with (st := st)
      as (st1 & Hrow & Hlit1 & Hset1); [apply Hys; left|done..|].
    destruct (IH (fun y' Hy' => Hys y' (list_elem_of_further _ _ _ Hy')) st1 Hlit1)
      as (st2 & Hrest & Hlit2 & Hset2).
    exists st2. simpl. run Hrow. split_and!; [done..|].
    intros p. rewrite Hset2, Hset1, elem_of_cons. naive_solver.
Qed.

(** What [compute_fov] returns for an observer inside the grid. *)
Lemma compute_fov_lit (d : t) (px py radius : Z) :
  wf d -> inside d px py = true ->
  exists st, compute_fov d px py radius = Done st /\ lit d st
    /\ forall x y, (x, y) ∈ st.2 <->
         (x, y) = (px, py)
         \/ (inside d x y = true /\ sees d px py radius x y = true).
Proof.
  intros Hwf Hin. unfold compute_fov.
  destruct (reset_exact d Hwf) as (d1 & Hreset & Hre1 & Hdark).
  run Hreset.
  destruct (reflagged_modify d d1 px py (set_visible true) Hre1)
    as (d2 & v1 & Hm2 & Hre2 & Hv1 & Hat2); [done..|].
  run Hm2.
  destruct (reflagged_modify d d2 px py (set_explored true) Hre2)
    as (d3 & v2 & Hm3 & Hre3 & Hv2 & Hat3); [done..|].
  run Hm3.
  rewrite Hat2, bool_decide_eq_true_2 in Hv2 by done. injection Hv2 as <-.
  assert (lit d (d3, {[(px, py)]} ∪ ∅)) as Hstart.
  { destruct Hre3 as (Hwf3 & Hfr3 & _). split_and!; simpl; [done..|].
    intros x y v Hv. rewrite Hat3. case_bool_decide as Heq.
    - injection Heq as -> ->. rewrite (Hdark _ _ _ Hv) in Hv1.
      injection Hv1 as <-. rewrite bool_decide_eq_true_2 by set_solver.
      unfold shown, set_explored, set_visible. simpl. by rewrite orb_true_r.
    - rewrite Hat2, bool_decide_eq_false_2 by done.
      rewrite (Hdark _ _ _ Hv).
      rewrite (bool_decide_eq_false_2 (_ ∈ _)) by set_solver.
      unfold shown, set_visible. by rewrite orb_false_r. }
  destruct Hre3 as (_ & (Hw3 & Hh3 & _) & _). rewrite Hw3, Hh3.
  destruct (scan_spec d px py radius
    (range (Z.max 0 (py - radius)) (Z.min (height d) (py + radius + 1)))
    (range (Z.max 0 (px - radius)) (Z.min (width d) (px + radius + 1)))
    Hwf) with (st := (d3, ({[(px, py)]} ∪ ∅ : gset pos)))
    as (st & Hscan & Hlit & Hset); [| |done|].
  { intros y Hy%elem_of_range. lia. }
  { intros x Hx%elem_of_range. lia. }
  exists st. split_and!; [done..|].
  intros x y. rewrite Hset. simpl. rewrite !elem_of_range.
  rewrite elem_of_union, elem_of_singleton. split.
  - intros [[?|[]%elem_of_empty]|(Hy & Hx & Hs)]; [by left|right].
    split; [|done]. apply inside_spec. lia.
  - intros [?|[Hxy%inside_spec Hs]]; [by left; left|right].
    assert (0 <= radius
            /\ (x - px) * (x - px) + (y - py) * (y - py) <= radius * radius)
      as [Hr Hd].
    { unfold sees, beyond_radius in Hs.
      apply andb_true_iff in Hs as [Hs%negb_true_iff _].
      by apply orb_false_iff in Hs as [Hr%Z.ltb_ge Hs%Z.ltb_ge]. }
    pose proof (Z.square_nonneg (x - px)). pose proof (Z.square_nonneg (y - py)).
    assert (- radius <= x - px <= radius).
    { destruct (Z.le_gt_cases (x - px) radius),
        (Z.le_gt_cases (- radius) (x - px)); try lia; nia. }
    assert (- radius <= y - py <= radius).
    { destruct (Z.le_gt_cases (y - py) radius),
        (Z.le_gt_cases (- radius) (y - py)); try lia; nia. }
    simpl. split; [lia|]. split; [lia|done].
Qed.

(** Showing a tile twice with the same light is showing it once. *)
Lemma shown_twice (v : Tile) (b : bool) : shown (shown v b) b = shown v b.
Proof. unfold shown. simpl. by destruct (explored v), b. Qed.

Lemma sees_lit (d : t) (st : t * gset pos) (px py radius x y : Z) :
  wf d -> lit d st ->
  sees st.1 px py radius x y = sees d px py radius x y.
Proof. intros Hwf Hlit. unfold sees. by rewrite (sight_lit d st). Qed.

(** A round of the walk at a cell that does not block. *)
Lemma los_walk_open (d : t) (fuel : nat) (x0 y0 x1 y1 dx dy sx sy err : Z) :
  wf d ->
  (forall v, tile_at d x0 y0 = Some v -> is_transparent v = true) ->
  (x0, y0) <> (x1, y1) ->
  los_walk (S fuel) d x0 y0 x1 y1 dx dy sx sy err =
  los_walk fuel d
    (if - dy <? 2 * err then x0 + sx else x0)
    (if 2 * err <? dx then y0 + sy else y0)
    x1 y1 dx dy sx sy
    ((if - dy <? 2 * err then err - dy else err)
     + (if 2 * err <? dx then dx else 0)).
Proof.
  intros Hwf Hopen Hne. rewrite los_walk_S.
  assert ((x0 =? x1) && (y0 =? y1) = false) as ->.
  { apply andb_false_iff.
    destruct (Z.eqb_spec x0 x1), (Z.eqb_spec y0 y1); auto. by subst. }
  assert ((if inside d x0 y0 then
             v ← tile d x0 y0;
             Done (negb (is_transparent v) && negb false)
           else Done false) = Done false) as ->.
  { destruct (inside d x0 y0) eqn:Hin; [|done].
    destruct (tile_inside d x0 y0 Hwf Hin) as (v & Hv & Hat).
    run Hv. by rewrite (Hopen v Hat). }
  cbn [mbind outcome_bind].
  destruct (- dy <? 2 * err), (2 * err <? dx); f_equal; lia.
Qed.

Lemma los_walk_here (d : t) (fuel : nat) (x1 y1 dx dy sx sy err : Z) :
  los_walk (S fuel) d x1 y1 x1 y1 dx dy sx sy err = Done true.
Proof. rewrite los_walk_S. by rewrite !Z.eqb_refl. Qed.

(** From a cell that does not block, the eight cells around it are in
    sight. *)
Lemma has_line_of_sight_adjacent (d : t) (x0 y0 x1 y1 : Z) :
  wf d ->
  (forall v, tile_at d x0 y0 = Some v -> is_transparent v = true) ->
  Z.abs (x1 - x0) <= 1 -> Z.abs (y1 - y0) <= 1 ->
  has_line_of_sight d x0 y0 x1 y1 = Done true.
Proof.
  intros Hwf Hopen Hx Hy. unfold has_line_of_sight. cbv zeta.
  assert (x1 = x0 + (if x0 <? x1 then 1 else -1) * Z.abs (x1 - x0)) as Htx
    by (destruct (Z.ltb_spec x0 x1); lia).
  assert (y1 = y0 + (if y0 <? y1 then 1 else -1) * Z.abs (y1 - y0)) as Hty
    by (destruct (Z.ltb_spec y0 y1); lia).
  revert Htx Hty.
  generalize (if x0 <? x1 then 1 else -1) (if y0 <? y1 then 1 else -1).
  intros sx sy Htx Hty.
  assert (Z.abs (x1 - x0) = 0 \/ Z.abs (x1 - x0) = 1) as [Hdx|Hdx] by lia;
    assert (Z.abs (y1 - y0) = 0 \/ Z.abs (y1 - y0) = 1) as [Hdy|Hdy] by lia;
    rewrite Hdx, Hdy in *.
  - replace x0 with x1 at 1 by lia. replace y0 with y1 at 1 by lia.
    apply los_walk_here.
  - rewrite los_walk_open; [|done..|intros [= ]; lia].
    change (Z.to_nat (0 + 1)) with 1%nat. simpl.
    replace (y0 + sy) with y1 by lia. replace x0 with x1 by lia.
    by rewrite !Z.eqb_refl.
  - rewrite los_walk_open; [|done..|intros [= ]; lia].
    change (Z.to_nat (1 + 0)) with 1%nat. simpl.
    replace (x0 + sx) with x1 by lia. replace y0 with y1 by lia.
    by rewrite !Z.eqb_refl.
  - rewrite los_walk_open; [|done..|intros [= ]; lia].
    change (Z.to_nat (1 + 1)) with 2%nat. simpl.
    replace (x0 + sx) with x1 by lia. replace (y0 + sy) with y1 by lia.
    by rewrite !Z.eqb_refl.
Qed.

End VisibilityFacts.

(** * The layout of generated floors *)

Module LayoutFacts.
Import Dungeon Layout GridFacts GenFacts ConnectFacts GenerateFacts.

(** ** Rooms *)

Lemma overlaps_spec (a b : Room.t) (k : Z) :
  Room.overlaps a b k = true <->
  Room.x a < Room.x b + Room.width b + k
  /\ Room.x b < Room.x a + Room.width a + k
  /\ Room.y a < Room.y b + Room.height b + k
  /\ Room.y b < Room.y a + Room.height a + k.
Proof. unfold Room.overlaps. rewrite !andb_true_iff, !Z.ltb_lt. tauto. Qed.

Lemma overlaps_sym (a b : Room.t) (k : Z) :
  Room.overlaps a b k = Room.overlaps b a k.
Proof. apply eq_iff_eq_true. rewrite !overlaps_spec. tauto. Qed.

Lemma overlaps_geometry (a a' b b' : Room.t) (k : Z) :
  geometry a = geometry a' -> geometry b = geometry b' ->
  Room.overlaps a b k = Room.overlaps a' b' k.
Proof.
  unfold geometry, Room.overlaps. intros [= -> -> -> ->] [= -> -> -> ->]. done.
Qed.

Lemma interval_near (a wa b wb k : Z) :
  0 < wa -> 0 < wb -> 0 <= k ->
  a < b + wb + k -> b < a + wa + k ->
  exists p q, a <= p < a + wa /\ b <= q < b + wb /\ Z.abs (p - q) <= k.
Proof.
  intros Hwa Hwb Hk H1 H2.
  destruct (Z.le_gt_cases a (b + wb - 1)), (Z.le_gt_cases b (a + wa - 1)).
  - destruct (Z.le_gt_cases a b).
    + exists b, b. lia.
    + exists a, a. lia.
  - exists (a + wa - 1), b. lia.
  - exists a, (b + wb - 1). lia.
  - lia.
Qed.

(** Two rooms overlap with buffer [k] exactly when a cell of the one
    and a cell of the other are at most [k] apart in x and in y. *)
Lemma overlaps_near (a b : Room.t) (k : Z) :
  0 < Room.width a -> 0 < Room.height a ->
  0 < Room.width b -> 0 < Room.height b -> 0 <= k ->
  (Room.overlaps a b k = true <->
   exists p q, contains a p /\ contains b q
     /\ Z.abs (p.1 - q.1) <= k /\ Z.abs (p.2 - q.2) <= k).
Proof.
  intros Hwa Hha Hwb Hhb Hk. rewrite overlaps_spec. unfold contains. split.
  - intros (H1 & H2 & H3 & H4).
    destruct (interval_near (Room.x a) (Room.width a) (Room.x b) (Room.width b) k)
      as (p1 & q1 & ? & ? & ?); [done..|].
    destruct (interval_near (Room.y a) (Room.height a) (Room.y b) (Room.height b) k)
      as (p2 & q2 & ? & ? & ?); [done..|].
    by exists (p1, p2), (q1, q2).
  - intros ([p1 p2] & [q1 q2] & Ha & Hb & Hx & Hy). simpl in *. lia.
Qed.

Lemma fits_center (lo hi : Z) (d : t) (r : Room.t) :
  0 <= lo -> fits lo hi d r ->
  interior d (Room.center r).1 (Room.center r).2.
Proof.
  intros Hlo (Hw & Hh & Hx & Hy). unfold interior, Room.center. simpl.
  pose proof (Z.div_pos (Room.width r) 2).
  pose proof (Z.div_pos (Room.height r) 2).
  assert (Room.width r `div` 2 <= Room.width r)
    by (apply Z.div_le_upper_bound; lia).
  assert (Room.height r `div` 2 <= Room.height r)
    by (apply Z.div_le_upper_bound; lia).
  lia.
Qed.

Lemma shape_lookup (d d' : t) (i : nat) (r' : Room.t) :
  shape d' = shape d -> rooms d' !! i = Some r' ->
  exists r, rooms d !! i = Some r /\ geometry r = geometry r'.
Proof.
  unfold shape. intros Hs Hr'.
  assert ((geometry <$> rooms d) !! i = Some (geometry r')) as Hi.
  { rewrite <- Hs, list_lookup_fmap, Hr'. done. }
  rewrite list_lookup_fmap in Hi.
  destruct (rooms d !! i) as [r|]; [|done].
  exists r. split; [done|]. simpl in Hi. congruence.
Qed.

Lemma shape_alter (d : t) (i : nat) (f : Room.t -> Room.t) :
  (forall r, geometry (f r) = geometry r) ->
  shape (update_room d i f) = shape d.
Proof.
  intros Hf. unfold shape, update_room. simpl.
  rewrite (list_fmap_alter _ f id).
  - by apply list_alter_id.
  - apply Forall_forall. intros r _. apply Hf.
Qed.

(** [tidy] looks at the sizes, the tiles and the geometry of the rooms
    only. *)
Lemma tidy_transfer (lo hi : Z) (d d' : t) :
  tidy lo hi d -> wf d' ->
  width d' = width d -> height d' = height d -> shape d' = shape d ->
  (forall x y v, tile_at d' x y = Some v ->
     type v = WALL \/ (type v = FLOOR /\ interior d x y)) ->
  tidy lo hi d'.
Proof.
  intros [Hwf Htiles Hfits Hapart] Hwf' Hw Hh Hs Ht. split.
  - done.
  - intros x y v Hv. unfold interior. rewrite Hw, Hh. by apply Ht.
  - intros r' [i Hi]%list_elem_of_lookup.
    destruct (shape_lookup d d' i r' Hs Hi) as (r & Hr & Hg).
    pose proof (Hfits r (list_elem_of_lookup_2 _ _ _ Hr)) as Hfit.
    unfold geometry in Hg. injection Hg as Hx Hy Hwd Hht.
    unfold fits in *. rewrite Hw, Hh, <- Hx, <- Hy, <- Hwd, <- Hht. done.
  - intros i j ri' rj' Hij Hi Hj.
    destruct (shape_lookup d d' i ri' Hs Hi) as (ri & Hri & Hgi).
    destruct (shape_lookup d d' j rj' Hs Hj) as (rj & Hrj & Hgj).
    rewrite <- (overlaps_geometry ri ri' rj rj') by done.
    by apply (Hapart i j).
Qed.

Lemma tidy_update_room (lo hi : Z) (d : t) (i : nat) (f : Room.t -> Room.t) :
  (forall r, geometry (f r) = geometry r) ->
  tidy lo hi d -> tidy lo hi (update_room d i f).
Proof.
  intros Hf Ht. apply (tidy_transfer lo hi d); try done.
  - apply Ht.
  - by apply shape_alter.
  - apply Ht.
Qed.

(** ** Carving *)

Lemma store_tidy (lo hi : Z) (d d' : t) (x y : Z) (v : Tile) :
  tidy lo hi d -> interior d x y -> type v = FLOOR ->
  store d x y v = Done d' ->
  tidy lo hi d' /\ same_frame d d'.
Proof.
  intros Ht Hint Hv Hst.
  destruct (store_spec d x y v (tidy_wf _ _ _ Ht))
    as (d'' & Hst' & Hwf' & Hfr & _ & _ & Hat).
  { apply inside_spec. unfold interior in Hint. lia. }
  rewrite Hst in Hst'. injection Hst' as <-.
  pose proof Hfr as (Hw & Hh & Hr). split; [|done].
  apply (tidy_transfer lo hi d); try done.
  - unfold shape. by rewrite Hr.
  - intros x' y' v'. rewrite Hat. case_bool_decide as Heq.
    + intros [= <-]. injection Heq as -> ->. by right.
    + apply Ht.
Qed.

Lemma carve_tidy (lo hi : Z) (d d' : t) (cell : Z -> Z * Z) (ks : list Z) :
  for_each ks (fun k d => store d (cell k).1 (cell k).2 (new_tile FLOOR)) d
    = Done d' ->
  tidy lo hi d ->
  (forall k, k ∈ ks -> interior d (cell k).1 (cell k).2) ->
  tidy lo hi d' /\ same_frame d d'.
Proof.
  intros Hrun Ht Hint.
  apply (for_each_post (fun d1 => tidy lo hi d1 /\ same_frame d d1)
           _ _ _ _ Hrun).
  { split; [done|apply same_frame_refl]. }
  intros k d1 d2 Hk [Ht1 Hfr1] Hst.
  destruct (store_tidy lo hi d1 d2 (cell k).1 (cell k).2 (new_tile FLOOR) Ht1)
    as [Ht2 Hfr2]; [|done..|].
  { destruct Hfr1 as (Hw & Hh & _). unfold interior. rewrite Hw, Hh.
    by apply Hint. }
  split; [done|by eapply same_frame_trans].
Qed.

Lemma create_h_tunnel_tidy (lo hi : Z) (d d' : t) (x1 x2 y : Z) :
  create_h_tunnel d x1 x2 y = Done d' -> tidy lo hi d ->
  interior d x1 y -> interior d x2 y ->
  tidy lo hi d' /\ same_frame d d'.
Proof.
  intros Hrun Ht [Hx1 Hy1] [Hx2 _].
  apply (carve_tidy lo hi d d' (fun x => (x, y)) _ Hrun Ht).
  intros x Hx%elem_of_range. split; simpl; lia.
Qed.

Lemma create_v_tunnel_tidy (lo hi : Z) (d d' : t) (y1 y2 x : Z) :
  create_v_tunnel d y1 y2 x = Done d' -> tidy lo hi d ->
  interior d x y1 -> interior d x y2 ->
  tidy lo hi d' /\ same_frame d d'.
Proof.
  intros Hrun Ht [Hx1 Hy1] [_ Hy2].
  apply (carve_tidy lo hi d d' (fun y => (x, y)) _ Hrun Ht).
  intros y Hy%elem_of_range. split; simpl; lia.
Qed.

Lemma interior_frame (d d' : t) (x y : Z) :
  same_frame d d' -> interior d x y -> interior d' x y.
Proof. intros (Hw & Hh & _). unfold interior. by rewrite Hw, Hh. Qed.

Lemma room_Done (d : t) (i : nat) (r : Room.t) :
  room d i = Done r -> rooms d !! i = Some r.
Proof. unfold room. destruct (rooms d !! i); [by intros [= ->]|done]. Qed.

Lemma connect_rooms_tidy (lo hi : Z) (i1 i2 : nat) (s s' : world) :
  connect_rooms i1 i2 s = Done s' -> 0 <= lo -> tidy lo hi s.1 ->
  tidy lo hi s'.1 /\ width s'.1 = width s.1 /\ height s'.1 = height s.1
  /\ shape s'.1 = shape s.1.
Proof.
  intros Hrun Hlo Ht. unfold connect_rooms in Hrun.
  apply bind_Done in Hrun as (room1 & Hr1%room_Done & Hrun).
  apply bind_Done in Hrun as (room2 & Hr2%room_Done & Hrun).
  pose proof (fits_center lo hi s.1 room1 Hlo
                (tidy_fits _ _ _ Ht _ (list_elem_of_lookup_2 _ _ _ Hr1))) as Hc1.
  pose proof (fits_center lo hi s.1 room2 Hlo
                (tidy_fits _ _ _ Ht _ (list_elem_of_lookup_2 _ _ _ Hr2))) as Hc2.
  destruct (Room.center room1) as [x1 y1], (Room.center room2) as [x2 y2].
  simpl in Hc1, Hc2.
  apply bind_Done in Hrun as ([h_first r] & _ & Hrun).
  apply bind_Done in Hrun as (d2 & Hdig & [= <-]).
  assert (tidy lo hi d2 /\ same_frame s.1 d2) as [Ht2 Hfr2].
  { destruct Hc1 as [Hx1 Hy1], Hc2 as [Hx2 Hy2]. destruct h_first.
    - apply bind_Done in Hdig as (d1 & Hh & Hv).
      destruct (create_h_tunnel_tidy lo hi _ _ _ _ _ Hh Ht) as [Ht1 Hfr1];
        [done..|].
      destruct (create_v_tunnel_tidy lo hi _ _ _ _ _ Hv Ht1) as [Ht2 Hfr2];
        [by apply (interior_frame s.1)..|].
      split; [done|by eapply same_frame_trans].
    - apply bind_Done in Hdig as (d1 & Hv & Hh).
      destruct (create_v_tunnel_tidy lo hi _ _ _ _ _ Hv Ht) as [Ht1 Hfr1];
        [done..|].
      destruct (create_h_tunnel_tidy lo hi _ _ _ _ _ Hh Ht1) as [Ht2 Hfr2];
        [by apply (interior_frame s.1)..|].
      split; [done|by eapply same_frame_trans]. }
  destruct Hfr2 as (Hw & Hh & Hr). simpl. split_and!; [|done..|].
  - apply tidy_update_room; [done|]. by apply tidy_update_room.
  - rewrite !shape_alter by done. unfold shape. by rewrite Hr.
Qed.

Lemma existsb_false {A} (f : A -> bool) (l : list A) (a : A) :
  existsb f l = false -> a ∈ l -> f a = false.
Proof.
  intros Hex Ha. destruct (f a) eqn:Hf; [|done].
  rewrite <- Hex. symmetry. apply existsb_exists. exists a.
  split; [by apply list_elem_of_In|done].
Qed.

Lemma add_room_tidy (lo hi : Z) (d d' : t) (new : Room.t) :
  add_room d new = Done d' -> tidy lo hi d ->
  fits lo hi d new ->
  existsb (fun other => Room.overlaps new other 1) (rooms d) = false ->
  tidy lo hi d' /\ width d' = width d /\ height d' = height d
  /\ rooms d' = rooms d ++ [new].
Proof.
  intros Hrun Ht Hfit Hfree. unfold add_room in Hrun.
  apply bind_Done in Hrun as (d1 & Hcarve & [= <-]).
  destruct Hfit as (Hwd & Hht & Hx & Hy).
  assert (tidy lo hi d1 /\ same_frame d d1) as [Ht1 (Hw & Hh & Hr)].
  { apply (for_each_post (fun d1 => tidy lo hi d1 /\ same_frame d d1)
             _ _ _ _ Hcarve).
    { split; [done|apply same_frame_refl]. }
    intros y d2 d3 Hy2%elem_of_range [Ht2 Hfr2] Hrow.
    destruct (carve_tidy lo hi d2 d3 (fun x => (x, y)) _ Hrow Ht2) as [Ht3 Hfr3].
    { intros x Hx2%elem_of_range. apply (interior_frame d); [done|].
      split; simpl; lia. }
    split; [done|by eapply same_frame_trans]. }
  simpl. split_and!; [|done..|by rewrite Hr].
  destruct Ht1 as [Hwf1 Htiles1 Hfits1 Hapart1]. split; simpl.
  - done.
  - done.
  - intros r [Hr'| ->%list_elem_of_singleton]%elem_of_app; [by apply Hfits1|].
    unfold fits. simpl. rewrite Hw, Hh. done.
  - rewrite Hr in *. intros i j ri rj Hij Hi Hj.
    apply lookup_app_Some in Hi as [Hi|[Hli Hi]];
      apply lookup_app_Some in Hj as [Hj|[Hlj Hj]].
    + by apply (Hapart1 i j).
    + apply list_lookup_singleton_Some in Hj as [_ <-].
      rewrite overlaps_sym.
      apply (existsb_false (fun other => Room.overlaps new other 1) _ ri Hfree).
      by eapply list_elem_of_lookup_2.
    + apply list_lookup_singleton_Some in Hi as [_ <-].
      apply (existsb_false (fun other => Room.overlaps new other 1) _ rj Hfree).
      by eapply list_elem_of_lookup_2.
    + apply list_lookup_singleton_Some in Hi as [Hi _].
      apply list_lookup_singleton_Some in Hj as [Hj _]. lia.
Qed.

Lemma place_rooms_tidy (attempts : nat)
    (max_rooms lo hi rooms_created : Z) (s s' : world) :
  place_rooms attempts max_rooms lo hi rooms_created s = Done s' ->
  0 <= lo -> tidy lo hi s.1 ->
  tidy lo hi s'.1 /\ width s'.1 = width s.1 /\ height s'.1 = height s.1
  /\ shape s.1 `prefix_of` shape s'.1.
Proof.
  intros Hrun Hlo. revert rooms_created s Hrun.
  induction attempts as [|n IH]; intros created s Hrun Ht.
  { by injection Hrun as <-. }
  simpl in Hrun. destruct (max_rooms <=? created); [by injection Hrun as <-|].
  apply bind_Done in Hrun as ([w r1] & Hw & Hrun).
  apply bind_Done in Hrun as ([h r2] & Hh & Hrun).
  apply bind_Done in Hrun as ([x r3] & Hx & Hrun).
  apply bind_Done in Hrun as ([y r4] & Hy & Hrun).
  apply randint_Done in Hw, Hh, Hx, Hy.
  destruct (existsb _ _) eqn:Hfree.
  { exact (IH _ (s.1, r4) Hrun Ht). }
  apply bind_Done in Hrun as (d1 & Hadd & Hrun).
  apply bind_Done in Hrun as (s1 & Hconn & Hrun).
  destruct (add_room_tidy lo hi _ _ _ Hadd Ht) as (Ht1 & Hw1 & Hh1 & Hrooms1);
    [done|done|].
  assert (tidy lo hi s1.1 /\ width s1.1 = width d1 /\ height s1.1 = height d1
          /\ shape s1.1 = shape d1) as (Ht2 & Hw2 & Hh2 & Hs2).
  { destruct (1 <? length (rooms d1))%nat.
    - apply bind_Done in Hconn as ([prev r5] & _ & Hconn).
      by apply (connect_rooms_tidy lo hi _ _ (d1, r5) s1 Hconn).
    - by injection Hconn as <-. }
  destruct (IH _ s1 Hrun Ht2) as (Ht3 & Hw3 & Hh3 & Hs3).
  split_and!; [done|congruence..|].
  etrans; [|exact Hs3]. rewrite Hs2. unfold shape. rewrite Hrooms1, fmap_app.
  by apply prefix_app_r.
Qed.

Lemma connect_all_tidy (lo hi : Z) (fuel : nat) (s s' : world) :
  connect_all fuel s = Done s' -> 0 <= lo -> tidy lo hi s.1 ->
  tidy lo hi s'.1 /\ width s'.1 = width s.1 /\ height s'.1 = height s.1
  /\ shape s'.1 = shape s.1.
Proof.
  intros Hrun Hlo. revert s Hrun.
  induction fuel as [|fuel IH]; intros s Hrun Ht; [done|].
  simpl in Hrun.
  destruct (forallb Room.connected (rooms s.1)); [by injection Hrun as <-|].
  case_bool_decide; [by injection Hrun as <-|].
  case_bool_decide; [by injection Hrun as <-|].
  apply bind_Done in Hrun as (s1 & Hstep & Hrest).
  assert (exists c u rng, connect_rooms c u (s.1, rng) = Done s1)
    as (c & u & rng & Hconn).
  { destruct (closest_pair _ _) as [[dist [c u]]|].
    - exists c, u, s.2. by destruct s.
    - apply bind_Done in Hstep as ([kc r1] & _ & Hstep).
      apply bind_Done in Hstep as ([ku r2] & _ & Hstep).
      apply bind_Done in Hstep as ([c rc] & _ & Hstep).
      apply bind_Done in Hstep as ([u ru] & _ & Hstep).
      by exists c, u, r2. }
  destruct (connect_rooms_tidy lo hi _ _ _ _ Hconn Hlo Ht)
    as (Ht1 & Hw1 & Hh1 & Hs1).
  destruct (IH s1 Hrest Ht1) as (Ht2 & Hw2 & Hh2 & Hs2).
  simpl in *. split_and!; [done|congruence..].
Qed.

Lemma ensure_connectivity_tidy (lo hi : Z) (s s' : world) :
  ensure_connectivity s = Done s' -> 0 <= lo -> tidy lo hi s.1 ->
  tidy lo hi s'.1 /\ width s'.1 = width s.1 /\ height s'.1 = height s.1
  /\ shape s'.1 = shape s.1.
Proof.
  intros Hrun Hlo Ht. unfold ensure_connectivity in Hrun.
  set (d0 := update_room
               (with_rooms s.1 (Room.set_connected false <$> rooms s.1))
               0 (Room.set_connected true)) in *.
  assert (shape d0 = shape s.1) as Hs0.
  { unfold d0. rewrite shape_alter by done. unfold shape. simpl.
    rewrite <- list_fmap_compose. by apply list_fmap_ext. }
  assert (tidy lo hi d0) as Ht0.
  { apply (tidy_transfer lo hi s.1); try done; apply Ht. }
  apply bind_Done in Hrun as (s1 & Hall & Hextra).
  destruct (connect_all_tidy lo hi _ _ _ Hall Hlo Ht0)
    as (Ht1 & Hw1 & Hh1 & Hs1).
  simpl in Hw1, Hh1, Hs1.
  cut (tidy lo hi s'.1 /\ width s'.1 = width s1.1
       /\ height s'.1 = height s1.1 /\ shape s'.1 = shape s1.1).
  { intros (? & ? & ? & ?). split_and!; [done|congruence..]. }
  apply (for_each_post
    (fun st : world => tidy lo hi st.1 /\ width st.1 = width s1.1
       /\ height st.1 = height s1.1 /\ shape st.1 = shape s1.1)
    _ _ _ _ Hextra); [done|].
  intros _ st st' _ (Hta & Hwa & Hha & Hsa) Hbody.
  apply bind_Done in Hbody as ([i1 r1] & _ & Hbody).
  apply bind_Done in Hbody as ([i2 r2] & _ & Hbody).
  case_bool_decide.
  - destruct (connect_rooms_tidy lo hi _ _ _ _ Hbody Hlo Hta)
      as (? & ? & ? & ?).
    simpl in *. split_and!; [done|congruence..].
  - by injection Hbody as <-.
Qed.

(** ** Stairs, doors and variants *)

Lemma same_fields_refl (d : t) : same_fields d d.
Proof. by split_and!. Qed.

Lemma same_fields_trans (d1 d2 d3 : t) :
  same_fields d1 d2 -> same_fields d2 d3 -> same_fields d1 d3.
Proof.
  intros (? & ? & ? & ? & ?) (? & ? & ? & ? & ?). split_and!; congruence.
Qed.

Lemma tile_Done_at (d : t) (x y : Z) (v : Tile) :
  wf d -> inside d x y = true -> tile d x y = Done v -> tile_at d x y = Some v.
Proof.
  intros Hwf Hin Hv. destruct (tile_inside d x y Hwf Hin) as (v' & Hv' & Hat).
  congruence.
Qed.

Lemma add_doors_furnished (s s' : world) :
  add_doors s = Done s' -> furnished s.1 ->
  furnished s'.1 /\ same_fields s.1 s'.1.
Proof.
  intros Hrun Hfur. unfold add_doors in Hrun.
  set (J := fun st : world => furnished st.1 /\ same_fields s.1 st.1).
  apply (for_each_post J _ _ _ _ Hrun); [split; [done|apply same_fields_refl]|].
  intros y st1 st2 Hy%elem_of_range Hst1 Hrow.
  apply (for_each_post J _ _ _ _ Hrow); [done|].
  intros x st st' Hx%elem_of_range [[Hwf Htiles Hstairs] Hsame] Hbody.
  pose proof Hsame as (Hw & Hh & _).
  assert (inside st.1 x y = true) as Hin by (apply inside_spec; lia).
  apply bind_Done in Hbody as (v & Hv%tile_Done_at & Hbody); [|done..].
  case_bool_decide as Hfloor; [|injection Hbody as <-; by split].
  apply bind_Done in Hbody as (walls & _ & Hbody).
  destruct (walls =? 2); [|injection Hbody as <-; by split].
  destruct (Random.random_lt 2 10 st.2) as [lucky r].
  destruct lucky; [|injection Hbody as <-; by split].
  apply bind_Done in Hbody as (diag & _ & Hbody).
  destruct (2 <=? diag); [|injection Hbody as <-; by split].
  apply bind_Done in Hbody as (d1 & Hstore & [= <-]).
  destruct (store_spec st.1 x y (new_tile DOOR) Hwf Hin)
    as (d1' & Hstore' & Hwf1 & (Hw1 & Hh1 & Hr1) & Hsd1 & Hps1 & Hat).
  rewrite Hstore in Hstore'. injection Hstore' as <-.
  split; simpl.
  - split.
    + done.
    + intros x' y' v'. rewrite Hat. unfold interior. rewrite Hw1, Hh1.
      case_bool_decide as Heq; [|apply Htiles].
      intros [= <-]. injection Heq as -> ->. right. split; [lia|]. auto.
    + intros x' y' v'. rewrite Hat, Hsd1.
      case_bool_decide as Heq; [|apply Hstairs].
      intros [= <-]. injection Heq as -> ->. simpl. split; [done|].
      intros Hs%(Hstairs _ _ _ Hv). congruence.
  - eapply same_fields_trans; [exact Hsame|]. by split_and!.
Qed.

Lemma add_floor_variants_furnished (s s' : world) :
  add_floor_variants s = Done s' -> furnished s.1 ->
  furnished s'.1 /\ same_fields s.1 s'.1.
Proof.
  intros Hrun Hfur. unfold add_floor_variants in Hrun.
  set (J := fun st : world => furnished st.1 /\ same_fields s.1 st.1).
  apply (for_each_post J _ _ _ _ Hrun); [split; [done|apply same_fields_refl]|].
  intros y st1 st2 Hy%elem_of_range Hst1 Hrow.
  apply (for_each_post J _ _ _ _ Hrow); [done|].
  intros x st st' Hx%elem_of_range [[Hwf Htiles Hstairs] Hsame] Hbody.
  pose proof Hsame as (Hw & Hh & _).
  assert (inside st.1 x y = true) as Hin by (apply inside_spec; lia).
  apply bind_Done in Hbody as (v & Hv & Hbody).
  case_bool_decide as Hfloor; [|injection Hbody as <-; by split].
  destruct (Random.random_lt 1 10 st.2) as [lucky r].
  destruct lucky; [|injection Hbody as <-; by split].
  apply bind_Done in Hbody as ([k r'] & _ & Hbody).
  apply bind_Done in Hbody as (d1 & Hmod & [= <-]).
  destruct (modify_spec st.1 x y (set_variant k) Hwf Hin)
    as (d1' & v0 & Hmod' & Hv0 & Hwf1 & (Hw1 & Hh1 & Hr1) & Hsd1 & Hps1 & Hat).
  rewrite Hmod in Hmod'. injection Hmod' as <-.
  split; simpl.
  - split.
    + done.
    + intros x' y' v'. rewrite Hat. unfold interior. rewrite Hw1, Hh1.
      case_bool_decide as Heq; [|apply Htiles].
      intros [= <-]. injection Heq as -> ->. apply (Htiles _ _ _ Hv0).
    + intros x' y' v'. rewrite Hat, Hsd1.
      case_bool_decide as Heq; [|apply Hstairs].
      intros [= <-]. injection Heq as -> ->. apply (Hstairs _ _ _ Hv0).
  - eapply same_fields_trans; [exact Hsame|]. by split_and!.
Qed.

Lemma tile_at_walls (d : t) (x y : Z) (v : Tile) :
  tile_at (with_grid d
             (replicate (Z.to_nat (height d))
                (replicate (Z.to_nat (width d)) (new_tile WALL)))) x y = Some v ->
  v = new_tile WALL.
Proof.
  intros (_ & _ & row & Hrow & Hv)%tile_at_Some. simpl in Hrow.
  apply lookup_replicate in Hrow as [-> _].
  by apply lookup_replicate in Hv as [-> _].
Qed.

(** What [generate] returns. *)
Lemma generate_layout (fuel : nat) (max_rooms lo hi : Z) (s s' : world) :
  generate fuel max_rooms lo hi s = Done s' -> 0 <= lo ->
  (forall r, r ∈ rooms s.1 -> fits lo hi s.1 r) -> apart (rooms s.1) ->
  width s'.1 = width s.1 /\ height s'.1 = height s.1
  /\ furnished s'.1
  /\ (forall r, r ∈ rooms s'.1 -> fits lo hi s'.1 r)
  /\ apart (rooms s'.1)
  /\ shape s.1 `prefix_of` shape s'.1
  /\ exists first last_room,
       rooms s'.1 !! 0%nat = Some first
       /\ last (rooms s'.1) = Some last_room
       /\ Room.room_type first = Room.entrance
       /\ Room.room_type last_room = Room.exit
       /\ player_start s'.1 = Some (Room.center first)
       /\ stairs_down s'.1 = Some (Room.center last_room).
Proof.
  intros Hrun Hlo. revert s Hrun.
  induction fuel as [|fuel IH]; intros s Hrun Hfits Hapart; [done|].
  simpl in Hrun.
  apply bind_Done in Hrun as (s1 & Hplace & Hrun).
  destruct (place_rooms_tidy _ _ _ _ _ _ _ Hplace Hlo)
    as (Ht1 & Hw1 & Hh1 & Hs1).
  { split; simpl.
    - split; simpl.
      + by rewrite length_replicate.
      + apply Forall_replicate. by rewrite length_replicate.
    - intros x y v ->%tile_at_walls. by left.
    - done.
    - done. }
  simpl in Hw1, Hh1. change (shape (with_grid s.1 _)) with (shape s.1) in Hs1.
  destruct (length (rooms s1.1) <? 5)%nat eqn:Hfew.
  { destruct (IH s1 Hrun) as (Hw & Hh & Hfur & Hf & Ha & Hs & Hmarks);
      [apply Ht1..|].
    split_and!; [congruence..|done|done|done| |done].
    by etrans. }
  apply Nat.ltb_ge in Hfew.
  apply bind_Done in Hrun as (s2 & Hens & Hrun).
  destruct (ensure_connectivity_tidy lo hi _ _ Hens Hlo Ht1)
    as (Ht2 & Hw2 & Hh2 & Hs2).
  assert (length (rooms s2.1) = length (rooms s1.1)) as Hlen2.
  { apply (f_equal length) in Hs2. unfold shape in Hs2.
    by rewrite !length_fmap in Hs2. }
  apply bind_Done in Hrun as (d3 & Hentrance & Hrun).
  apply bind_Done in Hrun as (d4 & Hexit & Hrun).
  apply bind_Done in Hrun as (s5 & Hdoors & Hrun).
  apply bind_Done in Hrun as (s6 & Hvariants & [= <-]).
  destruct (rooms s2.1) as [|first rest] eqn:Hrooms2; [simpl in Hlen2; lia|].
  injection Hentrance as <-.
  set (d3 := {| width := _ |}) in *.
  assert (rooms d3 = Room.set_room_type Room.entrance first :: rest) as Hrooms3.
  { unfold d3, update_room. simpl. by rewrite ?Hrooms2. }
  assert (tidy lo hi d3) as Ht3.
  { apply (tidy_transfer lo hi s2.1); [done| |done|done| |].
    - apply (tidy_wf _ _ _ Ht2).
    - unfold shape. by rewrite Hrooms3, Hrooms2.
    - apply (tidy_tiles _ _ _ Ht2). }
  assert ((1 <? length (rooms d3))%nat = true) as Hmany.
  { apply Nat.ltb_lt. rewrite Hrooms3. simpl in *. lia. }
  rewrite Hmany in Hexit.
  set (k := (length (rooms d3) - 1)%nat) in *.
  set (dk := update_room d3 k (Room.set_room_type Room.exit)) in *.
  assert (tidy lo hi dk) as Htk by by apply tidy_update_room.
  apply bind_Done in Hexit as (last_room & Hlast%room_Done & Hexit).
  pose proof (fits_center lo hi dk last_room Hlo
    (tidy_fits _ _ _ Htk _ (list_elem_of_lookup_2 _ _ _ Hlast))) as Hcenter.
  set (sx := (Room.center last_room).1) in *.
  set (sy := (Room.center last_room).2) in *.
  apply bind_Done in Hexit as (d' & Hstore & [= <-]).
  destruct (store_spec dk sx sy (new_tile STAIRS_DOWN) (tidy_wf _ _ _ Htk))
    as (d'' & Hstore' & Hwf' & (Hw' & Hh' & Hr') & _ & Hps' & Hat).
  { apply inside_spec. unfold interior in Hcenter. lia. }
  pose proof (eq_trans (eq_sym Hstore) Hstore') as Hsame'.
  injection Hsame' as <-. clear Hstore'.
  set (d4 := {| width := width d' |}) in *.
  assert (furnished d4) as Hfur4.
  { split.
    - done.
    - intros x y v. unfold interior. change (tile_at d4 x y) with (tile_at d' x y).
      simpl. rewrite Hat, Hw', Hh'. case_bool_decide as Heq.
      + intros [= <-]. injection Heq as -> ->. right. split; [done|]. auto.
      + intros Hv. destruct (tidy_tiles _ _ _ Htk _ _ _ Hv) as [?|[? ?]];
          [by left|right]. split; [done|]. auto.
    - intros x y v. change (tile_at d4 x y) with (tile_at d' x y).
      change (stairs_down d4) with (Some (sx, sy)).
      rewrite Hat. case_bool_decide as Heq.
      + intros [= <-]. injection Heq as -> ->. done.
      + intros Hv. split; [|congruence].
        destruct (tidy_tiles _ _ _ Htk _ _ _ Hv) as [?|[? ?]]; congruence. }
  destruct (add_doors_furnished (d4, s2.2) s5 Hdoors Hfur4)
    as [Hfur5 Hsame5].
  destruct (add_floor_variants_furnished s5 s6 Hvariants Hfur5)
    as [Hfur6 Hsame6].
  pose proof (same_fields_trans _ _ _ Hsame5 Hsame6)
    as (Hw6 & Hh6 & Hr6 & Hsd6 & Hps6).
  simpl in Hw6, Hh6, Hr6, Hsd6, Hps6.
  assert (rooms s6.1 = rooms dk) as Hrk by congruence.
  assert (width s6.1 = width dk /\ height s6.1 = height dk) as [Hwk Hhk]
    by (split; congruence).
  assert (shape dk = shape s1.1) as Hsk.
  { rewrite <- Hs2. unfold dk. rewrite shape_alter by done. unfold shape.
    by rewrite Hrooms3, ?Hrooms2. }
  split_and!.
  - rewrite Hwk. simpl. congruence.
  - rewrite Hhk. simpl. congruence.
  - done.
  - intros r. rewrite Hrk. intros Hr. unfold fits. rewrite Hwk, Hhk.
    by apply (tidy_fits _ _ _ Htk).
  - rewrite Hrk. apply Htk.
  - unfold shape at 2. rewrite Hrk. fold (shape dk). by rewrite Hsk.
  - assert (k <> 0%nat) as Hk.
    { unfold k. rewrite Hrooms3. simpl in *. lia. }
    exists (Room.set_room_type Room.entrance first), last_room.
    rewrite Hrk, Hsd6, Hps6, Hps'.
    assert (rooms dk = alter (Room.set_room_type Room.exit) k (rooms d3))
      as Hdk by done.
    split_and!.
    + by rewrite Hdk, list_lookup_alter_ne, Hrooms3.
    + rewrite last_lookup, <- Hlast. f_equal.
      rewrite Hdk, length_alter. unfold k. lia.
    + done.
    + revert Hlast. rewrite Hdk, list_lookup_alter_eq.
      destruct (rooms d3 !! k); simpl; [|done]. by intros [= <-].
    + done.
    + done.
Qed.

End LayoutFacts.

(** * Rooms, biomes, the player and the enemies *)

Module ActorFacts.
Import Dungeon Layout Actors GridFacts GenerateFacts RestartFacts.

(** ** [Room.random_position] and [Room.get_random_wall_position] *)

Lemma randint_empty (a b : Z) (r : Random.t) :
  b < a -> Random.randint a b r = Raised ValueError.
Proof. intros Hab. unfold Random.randint. by destruct (Z.leb_spec a b); [lia|]. Qed.

Lemma random_position_inside (r : Room.t) (edge_buffer : Z) (rng : Random.t) :
  2 * edge_buffer < Room.width r -> 2 * edge_buffer < Room.height r ->
  exists p rng', Room.random_position r edge_buffer rng = Done (p, rng')
    /\ Room.x r + edge_buffer <= p.1 <= Room.x r + Room.width r - 1 - edge_buffer
    /\ Room.y r + edge_buffer <= p.2 <= Room.y r + Room.height r - 1 - edge_buffer.
Proof.
  intros Hw Hh. unfold Room.random_position.
  destruct (randint_total (Room.x r + edge_buffer)
              (Room.x r + Room.width r - 1 - edge_buffer) rng)
    as (px & rng1 & Hpx & Hx); [lia|].
  run Hpx.
  destruct (randint_total (Room.y r + edge_buffer)
              (Room.y r + Room.height r - 1 - edge_buffer) rng1)
    as (py & rng2 & Hpy & Hy); [lia|].
  run Hpy. by exists (px, py), rng2.
Qed.

Lemma random_position_cramped (r : Room.t) (edge_buffer : Z) (rng : Random.t) :
  Room.width r <= 2 * edge_buffer \/ Room.height r <= 2 * edge_buffer ->
  Room.random_position r edge_buffer rng = Raised ValueError.
Proof.
  intros Hsmall. unfold Room.random_position.
  destruct (Z.le_gt_cases (Room.width r) (2 * edge_buffer)) as [Hw|Hw].
  { by rewrite randint_empty by lia. }
  destruct (randint_total (Room.x r + edge_buffer)
              (Room.x r + Room.width r - 1 - edge_buffer) rng)
    as (px & rng1 & Hpx & Hx); [lia|].
  run Hpx. by rewrite randint_empty by lia.
Qed.

Lemma get_random_wall_position_rim (r : Room.t) (rng : Random.t) :
  3 <= Room.width r -> 3 <= Room.height r ->
  exists p rng', Room.get_random_wall_position r rng = Done (p, rng')
    /\ contains r p
    /\ ((p.2 = Room.y r \/ p.2 = Room.y r + Room.height r - 1)
        /\ Room.x r < p.1 < Room.x r + Room.width r - 1
        \/ (p.1 = Room.x r \/ p.1 = Room.x r + Room.width r - 1)
           /\ Room.y r < p.2 < Room.y r + Room.height r - 1).
Proof.
  intros Hw Hh. unfold Room.get_random_wall_position, contains.
  destruct (randint_total 0 3 rng) as (wall & rng1 & Hwall & _); [lia|].
  run Hwall.
  destruct (randint_total (Room.x r + 1) (Room.x r + Room.width r - 2) rng1)
    as (px & rngx & Hpx & Hx); [lia|].
  destruct (randint_total (Room.y r + 1) (Room.y r + Room.height r - 2) rng1)
    as (py & rngy & Hpy & Hy); [lia|].
  destruct (wall =? 0); [|destruct (wall =? 1); [|destruct (wall =? 2)]].
  - run Hpx. exists (px, Room.y r), rngx. simpl. split; [done|lia].
  - run Hpy. exists (Room.x r + Room.width r - 1, py), rngy. simpl.
    split; [done|lia].
  - run Hpx. exists (px, Room.y r + Room.height r - 1), rngx. simpl.
    split; [done|lia].
  - run Hpy. exists (Room.x r, py), rngy. simpl. split; [done|lia].
Qed.

(** ** [determine_biome] *)

Lemma determine_biome_spec (level : Z) :
  determine_biome level =
  if level <? 5 then Biome.CAVERN
  else if level <? 10 then Biome.FOREST
  else if level <? 15 then Biome.ICE
  else if level <? 20 then Biome.LAVA
  else if level <? 25 then Biome.SHADOW
  else Biome.CRYSTAL.
Proof.
  unfold determine_biome, level_to_biome. simpl.
  repeat match goal with
         | |- context [?a <=? ?b] => destruct (Z.leb_spec a b)
         | |- context [?a <? ?b] => destruct (Z.ltb_spec a b)
         end; try lia; reflexivity.
Qed.

(** ** [Player.move] *)

Lemma move_spec (self : pos) (dx dy : Z) (d : Dungeon.t)
    (enemies : list Enemy.t) :
  wf d ->
  let r := Player.move self dx dy d enemies in
  (r = (self, Player.stay))
  \/ (r.1 = (self.1 + dx, self.2 + dy)
      /\ inside d r.1.1 r.1.2 = true
      /\ walkable d r.1
      /\ vacant enemies r.1
      /\ (r.2 = Player.next_floor /\ stairs_down d = Some r.1
          \/ r.2 = Player.moved /\ stairs_down d <> Some r.1)).
Proof.
  intros Hwf. unfold Player.move. cbv zeta.
  set (nx := self.1 + dx). set (ny := self.2 + dy).
  destruct ((nx <? 0) || (width d <=? nx) || (ny <? 0) || (height d <=? ny))
    eqn:Hout; [by left|].
  apply orb_false_iff in Hout as [Hout Hy2%Z.leb_gt].
  apply orb_false_iff in Hout as [Hout Hy1%Z.ltb_ge].
  apply orb_false_iff in Hout as [Hx1%Z.ltb_ge Hx2%Z.leb_gt].
  assert (inside d nx ny = true) as Hin by (apply inside_spec; lia).
  unfold is_position_valid. rewrite Hin.
  destruct (tile_inside d nx ny Hwf Hin) as (v & Hv & Hat). run Hv.
  destruct (is_walkable v) eqn:Hwalk; [|by left].
  destruct (existsb _ enemies) eqn:Hene; [by left|].
  right.
  assert (walkable d (nx, ny)) as Hw by by exists v.
  assert (vacant enemies (nx, ny)) as Hvac.
  { intros e He Hpos.
    pose proof (LayoutFacts.existsb_false _ _ e Hene He) as Hf. simpl in Hf.
    unfold Enemy.position in Hpos. injection Hpos as Hex Hey.
    rewrite Hex, Hey, !Z.eqb_refl in Hf. done. }
  case_bool_decide as Hst; simpl; split_and!; auto.
Qed.

Lemma stroll_snoc (self : pos) (steps : list (Z * Z)) (step : Z * Z)
    (d : Dungeon.t) (enemies : list Enemy.t) :
  stroll self (steps ++ [step]) d enemies
  = (Player.move (stroll self steps d enemies) step.1 step.2 d enemies).1.
Proof. unfold stroll. by rewrite foldl_snoc. Qed.

End ActorFacts.

(** * Enemies on the grid *)

Module EnemyFacts.
Import Dungeon Actors GridFacts.

Lemma window_inside (d : Dungeon.t) (p : pos) :
  Settings.GRID_WIDTH <= width d -> Settings.GRID_HEIGHT <= height d ->
  in_window p -> inside d p.1 p.2 = true.
Proof. intros Hw Hh [Hx Hy]. apply inside_spec. lia. Qed.

Lemma held_spec (others : list Enemy.t) (x y : Z) :
  existsb (fun enemy => Enemy.alive enemy && (Enemy.x enemy =? x)
                        && (Enemy.y enemy =? y)) others = false
  <-> unheld others (x, y).
Proof.
  split.
  - intros Hex e He Halive Hpos.
    pose proof (LayoutFacts.existsb_false _ _ e Hex He) as Hf. simpl in Hf.
    unfold Enemy.position in Hpos. injection Hpos as Hx Hy.
    by rewrite Halive, Hx, Hy, !Z.eqb_refl in Hf.
  - intros Hfree. destruct (existsb _ others) eqn:Hex; [|done].
    apply existsb_exists in Hex as (e & He%list_elem_of_In & Hf).
    apply andb_true_iff in Hf as [Hf Hy%Z.eqb_eq].
    apply andb_true_iff in Hf as [Halive Hx%Z.eqb_eq].
    destruct (Hfree e He Halive). unfold Enemy.position. by rewrite Hx, Hy.
Qed.

Lemma window_test (x y : Z) :
  (0 <=? x) && (x <? Settings.GRID_WIDTH) && (0 <=? y)
  && (y <? Settings.GRID_HEIGHT) = true <-> in_window (x, y).
Proof.
  unfold in_window. simpl.
  rewrite !andb_true_iff, !Z.leb_le, !Z.ltb_lt. tauto.
Qed.

Lemma is_valid_move_spec (others : list Enemy.t) (x y : Z) (d : Dungeon.t) :
  wf d -> Settings.GRID_WIDTH <= width d -> Settings.GRID_HEIGHT <= height d ->
  exists b, Enemy.is_valid_move others x y d = Done b
    /\ (b = true <->
        in_window (x, y) /\ floor_at d (x, y) /\ unheld others (x, y)).
Proof.
  intros Hwf Hw Hh. unfold Enemy.is_valid_move.
  destruct ((0 <=? x) && _ && _ && _) eqn:Hwin; simpl.
  2:{ exists false. split; [done|]. split; [done|].
      intros [Hin%window_test _]. congruence. }
  apply window_test in Hwin.
  destruct (tile_inside d x y Hwf (window_inside d (x, y) Hw Hh Hwin))
    as (v & Hv & Hat).
  run Hv. case_bool_decide as Hfloor; simpl.
  2:{ exists false. split; [done|]. split; [done|].
      intros (_ & (v' & Hv' & Hf) & _). simpl in Hv'. congruence. }
  destruct (existsb _ others) eqn:Hex.
  - exists false. split; [done|]. split; [done|].
    intros (_ & _ & Hfree%held_spec). congruence.
  - exists true. split; [done|]. split; [|done]. intros _.
    split_and!; [done|by exists v|by apply held_spec].
Qed.

Lemma follow_path_spec (self : Enemy.t) (others : list Enemy.t)
    (d : Dungeon.t) :
  wf d -> Settings.GRID_WIDTH <= width d -> Settings.GRID_HEIGHT <= height d ->
  exists self' moved, Enemy.follow_path self others d = Done (self', moved)
    /\ Enemy.alive self' = Enemy.alive self
    /\ (moved = true ->
        Enemy.path self = Enemy.position self' :: Enemy.path self'
        /\ in_window (Enemy.position self')
        /\ floor_at d (Enemy.position self')
        /\ unheld others (Enemy.position self')
        /\ Enemy.direction self' = Enemy.up)
    /\ (moved = false ->
        Enemy.position self' = Enemy.position self /\ Enemy.path self' = []).
Proof.
  intros Hwf Hw Hh. unfold Enemy.follow_path.
  destruct (Enemy.path self) as [|[nx ny] rest] eqn:Hpath.
  { exists self, false. by split_and!. }
  destruct (is_valid_move_spec others nx ny d Hwf Hw Hh) as (ok & Hok & Hiff).
  simpl. run Hok. destruct ok.
  - eexists _, true. split; [done|]. simpl. split; [done|].
    split; [|done]. intros _.
    destruct (proj1 Hiff eq_refl) as (Hin & Hfloor & Hfree).
    unfold Enemy.position. simpl. split_and!; [done..|].
    by rewrite !Z.sub_diag.
  - eexists _, false. split; [done|]. simpl. by split_and!.
Qed.

(** ** The mask of [calculate_path_to_player] *)

Lemma comprehension_fmap {A B} (xs : list A) (f : A -> outcome B)
    (g : A -> B) :
  (forall a, a ∈ xs -> f a = Done (g a)) ->
  comprehension xs f = Done (g <$> xs).
Proof.
  induction xs as [|a xs IH]; intros Hf; simpl; [done|].
  rewrite Hf by left. cbn [mbind outcome_bind].
  rewrite IH; [done|]. intros a' Ha'. apply Hf. by right.
Qed.

Lemma comprehension_cases {A B} (xs : list A) (f : A -> outcome B) (e : exn) :
  (forall a, a ∈ xs -> (exists b, f a = Done b) \/ f a = Raised e) ->
  (exists l, comprehension xs f = Done l) \/ comprehension xs f = Raised e.
Proof.
  induction xs as [|a xs IH]; intros Hf; simpl; [left; by eexists|].
  destruct (Hf a) as [[b ->]| ->]; [left| |by right].
  cbn [mbind outcome_bind].
  destruct IH as [[l ->]| ->]; [|left; by eexists|by right].
  intros a' Ha'. apply Hf. by right.
Qed.

Lemma comprehension_raises {A B} (xs : list A) (f : A -> outcome B)
    (e : exn) (a0 : A) :
  (forall a, a ∈ xs -> (exists b, f a = Done b) \/ f a = Raised e) ->
  a0 ∈ xs -> f a0 = Raised e ->
  comprehension xs f = Raised e.
Proof.
  induction xs as [|a xs IH]; intros Hf Ha0 Hraise; [by apply elem_of_nil in Ha0|].
  simpl. destruct (Hf a) as [[b Hb]|Hb]; [left| |by rewrite Hb].
  rewrite Hb. cbn [mbind outcome_bind].
  apply elem_of_cons in Ha0 as [->|Ha0]; [congruence|].
  rewrite IH; [done| |done..]. intros a' Ha'. apply Hf. by right.
Qed.

Lemma range_lookup (n i : Z) :
  0 <= i < n -> range 0 n !! Z.to_nat i = Some i.
Proof.
  intros Hi. unfold range. rewrite lookup_seqZ_lt by lia. f_equal. lia.
Qed.

Lemma range_length (n : Z) : length (range 0 n) = Z.to_nat n.
Proof. unfold range. rewrite length_seqZ. f_equal. lia. Qed.

Lemma base_mask (d : Dungeon.t) :
  wf d -> Settings.GRID_WIDTH <= width d -> Settings.GRID_HEIGHT <= height d ->
  exists m,
    comprehension (range 0 Settings.GRID_HEIGHT)
      (fun y' => comprehension (range 0 Settings.GRID_WIDTH)
         (fun x' => v ← Dungeon.tile d x' y';
                    Done (bool_decide (type v = FLOOR)))) = Done m
    /\ masks d [] m.
Proof.
  intros Hwf Hw Hh.
  set (g := fun x y : Z =>
    match tile_at d x y with
    | Some v => bool_decide (type v = FLOOR)
    | None => false
    end).
  exists ((fun y => (fun x => g x y) <$> range 0 Settings.GRID_WIDTH)
            <$> range 0 Settings.GRID_HEIGHT).
  split.
  - apply comprehension_fmap. intros y Hy%elem_of_range.
    apply comprehension_fmap. intros x Hx%elem_of_range.
    destruct (tile_inside d x y Hwf) as (v & Hv & Hat);
      [apply inside_spec; lia|].
    run Hv. unfold g. by rewrite Hat.
  - split_and!.
    + by rewrite length_fmap, range_length.
    + apply Forall_fmap, Forall_forall. intros y _. unfold compose.
      by rewrite length_fmap, range_length.
    + intros [x y] [Hx Hy]. cbn [fst snd] in *.
      exists ((fun x => g x y) <$> range 0 Settings.GRID_WIDTH), (g x y).
      split_and!.
      * by rewrite list_lookup_fmap, range_lookup.
      * by rewrite list_lookup_fmap, range_lookup.
      * unfold g, floor_at. cbn [fst snd].
        destruct (tile_at d x y) as [v|] eqn:Hv.
        -- rewrite bool_decide_eq_true. split.
           ++ intros Hf. split; [by exists v|]. by intros e ?%elem_of_nil.
           ++ intros [(v' & [= <-] & Hf) _]. done.
        -- split; [done|]. by intros [(v' & ? & _) _].
Qed.

Lemma occupy_spec (d : Dungeon.t) (seen : list Enemy.t) (e : Enemy.t)
    (m : list (list bool)) :
  masks d seen m ->
  exists m', Enemy.occupy e m = Done m' /\ masks d (seen ++ [e]) m'.
Proof.
  unfold masks, in_window, Enemy.occupy,
    Settings.GRID_WIDTH, Settings.GRID_HEIGHT.
  intros (Hlen & Hrows & Hcells).
  destruct (Enemy.alive e && _ && _ && _ && _) eqn:Htest.
  - apply andb_true_iff in Htest as [Htest Hx2%Z.ltb_lt].
    apply andb_true_iff in Htest as [Htest Hx1%Z.leb_le].
    apply andb_true_iff in Htest as [Htest Hy2%Z.ltb_lt].
    apply andb_true_iff in Htest as [Halive Hy1%Z.leb_le].
    destruct (Hcells (Enemy.position e)) as (row & b & Hrow & Hb & _);
      [by split|].
    simpl in Hrow, Hb.
    assert (length row = Z.to_nat 60) as Hlrow
      by by apply (proj1 (Forall_lookup _ _) Hrows _ _ Hrow).
    rewrite (py_index_nonneg m (Enemy.y e) row) by done.
    cbn [mbind outcome_bind].
    rewrite py_store_nonneg by lia. cbn [mbind outcome_bind].
    rewrite py_store_nonneg by lia.
    eexists. split; [done|]. split_and!.
    + by rewrite length_insert.
    + apply Forall_insert; [done|]. by rewrite length_insert.
    + intros [x y] Hp. destruct (Hcells (x, y) Hp) as (row' & b' & Hrow' & Hb' & Hiff).
      simpl in *. destruct (decide (y = Enemy.y e)) as [->|Hy].
      * rewrite Hrow in Hrow'. injection Hrow' as <-.
        exists (<[Z.to_nat (Enemy.x e) := false]> row).
        rewrite list_lookup_insert_eq by lia.
        destruct (decide (x = Enemy.x e)) as [->|Hx].
        -- exists false. rewrite list_lookup_insert_eq by lia.
           split_and!; [done..|]. split; [done|].
           intros [_ Hfree]. destruct (Hfree e); [|done..].
           apply elem_of_app. right. left.
        -- exists b'. rewrite list_lookup_insert_ne by lia.
           split_and!; [done..|]. rewrite Hiff. unfold unheld.
           setoid_rewrite elem_of_app. setoid_rewrite list_elem_of_singleton.
           split; intros [Hf Hfree]; (split; [done|]).
           ++ intros e' [?| ->] ?; [by apply Hfree|].
              unfold Enemy.position. congruence.
           ++ intros e' ? ?. apply Hfree; auto.
      * exists row', b'. rewrite list_lookup_insert_ne by lia.
        split_and!; [done..|]. rewrite Hiff. unfold unheld.
        setoid_rewrite elem_of_app. setoid_rewrite list_elem_of_singleton.
        split; intros [Hf Hfree]; (split; [done|]).
        -- intros e' [?| ->] ?; [by apply Hfree|].
           unfold Enemy.position. congruence.
        -- intros e' ? ?. apply Hfree; auto.
  - exists m. split; [done|]. split_and!; [done..|].
    intros p Hp. destruct (Hcells p Hp) as (row & b & Hrow & Hb & Hiff).
    exists row, b. split_and!; [done..|]. rewrite Hiff. unfold unheld.
    setoid_rewrite elem_of_app. setoid_rewrite list_elem_of_singleton.
    split; intros [Hf Hfree]; (split; [done|]).
    + intros e' [?| ->] Halive Hpos; [by eapply Hfree|].
      destruct Hp as [Hx Hy]. rewrite <- Hpos in Hx, Hy. simpl in Hx, Hy.
      rewrite Halive in Htest. simpl in Htest.
      assert ((0 <=? Enemy.y e) && (Enemy.y e <? 40)
              && (0 <=? Enemy.x e) && (Enemy.x e <? 60) = true)
        as Hin; [|congruence].
      rewrite !andb_true_iff, !Z.leb_le, !Z.ltb_lt. lia.
    + intros e' ? ?. apply Hfree; auto.
Qed.

Lemma path_mask_spec (others : list Enemy.t) (d : Dungeon.t) :
  wf d -> Settings.GRID_WIDTH <= width d -> Settings.GRID_HEIGHT <= height d ->
  exists m, Enemy.path_mask others d = Done m /\ masks d others m.
Proof.
  intros Hwf Hw Hh. unfold Enemy.path_mask.
  destruct (base_mask d Hwf Hw Hh) as (m0 & Hm0 & Hmasks0). run Hm0.
  apply (for_each_ind (fun seen m => masks d seen m)); [done|].
  intros seen e rest m _ Hm. by apply occupy_spec.
Qed.

Lemma masks_shape (d : Dungeon.t) (others : list Enemy.t)
    (m : list (list bool)) :
  masks d others m ->
  Pathfinding.rectangular m
  /\ Pathfinding.grid_width m = Settings.GRID_WIDTH
  /\ Pathfinding.grid_height m = Settings.GRID_HEIGHT.
Proof.
  intros (Hlen & Hrows & _).
  assert (Pathfinding.grid_width m = Settings.GRID_WIDTH) as Hw.
  { destruct m as [|row m]; [done|]. simpl.
    apply Forall_cons in Hrows as [-> _]. done. }
  split_and!; [|done|].
  - unfold Pathfinding.rectangular. rewrite Hw.
    eapply Forall_impl; [exact Hrows|]. intros row ->. done.
  - unfold Pathfinding.grid_height. rewrite Hlen. done.
Qed.

Lemma masks_cell (d : Dungeon.t) (others : list Enemy.t)
    (m : list (list bool)) (p : pos) :
  masks d others m -> in_window p -> Pathfinding.cell m p = Done true ->
  floor_at d p /\ unheld others p.
Proof.
  intros (_ & _ & Hcells) Hp Hcell.
  destruct (Hcells p Hp) as (row & b & Hrow & Hb & Hiff).
  apply Hiff. unfold Pathfinding.cell in Hcell.
  rewrite (py_index_nonneg m p.2 row) in Hcell by first [done | apply Hp].
  cbn [mbind outcome_bind] in Hcell.
  rewrite (py_index_nonneg row p.1 b) in Hcell by first [done | apply Hp].
  congruence.
Qed.

Lemma walk_tail (grid : list (list bool)) (w h : Z) (a : pos)
    (rest : list pos) :
  Pathfinding.walk grid w h (a :: rest) ->
  forall c, c ∈ rest ->
    Pathfinding.in_bounds w h c = true /\ Pathfinding.cell grid c = Done true.
Proof.
  revert a. induction rest as [|b rest IH]; intros a Hwalk c Hc.
  { by apply elem_of_nil in Hc. }
  destruct Hwalk as (_ & Hin & Hcell & Hrest).
  apply elem_of_cons in Hc as [->|Hc]; [done|]. by apply (IH b).
Qed.

Lemma calculate_path_spec (self : Enemy.t) (others : list Enemy.t)
    (player : pos) (d : Dungeon.t) :
  wf d -> Settings.GRID_WIDTH <= width d -> Settings.GRID_HEIGHT <= height d ->
  exists path,
    Enemy.calculate_path_to_player self others player d = Done path
    /\ (forall c, c ∈ path -> in_window c /\ floor_at d c /\ unheld others c)
    /\ NoDup path
    /\ (Enemy.position self ∉ path)
    /\ (path <> [] ->
        last path = Some player
        /\ exists dir, dir ∈ Pathfinding.directions
             /\ head path
                = Some (Pathfinding.next (Enemy.position self) dir))
    /\ (Entity.is_adjacent_to (Enemy.position self) player = true ->
        path = []).
Proof.
  intros Hwf Hw Hh. unfold Enemy.calculate_path_to_player.
  fold (Enemy.position self).
  assert (forall P : Prop, exists path : list pos, Done [] = Done path
            /\ (forall c, c ∈ path ->
                  in_window c /\ floor_at d c /\ unheld others c)
            /\ NoDup path /\ (Enemy.position self ∉ path)
            /\ (path <> [] ->
                last path = Some player
                /\ exists dir, dir ∈ Pathfinding.directions
                     /\ head path
                        = Some (Pathfinding.next (Enemy.position self) dir))
            /\ (P -> path = [])) as Hnone.
  { intros P. exists []. split_and!; try done.
    - by intros c ?%elem_of_nil.
    - apply NoDup_nil_2.
    - by intros ?%elem_of_nil. }
  destruct (Entity.is_adjacent_to _ _) eqn:Hadj; [apply Hnone|].
  destruct (path_mask_spec others d Hwf Hw Hh) as (m & Hm & Hmasks). run Hm.
  destruct (masks_shape _ _ _ Hmasks) as (Hrect & Hgw & Hgh).
  destruct (PathfindingFacts.astar_spec m (Enemy.position self) player Hrect)
    as (full & Hrun & Hin & _).
  run Hrun.
  destruct (1 <? length full)%nat eqn:Hlong;
    [|destruct (Hnone False) as (p & ? & ? & ? & ? & ? & _); exists p;
      by split_and!].
  apply Nat.ltb_lt in Hlong.
  destruct full as [|a tl]; [simpl in Hlong; lia|].
  destruct (PathfindingFacts.astar_sound _ _ _ _ Hrect Hrun)
    as (Hwalk & [= ->] & Hlast); [done|].
  pose proof (PathFacts.astar_nodup _ _ _ _ Hrect Hrun) as Hnd.
  apply NoDup_cons in Hnd as [Hnotin Hnd].
  rewrite Hgw, Hgh in *.
  exists tl. simpl. split_and!; [done| |done|done| |done].
  - intros c Hc. destruct (walk_tail _ _ _ _ _ Hwalk c Hc) as [Hb Hcell].
    assert (in_window c) as Hwin.
    { apply PathfindingFacts.in_bounds_spec in Hb. done. }
    split; [done|]. by eapply masks_cell.
  - intros _. destruct tl as [|b tl]; [simpl in Hlong; lia|]. split.
    + done.
    + destruct Hwalk as ((dir & Hdir & ->) & _). by exists dir.
Qed.

(** ** Floors smaller than the window *)

Lemma py_index_cases {A} (l : list A) (i : Z) :
  (exists a, py_index l i = Done a) \/ py_index l i = Raised IndexError.
Proof.
  unfold py_index. destruct (norm_index _ i) as [k|]; [|by right].
  destruct (l !! k); [left; by eexists|by right].
Qed.

Lemma tile_cases (d : Dungeon.t) (x y : Z) :
  (exists v, tile d x y = Done v) \/ tile d x y = Raised IndexError.
Proof.
  unfold tile. destruct (py_index_cases (grid d) y) as [[row ->]| ->];
    [|by right].
  cbn [mbind outcome_bind]. apply py_index_cases.
Qed.

Lemma py_index_beyond {A} (l : list A) (i : Z) :
  Z.of_nat (length l) <= i -> py_index l i = Raised IndexError.
Proof. intros Hi. unfold py_index. by rewrite norm_index_high by lia. Qed.

Lemma path_mask_small (others : list Enemy.t) (d : Dungeon.t) :
  wf d -> width d < Settings.GRID_WIDTH \/ height d < Settings.GRID_HEIGHT ->
  Enemy.path_mask others d = Raised IndexError.
Proof.
  intros [Hrows Hcols] Hsmall. unfold Enemy.path_mask.
  unfold Settings.GRID_WIDTH, Settings.GRID_HEIGHT in *.
  set (cellf := fun y' x' : Z =>
         v ← Dungeon.tile d x' y'; Done (bool_decide (type v = FLOOR))).
  assert (forall y x, (exists b, cellf y x = Done b)
                      \/ cellf y x = Raised IndexError) as Hcell.
  { intros y x. unfold cellf.
    destruct (tile_cases d x y) as [[v ->]| ->]; [left; by eexists|by right]. }
  assert (exists x0 y0, 0 <= x0 < 60 /\ 0 <= y0 < 40
            /\ tile d x0 y0 = Raised IndexError) as (x0 & y0 & Hx0 & Hy0 & Hfail).
  { destruct (Z.lt_ge_cases (height d) 40) as [Hh|Hh].
    - exists 0, (Z.max 0 (height d)). split; [lia|]. split; [lia|].
      unfold tile. rewrite py_index_beyond; [done|]. rewrite Hrows. lia.
    - destruct Hsmall as [Hw|?]; [|lia].
      exists (Z.max 0 (width d)), 0. split; [lia|]. split; [lia|].
      unfold tile.
      destruct (grid d) as [|row rows] eqn:Hgrid.
      { simpl in Hrows. lia. }
      apply Forall_cons in Hcols as [Hlen _].
      change (py_index (row :: rows) 0) with (Done row).
      cbn [mbind outcome_bind]. rewrite py_index_beyond; [done|].
      rewrite Hlen. lia. }
  rewrite (comprehension_raises _ _ IndexError y0); [done| | |].
  - intros y _. apply comprehension_cases. intros x _. apply Hcell.
  - by apply elem_of_range.
  - apply (comprehension_raises _ _ IndexError x0).
    + intros x _. apply Hcell.
    + by apply elem_of_range.
    + unfold cellf. by rewrite Hfail.
Qed.

End EnemyFacts.

(** * Auxiliary facts for the further properties *)

Module FloorFacts.
Import Dungeon Visibility Layout GridFacts.

Lemma connected_to_walkable (d : t) (a b : pos) :
  connected_to d a b -> a = b \/ walkable d b.
Proof. intros [|c dir _ _ Hw]; [by left|by right]. Qed.

Lemma sees_spec (d : t) (px py radius x y : Z) :
  sees d px py radius x y = true <->
  beyond_radius px py x y radius = false
  /\ has_line_of_sight d px py x y = Done true.
Proof.
  unfold sees. rewrite andb_true_iff, negb_true_iff.
  destruct (has_line_of_sight d px py x y) as [[|]| |];
    split; intros [? ?]; done.
Qed.

Lemma beyond_radius_mono (px py x y r1 r2 : Z) :
  r1 <= r2 -> beyond_radius px py x y r1 = false ->
  beyond_radius px py x y r2 = false.
Proof.
  unfold beyond_radius. intros Hr.
  rewrite !orb_false_iff, !Z.ltb_ge. intros [H1 H2]. split; [lia|nia].
Qed.

Lemma wf_fresh (w h : Z) : wf (fresh w h).
Proof.
  split; simpl.
  - by rewrite length_replicate.
  - apply Forall_replicate. by rewrite length_replicate.
Qed.

Lemma walkable_inside (d : t) (p : pos) :
  wf d -> walkable d p -> inside d p.1 p.2 = true.
Proof. intros Hwf (v & Hv & _). apply tile_at_inside; [done|by eexists]. Qed.

End FloorFacts.

(** * Further properties of the code *)

Module Extras.
Import Examples.
Import GridFacts SightFacts FovFacts GenFacts GenerateFacts MaskFacts.
Import PathFacts VisibilityFacts LayoutFacts ActorFacts EnemyFacts FloorFacts.

(** ** A* *)

(** X1. On a rectangular mask, with the start inside it, [astar]
    returns, and the list it returns is non-empty exactly when the goal
    can be reached from the start by 4-directional steps onto walkable
    cells of the mask. *)
Theorem astar_finds_iff_reachable (grid : list (list bool)) (start goal : pos) :
  Pathfinding.rectangular grid ->
  Pathfinding.in_bounds (Pathfinding.grid_width grid)
    (Pathfinding.grid_height grid) start = true ->
  exists path, Pathfinding.astar grid start goal = Done path
    /\ (path <> [] <->
        Pathfinding.reach grid (Pathfinding.grid_width grid)
          (Pathfinding.grid_height grid) start goal).
Proof.
  intros Hrect Hstart.
  destruct (PathfindingFacts.astar_spec grid start goal Hrect)
    as (path & Hrun & _ & Hfound).
  exists path. split; [done|]. split; [|by apply Hfound].
  intros Hne.
  destruct (PathfindingFacts.astar_sound _ _ _ _ Hrect Hrun Hne)
    as (Hwalk & Hhead & Hlast).
  by eapply PathfindingFacts.walk_reach.
Qed.

Lemma astar_finds_iff_reachable_witness :
  exists path, Pathfinding.astar detour_mask (4, 2) (0, 2) = Done path
    /\ (path <> [] <->
        Pathfinding.reach detour_mask (Pathfinding.grid_width detour_mask)
          (Pathfinding.grid_height detour_mask) (4, 2) (0, 2)).
Proof.
  apply (astar_finds_iff_reachable detour_mask (4, 2) (0, 2)).
  - repeat constructor.
  - reflexivity.
Defined.

(** X2. On a rectangular mask, a non-empty list returned by [astar]
    starts at the start, ends at the goal, and every cell after the
    first is one 4-directional step from its predecessor, inside the
    mask and walkable. *)
Theorem astar_path_is_walk (grid : list (list bool)) (start goal : pos)
    (path : list pos) :
  Pathfinding.rectangular grid ->
  Pathfinding.astar grid start goal = Done path -> path <> [] ->
  head path = Some start /\ last path = Some goal
  /\ Pathfinding.walk grid (Pathfinding.grid_width grid)
       (Pathfinding.grid_height grid) path.
Proof.
  intros Hrect Hrun Hne.
  destruct (PathfindingFacts.astar_sound _ _ _ _ Hrect Hrun Hne)
    as (Hwalk & Hhead & Hlast).
  done.
Qed.

Lemma astar_path_is_walk_witness :
  head [(0, 0); (1, 0); (2, 0)] = Some (0, 0)
  /\ last [(0, 0); (1, 0); (2, 0)] = Some (2, 0)
  /\ Pathfinding.walk open_start_mask (Pathfinding.grid_width open_start_mask)
       (Pathfinding.grid_height open_start_mask) [(0, 0); (1, 0); (2, 0)].
Proof.
  apply (astar_path_is_walk open_start_mask (0, 0) (2, 0)).
  - repeat constructor.
  - vm_compute. reflexivity.
  - discriminate.
Defined.

(** X3. On a rectangular mask, the list returned by [astar] holds no
    cell twice, so it has at most width × height cells. *)
Theorem astar_path_simple (grid : list (list bool)) (start goal : pos)
    (path : list pos) :
  Pathfinding.rectangular grid ->
  Pathfinding.astar grid start goal = Done path ->
  NoDup path
  /\ Z.of_nat (length path)
     <= Pathfinding.grid_width grid * Pathfinding.grid_height grid.
Proof.
  intros Hrect Hrun.
  pose proof (astar_nodup _ _ _ _ Hrect Hrun) as Hnd. split; [done|].
  destruct (PathfindingFacts.astar_spec grid start goal Hrect)
    as (path' & Hrun' & Hin & _).
  assert (path' = path) as -> by congruence.
  apply nodup_length; [|unfold Pathfinding.grid_height; lia|done..].
  by apply PathfindingFacts.rectangular_rows.
Qed.

Lemma astar_path_simple_witness :
  NoDup [(0, 0); (1, 0); (2, 0)]
  /\ Z.of_nat (length [(0, 0); (1, 0); (2, 0)])
     <= Pathfinding.grid_width open_start_mask
        * Pathfinding.grid_height open_start_mask.
Proof.
  apply (astar_path_simple open_start_mask (0, 0) (2, 0)).
  - repeat constructor.
  - vm_compute. reflexivity.
Defined.

(** X4. The Manhattan distance [heuristic] never overestimates: on a
    rectangular mask a non-empty list returned by [astar] has at least
    [heuristic start goal + 1] cells. *)
Theorem astar_path_at_least_manhattan (grid : list (list bool))
    (start goal : pos) (path : list pos) :
  Pathfinding.rectangular grid ->
  Pathfinding.astar grid start goal = Done path -> path <> [] ->
  Pathfinding.heuristic start goal + 1 <= Z.of_nat (length path).
Proof.
  intros Hrect Hrun Hne.
  destruct (PathfindingFacts.astar_sound _ _ _ _ Hrect Hrun Hne)
    as (Hwalk & Hhead & Hlast).
  by eapply walk_heuristic.
Qed.

Lemma astar_path_at_least_manhattan_witness :
  Pathfinding.heuristic (0, 0) (2, 0) + 1
  <= Z.of_nat (length [(0, 0); (1, 0); (2, 0)]).
Proof.
  apply (astar_path_at_least_manhattan open_start_mask (0, 0) (2, 0)).
  - repeat constructor.
  - vm_compute. reflexivity.
  - discriminate.
Defined.

(** ** Rooms *)

(** X5. For rooms of positive size and a buffer [k >= 0],
    [overlaps(other, k)] is true exactly when some cell of the one room
    and some cell of the other are at most [k] apart both in x and in
    y.  With [k = 0] this says that the rooms share a cell. *)
Theorem overlaps_iff_near (a b : Room.t) (k : Z) :
  0 < Room.width a -> 0 < Room.height a ->
  0 < Room.width b -> 0 < Room.height b -> 0 <= k ->
  (Room.overlaps a b k = true <->
   exists p q, Layout.contains a p /\ Layout.contains b q
     /\ Z.abs (p.1 - q.1) <= k /\ Z.abs (p.2 - q.2) <= k).
Proof. apply overlaps_near. Qed.

Lemma overlaps_iff_near_witness :
  Room.overlaps demo_first demo_last 1 = true <->
  exists p q, Layout.contains demo_first p /\ Layout.contains demo_last q
    /\ Z.abs (p.1 - q.1) <= 1 /\ Z.abs (p.2 - q.2) <= 1.
Proof.
  apply (overlaps_iff_near demo_first demo_last 1); simpl; lia.
Defined.

(** X6. [random_position(edge_buffer)] on a room that is more than
    twice the buffer wide and high returns a cell of the room that keeps
    the buffer from each of its four sides. *)
Theorem random_position_in_room (r : Room.t) (edge_buffer : Z)
    (rng : Random.t) :
  2 * edge_buffer < Room.width r -> 2 * edge_buffer < Room.height r ->
  exists p rng', Room.random_position r edge_buffer rng = Done (p, rng')
    /\ Room.x r + edge_buffer <= p.1 <= Room.x r + Room.width r - 1 - edge_buffer
    /\ Room.y r + edge_buffer <= p.2 <= Room.y r + Room.height r - 1 - edge_buffer.
Proof. apply random_position_inside. Qed.

Lemma random_position_in_room_witness :
  exists p rng', Room.random_position demo_first 1 zero_random = Done (p, rng')
    /\ Room.x demo_first + 1 <= p.1
       <= Room.x demo_first + Room.width demo_first - 1 - 1
    /\ Room.y demo_first + 1 <= p.2
       <= Room.y demo_first + Room.height demo_first - 1 - 1.
Proof.
  apply (random_position_in_room demo_first 1 zero_random); simpl; lia.
Defined.

(** X7. [random_position(edge_buffer)] raises ValueError when the room
    is at most twice the buffer wide or high: [place_entities] calls it
    with buffers 1 and 2, so rooms narrower than 3 (or 5) tiles make it
    raise. *)
Theorem random_position_small_room (r : Room.t) (edge_buffer : Z)
    (rng : Random.t) :
  Room.width r <= 2 * edge_buffer \/ Room.height r <= 2 * edge_buffer ->
  Room.random_position r edge_buffer rng = Raised ValueError.
Proof. apply random_position_cramped. Qed.

Lemma random_position_small_room_witness :
  Room.random_position demo_first 2 zero_random = Raised ValueError.
Proof.
  apply (random_position_small_room demo_first 2 zero_random).
  left. simpl. lia.
Defined.

(** X8. On a room at least 3 wide and 3 high,
    [get_random_wall_position] returns a cell of the room itself, on its
    outermost row or column and never one of its four corners. *)
Theorem wall_position_on_rim (r : Room.t) (rng : Random.t) :
  3 <= Room.width r -> 3 <= Room.height r ->
  exists p rng', Room.get_random_wall_position r rng = Done (p, rng')
    /\ Layout.contains r p
    /\ ((p.2 = Room.y r \/ p.2 = Room.y r + Room.height r - 1)
        /\ Room.x r < p.1 < Room.x r + Room.width r - 1
        \/ (p.1 = Room.x r \/ p.1 = Room.x r + Room.width r - 1)
           /\ Room.y r < p.2 < Room.y r + Room.height r - 1).
Proof. apply get_random_wall_position_rim. Qed.

Lemma wall_position_on_rim_witness :
  exists p rng', Room.get_random_wall_position demo_first zero_random
                 = Done (p, rng')
    /\ Layout.contains demo_first p
    /\ ((p.2 = Room.y demo_first
         \/ p.2 = Room.y demo_first + Room.height demo_first - 1)
        /\ Room.x demo_first < p.1
           < Room.x demo_first + Room.width demo_first - 1
        \/ (p.1 = Room.x demo_first
            \/ p.1 = Room.x demo_first + Room.width demo_first - 1)
           /\ Room.y demo_first < p.2
              < Room.y demo_first + Room.height demo_first - 1).
Proof.
  apply (wall_position_on_rim demo_first zero_random); simpl; lia.
Defined.

(** ** Generated floors *)

(** X9. On a floor returned by [generate] (started with an empty room
    list and a non-negative minimum size) no two rooms of the room list
    overlap with the 1-tile buffer: a cell of one room and a cell of
    another differ by at least 2 in x or in y. *)
Theorem generate_rooms_apart (fuel : nat) (max_rooms lo hi : Z)
    (d d' : Dungeon.t) (rng rng' : Random.t)
    (i j : nat) (ri rj : Room.t) (p q : pos) :
  0 <= lo -> Dungeon.rooms d = [] ->
  Dungeon.generate fuel max_rooms lo hi (d, rng) = Done (d', rng') ->
  i <> j ->
  Dungeon.rooms d' !! i = Some ri -> Dungeon.rooms d' !! j = Some rj ->
  Room.overlaps ri rj 1 = false
  /\ (Layout.contains ri p -> Layout.contains rj q ->
      2 <= Z.abs (p.1 - q.1) \/ 2 <= Z.abs (p.2 - q.2)).
Proof.
  intros Hlo Hnone Hgen Hij Hi Hj.
  destruct (generate_layout _ _ _ _ _ _ Hgen Hlo) as (_ & _ & _ & _ & Hapart & _).
  { simpl. rewrite Hnone. by intros r ?%elem_of_nil. }
  { simpl. rewrite Hnone. by intros ? ? ? ? _ ?. }
  pose proof (Hapart i j ri rj Hij Hi Hj) as Hover. split; [done|].
  intros Hp Hq. unfold Layout.contains in *.
  destruct (Room.overlaps ri rj 1) eqn:Hov; [done|].
  destruct (Z.lt_ge_cases (Z.abs (p.1 - q.1)) 2) as [Hx|Hx]; [|by left].
  destruct (Z.lt_ge_cases (Z.abs (p.2 - q.2)) 2) as [Hy|Hy]; [|by right].
  assert (Room.overlaps ri rj 1 = true); [|congruence].
  apply overlaps_spec. lia.
Qed.

Lemma generate_rooms_apart_witness :
  Room.overlaps demo_first demo_last 1 = false
  /\ (Layout.contains demo_first (3, 3) -> Layout.contains demo_last (5, 5) ->
      2 <= Z.abs ((3, 3).1 - (5, 5).1) \/ 2 <= Z.abs ((3, 3).2 - (5, 5).2)).
Proof.
  apply (generate_rooms_apart 1 5 3 3 (Dungeon.fresh 16 16)
           demo_world.1 demo_random demo_world.2 0 4).
  - lia.
  - reflexivity.
  - vm_compute. reflexivity.
  - lia.
  - reflexivity.
  - reflexivity.
Defined.

(** X10. Every room of a floor returned by [generate] (started with an
    empty room list and a non-negative minimum size) is as the placement
    loop drew it: width and height between the minimum and the maximum
    size, and its cells at least 1 tile from the left and top edge of
    the grid and at least 2 tiles from the right and bottom edge. *)
Theorem generate_rooms_fit (fuel : nat) (max_rooms lo hi : Z)
    (d d' : Dungeon.t) (rng rng' : Random.t) (r : Room.t) :
  0 <= lo -> Dungeon.rooms d = [] ->
  Dungeon.generate fuel max_rooms lo hi (d, rng) = Done (d', rng') ->
  r ∈ Dungeon.rooms d' ->
  lo <= Room.width r <= hi /\ lo <= Room.height r <= hi
  /\ 1 <= Room.x r /\ Room.x r + Room.width r <= Dungeon.width d' - 2
  /\ 1 <= Room.y r /\ Room.y r + Room.height r <= Dungeon.height d' - 2.
Proof.
  intros Hlo Hnone Hgen Hr.
  destruct (generate_layout _ _ _ _ _ _ Hgen Hlo) as (_ & _ & _ & Hfits & _).
  { simpl. rewrite Hnone. by intros ? ?%elem_of_nil. }
  { simpl. rewrite Hnone. by intros ? ? ? ? _ ?. }
  destruct (Hfits r Hr) as (? & ? & ? & ?). simpl in *. lia.
Qed.

Lemma generate_rooms_fit_witness :
  3 <= Room.width demo_last <= 3 /\ 3 <= Room.height demo_last <= 3
  /\ 1 <= Room.x demo_last
  /\ Room.x demo_last + Room.width demo_last <= Dungeon.width demo_world.1 - 2
  /\ 1 <= Room.y demo_last
  /\ Room.y demo_last + Room.height demo_last
     <= Dungeon.height demo_world.1 - 2.
Proof.
  apply (generate_rooms_fit 1 5 3 3 (Dungeon.fresh 16 16)
           demo_world.1 demo_random demo_world.2 demo_last).
  - lia.
  - reflexivity.
  - vm_compute. reflexivity.
  - apply list_elem_of_In. vm_compute. tauto.
Defined.

(** X11. On a floor returned by [generate] (started with an empty room
    list and a non-negative minimum size) every tile is a wall, a floor,
    a door or the stairs down, and every tile that is not a wall lies
    off the outer ring of the grid: the outer ring is all wall. *)
Theorem generate_outer_ring_is_wall (fuel : nat) (max_rooms lo hi : Z)
    (d d' : Dungeon.t) (rng rng' : Random.t) (x y : Z) (v : Tile) :
  0 <= lo -> Dungeon.rooms d = [] ->
  Dungeon.generate fuel max_rooms lo hi (d, rng) = Done (d', rng') ->
  Dungeon.tile_at d' x y = Some v ->
  type v = WALL
  \/ ((type v = FLOOR \/ type v = DOOR \/ type v = STAIRS_DOWN)
      /\ 1 <= x <= Dungeon.width d' - 2 /\ 1 <= y <= Dungeon.height d' - 2).
Proof.
  intros Hlo Hnone Hgen Hv.
  destruct (generate_layout _ _ _ _ _ _ Hgen Hlo) as (_ & _ & Hfur & _).
  { simpl. rewrite Hnone. by intros ? ?%elem_of_nil. }
  { simpl. rewrite Hnone. by intros ? ? ? ? _ ?. }
  destruct (Layout.furnished_tiles _ Hfur _ _ _ Hv) as [?|[[? ?] ?]];
    [by left|by right].
Qed.

Lemma generate_outer_ring_is_wall_witness :
  type (new_tile WALL) = WALL
  \/ ((type (new_tile WALL) = FLOOR \/ type (new_tile WALL) = DOOR
       \/ type (new_tile WALL) = STAIRS_DOWN)
      /\ 1 <= 0 <= Dungeon.width demo_world.1 - 2
      /\ 1 <= 0 <= Dungeon.height demo_world.1 - 2).
Proof.
  apply (generate_outer_ring_is_wall 1 5 3 3 (Dungeon.fresh 16 16)
           demo_world.1 demo_random demo_world.2 0 0 (new_tile WALL)).
  - lia.
  - reflexivity.
  - vm_compute. reflexivity.
  - reflexivity.
Defined.

(** X12. On a floor returned by [generate] (started with an empty room
    list and a non-negative minimum size) the first room of the list is
    the entrance and [player_start] is its centre, the last room is the
    exit and [stairs_down] is its centre, and the tile at that centre is
    the one and only stairs tile of the grid. *)
Theorem generate_landmarks (fuel : nat) (max_rooms lo hi : Z)
    (d d' : Dungeon.t) (rng rng' : Random.t) :
  0 <= lo -> Dungeon.rooms d = [] ->
  Dungeon.generate fuel max_rooms lo hi (d, rng) = Done (d', rng') ->
  exists first last_room,
    Dungeon.rooms d' !! 0%nat = Some first
    /\ last (Dungeon.rooms d') = Some last_room
    /\ Room.room_type first = Room.entrance
    /\ Room.room_type last_room = Room.exit
    /\ Dungeon.player_start d' = Some (Room.center first)
    /\ Dungeon.stairs_down d' = Some (Room.center last_room)
    /\ forall x y v, Dungeon.tile_at d' x y = Some v ->
         (type v = STAIRS_DOWN <-> (x, y) = Room.center last_room).
Proof.
  intros Hlo Hnone Hgen.
  destruct (generate_layout _ _ _ _ _ _ Hgen Hlo)
    as (_ & _ & Hfur & _ & _ & _ & first & last_room & H1 & H2 & H3 & H4 & H5 & H6).
  { simpl. rewrite Hnone. by intros ? ?%elem_of_nil. }
  { simpl. rewrite Hnone. by intros ? ? ? ? _ ?. }
  exists first, last_room. cbn [fst snd] in *. split_and!; try done.
  intros x y v Hv. rewrite (Layout.furnished_stairs _ Hfur _ _ _ Hv), H6.
  split; intros Heq; [by apply (inj Some) in Heq|by rewrite Heq].
Qed.

Lemma generate_landmarks_witness :
  exists first last_room,
    Dungeon.rooms demo_world.1 !! 0%nat = Some first
    /\ last (Dungeon.rooms demo_world.1) = Some last_room
    /\ Room.room_type first = Room.entrance
    /\ Room.room_type last_room = Room.exit
    /\ Dungeon.player_start demo_world.1 = Some (Room.center first)
    /\ Dungeon.stairs_down demo_world.1 = Some (Room.center last_room)
    /\ forall x y v, Dungeon.tile_at demo_world.1 x y = Some v ->
         (type v = STAIRS_DOWN <-> (x, y) = Room.center last_room).
Proof.
  apply (generate_landmarks 1 5 3 3 (Dungeon.fresh 16 16)
           demo_world.1 demo_random demo_world.2).
  - lia.
  - reflexivity.
  - vm_compute. reflexivity.
Defined.

(** X13. On a floor returned by [generate] (started with an empty room
    list and a non-negative minimum size) the player starts on a
    walkable tile, the stairs down can be reached from there by
    4-directional steps over walkable tiles, and A* over the walkability
    mask of the floor returns a path from the start to the stairs. *)
Theorem generate_stairs_reachable (fuel : nat) (max_rooms lo hi : Z)
    (d d' : Dungeon.t) (rng rng' : Random.t) :
  0 <= lo -> Dungeon.rooms d = [] ->
  Dungeon.generate fuel max_rooms lo hi (d, rng) = Done (d', rng') ->
  exists start stairs,
    Dungeon.player_start d' = Some start
    /\ Dungeon.stairs_down d' = Some stairs
    /\ Dungeon.walkable d' start
    /\ Dungeon.connected_to d' start stairs
    /\ exists path,
         Pathfinding.astar (Dungeon.walkable_mask d') start stairs = Done path
         /\ head path = Some start /\ last path = Some stairs.
Proof.
  intros Hlo Hnone Hgen.
  destruct (generate_layout _ _ _ _ _ _ Hgen Hlo)
    as (_ & _ & Hfur & _ & _ & _ & first & last_room & H1 & H2 & _ & _ & H5 & H6).
  { simpl. rewrite Hnone. by intros ? ?%elem_of_nil. }
  { simpl. rewrite Hnone. by intros ? ? ? ? _ ?. }
  destruct (generate_spec _ _ _ _ _ _ Hgen Hlo) as ([Hwf Hin] & Hall & _).
  { unfold Dungeon.centers. simpl. rewrite Hnone. by intros c ?%elem_of_nil. }
  cbn [fst snd] in *.
  assert (Room.center first ∈ Dungeon.centers d') as Hc1.
  { apply list_elem_of_fmap_2. by eapply list_elem_of_lookup_2. }
  assert (Room.center last_room ∈ Dungeon.centers d') as Hc2.
  { apply list_elem_of_fmap_2. rewrite last_lookup in H2.
    by eapply list_elem_of_lookup_2. }
  exists (Room.center first), (Room.center last_room).
  split_and!; [done|done| |by apply Hall|].
  - destruct (connected_to_walkable d' _ _ (Hall _ _ Hc2 Hc1)) as [Heq|?];
      [|done].
    rewrite <- Heq.
    destruct (proj2 (tile_at_inside d' (Room.center last_room).1
                       (Room.center last_room).2 Hwf)) as [v Hv];
      [by apply Hin|].
    exists v. split; [done|].
    assert (type v = STAIRS_DOWN) as Hty.
    { apply (Layout.furnished_stairs _ Hfur _ _ _ Hv). rewrite H6.
      by destruct (Room.center last_room). }
    unfold is_walkable. by rewrite Hty.
  - pose proof (mask_rectangular d' Hwf) as Hrect.
    destruct (PathfindingFacts.astar_spec (Dungeon.walkable_mask d')
                (Room.center first) (Room.center last_room) Hrect)
      as (path & Hrun & _ & Hfound).
    assert (path <> []) as Hne.
    { apply Hfound.
      - rewrite mask_in_bounds by done. by apply Hin.
      - apply mask_reach; [done|]. by apply Hall. }
    destruct (PathfindingFacts.astar_sound _ _ _ _ Hrect Hrun Hne)
      as (_ & Hhead & Hlast).
    by exists path.
Qed.

Lemma generate_stairs_reachable_witness :
  exists start stairs,
    Dungeon.player_start demo_world.1 = Some start
    /\ Dungeon.stairs_down demo_world.1 = Some stairs
    /\ Dungeon.walkable demo_world.1 start
    /\ Dungeon.connected_to demo_world.1 start stairs
    /\ exists path,
         Pathfinding.astar (Dungeon.walkable_mask demo_world.1) start stairs
           = Done path
         /\ head path = Some start /\ last path = Some stairs.
Proof.
  apply (generate_stairs_reachable 1 5 3 3 (Dungeon.fresh 16 16)
           demo_world.1 demo_random demo_world.2).
  - lia.
  - reflexivity.
  - vm_compute. reflexivity.
Defined.

(** X14. [generate] never drops or moves a room that is already in the
    room list: when it is entered with rooms in the list (as its own
    restart enters it), those rooms, with their position and size, are
    the first rooms of the list it returns, before the rooms it places
    on the rebuilt grid. *)
Theorem generate_keeps_rooms (fuel : nat) (max_rooms lo hi : Z)
    (d d' : Dungeon.t) (rng rng' : Random.t) :
  0 <= lo ->
  (forall r, r ∈ Dungeon.rooms d -> Layout.fits lo hi d r) ->
  Layout.apart (Dungeon.rooms d) ->
  Dungeon.generate fuel max_rooms lo hi (d, rng) = Done (d', rng') ->
  Layout.shape d `prefix_of` Layout.shape d'.
Proof.
  intros Hlo Hfits Hapart Hgen.
  by destruct (generate_layout _ _ _ _ _ _ Hgen Hlo)
    as (_ & _ & _ & _ & _ & Hprefix & _).
Qed.

Lemma generate_keeps_rooms_witness :
  Layout.shape stale_floor `prefix_of` Layout.shape stale_world.1.
Proof.
  apply (generate_keeps_rooms 1 4 3 3 stale_floor stale_world.1
           stale_random stale_world.2).
  - lia.
  - intros r ->%list_elem_of_singleton. vm_compute. intuition discriminate.
  - intros [|i] [|j] ri rj Hij Hi Hj; try done; destruct i, j; done.
  - vm_compute. reflexivity.
Defined.

(** ** Field of view *)

(** X15. For an observer inside the grid, the set [compute_fov]
    returns is exactly the observer's cell together with the cells of
    the grid that are within the radius and in a clear line of sight
    from the observer. *)
Theorem compute_fov_exact (d : Dungeon.t) (px py radius : Z) :
  Dungeon.wf d -> Dungeon.inside d px py = true ->
  exists d' visible_tiles,
    Dungeon.compute_fov d px py radius = Done (d', visible_tiles)
    /\ forall x y, (x, y) ∈ visible_tiles <->
         (x, y) = (px, py)
         \/ (Dungeon.inside d x y = true
             /\ Dungeon.beyond_radius px py x y radius = false
             /\ Dungeon.has_line_of_sight d px py x y = Done true).
Proof.
  intros Hwf Hin.
  destruct (compute_fov_lit d px py radius Hwf Hin)
    as ([d' vis] & Hrun & _ & Hset).
  exists d', vis. split; [done|]. intros x y.
  rewrite (Hset x y), sees_spec. tauto.
Qed.

Lemma compute_fov_exact_witness :
  exists d' visible_tiles,
    Dungeon.compute_fov hall 0 0 8 = Done (d', visible_tiles)
    /\ forall x y, (x, y) ∈ visible_tiles <->
         (x, y) = (0, 0)
         \/ (Dungeon.inside hall x y = true
             /\ Dungeon.beyond_radius 0 0 x y 8 = false
             /\ Dungeon.has_line_of_sight hall 0 0 x y = Done true).
Proof.
  apply (compute_fov_exact hall 0 0 8).
  - split; [reflexivity|]. repeat constructor.
  - reflexivity.
Defined.

(** X16. For an observer inside the grid, [compute_fov] leaves the
    kind and the variant of every tile as they were, sets [visible] on
    exactly the tiles of the returned set, and sets [explored] on those
    tiles while keeping it on the tiles explored before. *)
Theorem compute_fov_flags (d : Dungeon.t) (px py radius : Z) :
  Dungeon.wf d -> Dungeon.inside d px py = true ->
  exists d' visible_tiles,
    Dungeon.compute_fov d px py radius = Done (d', visible_tiles)
    /\ forall x y v, Dungeon.tile_at d x y = Some v ->
         Dungeon.tile_at d' x y
         = Some {| type := type v; variant := variant v;
                   explored :=
                     explored v || bool_decide ((x, y) ∈ visible_tiles);
                   visible := bool_decide ((x, y) ∈ visible_tiles) |}.
Proof.
  intros Hwf Hin.
  destruct (compute_fov_lit d px py radius Hwf Hin)
    as ([d' vis] & Hrun & (_ & _ & Htiles) & _).
  exists d', vis. split; [done|]. intros x y v Hv. by apply Htiles.
Qed.

Lemma compute_fov_flags_witness :
  exists d' visible_tiles,
    Dungeon.compute_fov hall 0 0 8 = Done (d', visible_tiles)
    /\ forall x y v, Dungeon.tile_at hall x y = Some v ->
         Dungeon.tile_at d' x y
         = Some {| type := type v; variant := variant v;
                   explored :=
                     explored v || bool_decide ((x, y) ∈ visible_tiles);
                   visible := bool_decide ((x, y) ∈ visible_tiles) |}.
Proof.
  apply (compute_fov_flags hall 0 0 8).
  - split; [reflexivity|]. repeat constructor.
  - reflexivity.
Defined.

(** X17. [compute_fov] is idempotent: calling it again from the same
    observer with the same radius returns the same set and leaves every
    tile as the first call left it. *)
Theorem compute_fov_idempotent (d d' : Dungeon.t) (px py radius : Z)
    (visible_tiles : gset pos) :
  Dungeon.wf d -> Dungeon.inside d px py = true ->
  Dungeon.compute_fov d px py radius = Done (d', visible_tiles) ->
  exists d'', Dungeon.compute_fov d' px py radius = Done (d'', visible_tiles)
    /\ forall x y, Dungeon.tile_at d'' x y = Dungeon.tile_at d' x y.
Proof.
  intros Hwf Hin Hrun.
  destruct (compute_fov_lit d px py radius Hwf Hin)
    as (st & Hrun' & Hlit & Hset).
  assert (st = (d', visible_tiles)) as -> by congruence.
  pose proof Hlit as (Hwf' & Hfr & Htiles). simpl in Hwf', Hfr, Htiles.
  assert (Dungeon.inside d' px py = true) as Hin'
    by by rewrite (same_frame_inside d d').
  destruct (compute_fov_lit d' px py radius Hwf' Hin')
    as ([d'' vis] & Hrun2 & (Hwf2 & Hfr2 & Htiles2) & Hset2).
  simpl in Hwf2, Hfr2, Htiles2, Hset2.
  assert (vis = visible_tiles) as ->.
  { apply leibniz_equiv, set_equiv. intros [x y].
    rewrite (Hset2 x y), (Hset x y). simpl.
    rewrite (same_frame_inside d d') by done.
    by rewrite (sees_lit d (d', visible_tiles)). }
  exists d''. split; [done|]. intros x y.
  destruct (Dungeon.tile_at d x y) as [v|] eqn:Hv.
  - rewrite (Htiles2 _ _ _ (Htiles _ _ _ Hv)), (Htiles _ _ _ Hv).
    by rewrite shown_twice.
  - assert (Dungeon.tile_at d' x y = None) as Hnone.
    { apply eq_None_not_Some. intros His%tile_at_inside; [|done].
      rewrite (same_frame_inside d d') in His by done.
      apply (tile_at_inside d x y Hwf) in His. rewrite Hv in His.
      by destruct His. }
    rewrite Hnone. apply eq_None_not_Some. intros His%tile_at_inside; [|done].
    rewrite (same_frame_inside d' d'') in His by done.
    apply (tile_at_inside d' x y Hwf') in His. rewrite Hnone in His.
    by destruct His.
Qed.

Lemma compute_fov_idempotent_witness :
  exists d'', Dungeon.compute_fov hall_seen.1 0 0 8 = Done (d'', hall_seen.2)
    /\ forall x y, Dungeon.tile_at d'' x y = Dungeon.tile_at hall_seen.1 x y.
Proof.
  apply (compute_fov_idempotent hall hall_seen.1 0 0 8 hall_seen.2).
  - split; [reflexivity|]. repeat constructor.
  - reflexivity.
  - vm_compute. reflexivity.
Defined.

(** X18. A larger radius never hides a tile: for an observer inside
    the grid, the set [compute_fov] returns for a radius is contained in
    the set it returns for any larger radius. *)
Theorem compute_fov_radius_monotone (d d1 d2 : Dungeon.t) (px py r1 r2 : Z)
    (seen1 seen2 : gset pos) :
  Dungeon.wf d -> Dungeon.inside d px py = true -> r1 <= r2 ->
  Dungeon.compute_fov d px py r1 = Done (d1, seen1) ->
  Dungeon.compute_fov d px py r2 = Done (d2, seen2) ->
  seen1 ⊆ seen2.
Proof.
  intros Hwf Hin Hr Hrun1 Hrun2.
  destruct (compute_fov_lit d px py r1 Hwf Hin) as (st1 & Hrun1' & _ & Hset1).
  destruct (compute_fov_lit d px py r2 Hwf Hin) as (st2 & Hrun2' & _ & Hset2).
  assert (st1 = (d1, seen1)) as -> by congruence.
  assert (st2 = (d2, seen2)) as -> by congruence.
  simpl in *. intros [x y]. rewrite (Hset1 x y), (Hset2 x y), !sees_spec.
  intros [?|(? & Hnear & ?)]; [by left|right].
  split_and!; [done| |done]. by eapply beyond_radius_mono.
Qed.

Lemma compute_fov_radius_monotone_witness :
  hall_glimpsed.2 ⊆ hall_seen.2.
Proof.
  apply (compute_fov_radius_monotone hall hall_glimpsed.1 hall_seen.1 0 0 2 8).
  - split; [reflexivity|]. repeat constructor.
  - reflexivity.
  - lia.
  - vm_compute. reflexivity.
  - vm_compute. reflexivity.
Defined.

(** X19. [has_line_of_sight] returns for every pair of end points, on
    or off the grid: its [while True] loop ends after at most
    |x1 - x0| + |y1 - y0| + 1 rounds and no tile access raises. *)
Theorem has_line_of_sight_returns (d : Dungeon.t) (x0 y0 x1 y1 : Z) :
  Dungeon.wf d ->
  exists clear, Dungeon.has_line_of_sight d x0 y0 x1 y1 = Done clear.
Proof. intros Hwf. by apply has_line_of_sight_total. Qed.

Lemma has_line_of_sight_returns_witness :
  exists clear, Dungeon.has_line_of_sight hall (-3) 7 4 0 = Done clear.
Proof.
  apply (has_line_of_sight_returns hall (-3) 7 4 0).
  split; [reflexivity|]. repeat constructor.
Defined.

(** X20. From a cell that does not block sight (a transparent tile, or
    a cell off the grid) each of the eight cells around it is in sight,
    whatever stands on it: walls next to the observer are seen. *)
Theorem neighbours_in_sight (d : Dungeon.t) (x0 y0 x1 y1 : Z) :
  Dungeon.wf d ->
  (forall v, Dungeon.tile_at d x0 y0 = Some v -> is_transparent v = true) ->
  Z.abs (x1 - x0) <= 1 -> Z.abs (y1 - y0) <= 1 ->
  Dungeon.has_line_of_sight d x0 y0 x1 y1 = Done true.
Proof. apply has_line_of_sight_adjacent. Qed.

Lemma neighbours_in_sight_witness :
  Dungeon.has_line_of_sight hall 1 0 2 0 = Done true.
Proof.
  apply (neighbours_in_sight hall 1 0 2 0).
  - split; [reflexivity|]. repeat constructor.
  - intros v [= <-]. reflexivity.
  - simpl. lia.
  - simpl. lia.
Defined.

(** X21. [compute_fov] does not clamp the observer: with the observer
    to the right of the grid or below it, the first access to the
    observer's tile raises IndexError, whatever the radius. *)
Theorem compute_fov_beyond_grid (d : Dungeon.t) (px py radius : Z) :
  Dungeon.wf d ->
  Dungeon.width d <= px \/ Dungeon.height d <= py ->
  Dungeon.compute_fov d px py radius = Raised IndexError.
Proof. apply compute_fov_outside_raises. Qed.

Lemma compute_fov_beyond_grid_witness :
  Dungeon.compute_fov hall 2 3 8 = Raised IndexError.
Proof.
  apply (compute_fov_beyond_grid hall 2 3 8).
  - split; [reflexivity|]. repeat constructor.
  - right. simpl. lia.
Defined.

(** ** The player *)

(** X22. On a well-formed floor a call of [Player.move] either leaves
    the player where it is and returns [False], or puts it on the cell
    [(x + dx, y + dy)], which is then inside the grid, walkable and free
    of enemies (living or dead); in that case it returns ["next_floor"]
    exactly when that cell is [stairs_down], and [True] otherwise. *)
Theorem move_outcome (self : pos) (dx dy : Z) (d : Dungeon.t)
    (enemies : list Enemy.t) :
  Dungeon.wf d ->
  Player.move self dx dy d enemies = (self, Player.stay)
  \/ ((Player.move self dx dy d enemies).1 = (self.1 + dx, self.2 + dy)
      /\ Dungeon.inside d (self.1 + dx) (self.2 + dy) = true
      /\ Dungeon.walkable d (self.1 + dx, self.2 + dy)
      /\ Actors.vacant enemies (self.1 + dx, self.2 + dy)
      /\ ((Player.move self dx dy d enemies).2 = Player.next_floor
          /\ Dungeon.stairs_down d = Some (self.1 + dx, self.2 + dy)
          \/ (Player.move self dx dy d enemies).2 = Player.moved
             /\ Dungeon.stairs_down d <> Some (self.1 + dx, self.2 + dy))).
Proof.
  intros Hwf. destruct (move_spec self dx dy d enemies Hwf)
    as [?|(Hpos & Hin & Hwalk & Hvac & Hres)]; [by left|right].
  rewrite Hpos in Hin, Hwalk, Hvac, Hres. by rewrite Hpos.
Qed.

Lemma move_outcome_witness :
  Player.move (4, 5) 1 0 arena [hunter] = ((4, 5), Player.stay)
  \/ ((Player.move (4, 5) 1 0 arena [hunter]).1 = ((4, 5).1 + 1, (4, 5).2 + 0)
      /\ Dungeon.inside arena ((4, 5).1 + 1) ((4, 5).2 + 0) = true
      /\ Dungeon.walkable arena ((4, 5).1 + 1, (4, 5).2 + 0)
      /\ Actors.vacant [hunter] ((4, 5).1 + 1, (4, 5).2 + 0)
      /\ ((Player.move (4, 5) 1 0 arena [hunter]).2 = Player.next_floor
          /\ Dungeon.stairs_down arena = Some ((4, 5).1 + 1, (4, 5).2 + 0)
          \/ (Player.move (4, 5) 1 0 arena [hunter]).2 = Player.moved
             /\ Dungeon.stairs_down arena
                <> Some ((4, 5).1 + 1, (4, 5).2 + 0))).
Proof.
  apply (move_outcome (4, 5) 1 0 arena [hunter]).
  split; [reflexivity|]. repeat constructor.
Defined.

(** X23. Whatever sequence of [Player.move] calls is made on a
    well-formed floor, a player who started on a walkable tile stands on
    a walkable tile inside the grid, and one who started on a cell free
    of enemies stands on a cell free of enemies. *)
Theorem stroll_stays_walkable (self : pos) (steps : list (Z * Z))
    (d : Dungeon.t) (enemies : list Enemy.t) :
  Dungeon.wf d -> Dungeon.walkable d self ->
  Dungeon.walkable d (Actors.stroll self steps d enemies)
  /\ Dungeon.inside d (Actors.stroll self steps d enemies).1
       (Actors.stroll self steps d enemies).2 = true
  /\ (Actors.vacant enemies self ->
      Actors.vacant enemies (Actors.stroll self steps d enemies)).
Proof.
  intros Hwf Hstart.
  cut (Dungeon.walkable d (Actors.stroll self steps d enemies)
       /\ (Actors.vacant enemies self ->
           Actors.vacant enemies (Actors.stroll self steps d enemies))).
  { intros [Hw Hv]. split_and!; [done| |done]. by apply walkable_inside. }
  induction steps as [|step steps IH] using rev_ind; [done|].
  rewrite stroll_snoc. destruct IH as [Hw Hv].
  destruct (move_spec (Actors.stroll self steps d enemies) step.1 step.2
              d enemies Hwf) as [->|(_ & _ & ? & ? & _)]; [done|].
  split; [done|]. auto.
Qed.

Lemma stroll_stays_walkable_witness :
  Dungeon.walkable arena (Actors.stroll (1, 1) [(1, 0); (1, 0); (0, -1); (0, -1)]
                            arena [hunter])
  /\ Dungeon.inside arena
       (Actors.stroll (1, 1) [(1, 0); (1, 0); (0, -1); (0, -1)] arena [hunter]).1
       (Actors.stroll (1, 1) [(1, 0); (1, 0); (0, -1); (0, -1)] arena [hunter]).2
     = true
  /\ (Actors.vacant [hunter] (1, 1) ->
      Actors.vacant [hunter]
        (Actors.stroll (1, 1) [(1, 0); (1, 0); (0, -1); (0, -1)] arena [hunter])).
Proof.
  apply (stroll_stays_walkable (1, 1) [(1, 0); (1, 0); (0, -1); (0, -1)]
           arena [hunter]).
  - split; [reflexivity|]. repeat constructor.
  - exists (new_tile FLOOR). split; reflexivity.
Defined.

(** ** Enemies *)

(** X24. On a well-formed floor of at least 60×40 tiles [follow_path]
    returns.  When it returns [True] the enemy has moved to the first
    cell of its path, that cell lies in the 60×40 window, is a floor
    tile and is held by no other living enemy, and the cell is removed
    from the path; when it returns [False] the enemy has not moved and
    its path is empty. *)
Theorem follow_path_step (self : Enemy.t) (others : list Enemy.t)
    (d : Dungeon.t) :
  Dungeon.wf d ->
  Settings.GRID_WIDTH <= Dungeon.width d ->
  Settings.GRID_HEIGHT <= Dungeon.height d ->
  exists self' moved, Enemy.follow_path self others d = Done (self', moved)
    /\ (moved = true ->
        Enemy.path self = Enemy.position self' :: Enemy.path self'
        /\ Actors.in_window (Enemy.position self')
        /\ Actors.floor_at d (Enemy.position self')
        /\ Actors.unheld others (Enemy.position self'))
    /\ (moved = false ->
        Enemy.position self' = Enemy.position self /\ Enemy.path self' = []).
Proof.
  intros Hwf Hw Hh.
  destruct (follow_path_spec self others d Hwf Hw Hh)
    as (self' & moved & Hrun & _ & Hmoved & Hstay).
  exists self', moved. split_and!; [done| |done].
  intros Hm. destruct (Hmoved Hm) as (? & ? & ? & ? & _). done.
Qed.

Lemma follow_path_step_witness :
  exists self' moved, Enemy.follow_path hunter [sentry] arena = Done (self', moved)
    /\ (moved = true ->
        Enemy.path hunter = Enemy.position self' :: Enemy.path self'
        /\ Actors.in_window (Enemy.position self')
        /\ Actors.floor_at arena (Enemy.position self')
        /\ Actors.unheld [sentry] (Enemy.position self'))
    /\ (moved = false ->
        Enemy.position self' = Enemy.position hunter /\ Enemy.path self' = []).
Proof.
  apply (follow_path_step hunter [sentry] arena).
  - split; [reflexivity|]. repeat constructor.
  - vm_compute. discriminate.
  - vm_compute. discriminate.
Defined.

(** X25. After a step of [follow_path] the enemy faces up, whichever
    way it moved: the direction is computed from the difference between
    the target cell and the position, after the position has been set to
    the target cell. *)
Theorem follow_path_faces_up (self self' : Enemy.t) (others : list Enemy.t)
    (d : Dungeon.t) :
  Dungeon.wf d ->
  Settings.GRID_WIDTH <= Dungeon.width d ->
  Settings.GRID_HEIGHT <= Dungeon.height d ->
  Enemy.follow_path self others d = Done (self', true) ->
  Enemy.direction self' = Enemy.up.
Proof.
  intros Hwf Hw Hh Hrun.
  destruct (follow_path_spec self others d Hwf Hw Hh)
    as (self'' & moved & Hrun' & _ & Hmoved & _).
  rewrite Hrun in Hrun'. injection Hrun' as <- <-.
  by destruct (Hmoved eq_refl) as (_ & _ & _ & _ & ?).
Qed.

Lemma follow_path_faces_up_witness :
  Enemy.direction
    {| Enemy.x := 2; Enemy.y := 1; Enemy.alive := true;
       Enemy.path := [(1, 1)]; Enemy.direction := Enemy.up |} = Enemy.up.
Proof.
  apply (follow_path_faces_up hunter _ [sentry] arena).
  - split; [reflexivity|]. repeat constructor.
  - vm_compute. discriminate.
  - vm_compute. discriminate.
  - vm_compute. reflexivity.
Defined.

(** X26. On a well-formed floor of at least 60×40 tiles
    [calculate_path_to_player] returns.  Every cell of the returned path
    lies in the 60×40 window, is a floor tile and is held by no other
    living enemy; the path holds no cell twice and not the enemy's own
    cell; a non-empty path begins one 4-directional step from the enemy
    and ends on the player's cell; and the path is empty when the player
    is on the enemy's cell or next to it. *)
Theorem enemy_path_cells (self : Enemy.t) (others : list Enemy.t)
    (player : pos) (d : Dungeon.t) :
  Dungeon.wf d ->
  Settings.GRID_WIDTH <= Dungeon.width d ->
  Settings.GRID_HEIGHT <= Dungeon.height d ->
  exists path,
    Enemy.calculate_path_to_player self others player d = Done path
    /\ (forall c, c ∈ path ->
          Actors.in_window c /\ Actors.floor_at d c /\ Actors.unheld others c)
    /\ NoDup path
    /\ (Enemy.position self ∉ path)
    /\ (path <> [] ->
        last path = Some player
        /\ exists dir, dir ∈ Pathfinding.directions
             /\ head path
                = Some (Pathfinding.next (Enemy.position self) dir))
    /\ (Entity.is_adjacent_to (Enemy.position self) player = true ->
        path = []).
Proof. apply calculate_path_spec. Qed.

Lemma enemy_path_cells_witness :
  exists path,
    Enemy.calculate_path_to_player hunter [sentry] (0, 1) arena = Done path
    /\ (forall c, c ∈ path ->
          Actors.in_window c /\ Actors.floor_at arena c
          /\ Actors.unheld [sentry] c)
    /\ NoDup path
    /\ (Enemy.position hunter ∉ path)
    /\ (path <> [] ->
        last path = Some (0, 1)
        /\ exists dir, dir ∈ Pathfinding.directions
             /\ head path
                = Some (Pathfinding.next (Enemy.position hunter) dir))
    /\ (Entity.is_adjacent_to (Enemy.position hunter) (0, 1) = true ->
        path = []).
Proof.
  apply (enemy_path_cells hunter [sentry] (0, 1) arena).
  - split; [reflexivity|]. repeat constructor.
  - vm_compute. discriminate.
  - vm_compute. discriminate.
Defined.

(** X27. An enemy finds no path to a player who stands on a tile that
    is not a plain floor tile: on a well-formed floor of at least 60×40
    tiles [calculate_path_to_player] returns the empty list when the
    player's tile is a door or a staircase, although the player can walk
    on those. *)
Theorem enemy_path_none_off_floor (self : Enemy.t) (others : list Enemy.t)
    (player : pos) (d : Dungeon.t) (v : Tile) :
  Dungeon.wf d ->
  Settings.GRID_WIDTH <= Dungeon.width d ->
  Settings.GRID_HEIGHT <= Dungeon.height d ->
  Dungeon.tile_at d player.1 player.2 = Some v -> type v <> FLOOR ->
  Enemy.calculate_path_to_player self others player d = Done [].
Proof.
  intros Hwf Hw Hh Hv Hty.
  destruct (calculate_path_spec self others player d Hwf Hw Hh)
    as (path & Hrun & Hcells & _ & _ & Hends & _).
  destruct path as [|c path]; [done|].
  destruct Hends as [Hlast _]; [done|].
  destruct (Hcells player) as (_ & (v' & Hv' & Hf) & _).
  { apply last_Some in Hlast as [l' ->]. apply elem_of_app. right. left. }
  congruence.
Qed.

Lemma enemy_path_none_off_floor_witness :
  Enemy.calculate_path_to_player hunter [sentry] (0, 0) arena_with_door
  = Done [].
Proof.
  apply (enemy_path_none_off_floor hunter [sentry] (0, 0) arena_with_door
           (new_tile DOOR)).
  - split; [reflexivity|]. repeat constructor.
  - vm_compute. discriminate.
  - vm_compute. discriminate.
  - reflexivity.
  - discriminate.
Defined.

(** X28. [calculate_path_to_player] reads the 60×40 window of the grid
    whatever the size of the floor: on a well-formed floor less than 60
    wide or less than 40 high it raises IndexError, unless the player is
    on the enemy's cell or next to it. *)
Theorem enemy_path_small_floor (self : Enemy.t) (others : list Enemy.t)
    (player : pos) (d : Dungeon.t) :
  Dungeon.wf d ->
  Dungeon.width d < Settings.GRID_WIDTH
  \/ Dungeon.height d < Settings.GRID_HEIGHT ->
  Entity.is_adjacent_to (Enemy.position self) player = false ->
  Enemy.calculate_path_to_player self others player d = Raised IndexError.
Proof.
  intros Hwf Hsmall Hfar. unfold Enemy.calculate_path_to_player.
  fold (Enemy.position self). rewrite Hfar.
  by rewrite path_mask_small.
Qed.

Lemma enemy_path_small_floor_witness :
  Enemy.calculate_path_to_player hunter [sentry] (0, 1) hall
  = Raised IndexError.
Proof.
  apply (enemy_path_small_floor hunter [sentry] (0, 1) hall).
  - split; [reflexivity|]. repeat constructor.
  - left. vm_compute. reflexivity.
  - reflexivity.
Defined.

(** ** Biomes *)

(** X29. [determine_biome] picks the biome of the highest threshold not
    above the level, CAVERN for every level below 5 (0 and negative
    levels included) and CRYSTAL from level 25 on; the visibility radius
    derived from it lies between 6 and 13 for every level, so the radius
    handed to [compute_fov] is never negative. *)
Theorem biome_of_level (level : Z) :
  Dungeon.determine_biome level
  = (if level <? 5 then Biome.CAVERN
     else if level <? 10 then Biome.FOREST
     else if level <? 15 then Biome.ICE
     else if level <? 20 then Biome.LAVA
     else if level <? 25 then Biome.SHADOW
     else Biome.CRYSTAL)
  /\ 6 <= Dungeon.visibility_radius (Dungeon.determine_biome level) <= 13.
Proof.
  split; [apply determine_biome_spec|].
  destruct (Dungeon.determine_biome level); vm_compute; split; discriminate.
Qed.

End Extras.
